(** * Snake Q-learning: the grid simulator, the Q-table agent and the
    evaluation loop, embedded from [src/env.py], [src/agent.py] and
    [src/evaluate.py].

    Conventions of the embedding.
    - Python [int] is [Z]; [//] is [Z.div] and [%] is [Z.modulo] (both floor,
      as in Python).
    - Python [float] in the simulator (rewards) is the kernel's binary64
      [PrimFloat.float]; the rewards are computed bit for bit.
    - A Python method is a computation in a state-and-exception monad: the
      object is the state, a raised exception is a result, and the state
      reached at the point of the raise is kept (Python does not roll back).
    - [random.Random] is a cursor into an arbitrary sequence of raw draws.
    - Rendering is off ([render=False], the default): [_maybe_render] returns
      at once and [close] does nothing, so neither appears below. *)

From Stdlib Require Import ZArith List Lia Sorted.
From Stdlib Require Import Floats.PrimFloat.
From stdpp Require Import base option list gmap strings.

Local Open Scope Z_scope.

(** ** Exceptions and the state-and-exception monad *)

Inductive exn : Type :=
| IndexError
| ValueError.

Inductive res (A : Type) : Type :=
| Ok (a : A)
| Raise (e : exn).
Arguments Ok {A} a.
Arguments Raise {A} e.

Definition M (S A : Type) : Type := S -> res A * S.

Definition ret {S A} (a : A) : M S A := fun s => (Ok a, s).

Definition bind {S A B} (c : M S A) (k : A -> M S B) : M S B :=
  fun s => match c s with
           | (Ok a, s') => k a s'
           | (Raise e, s') => (Raise e, s')
           end.

Definition raise {S A} (e : exn) : M S A := fun s => (Raise e, s).
Definition get {S} : M S S := fun s => (Ok s, s).
Definition gets {S A} (f : S -> A) : M S A := fun s => (Ok (f s), s).
Definition put {S} (s : S) : M S unit := fun _ => (Ok tt, s).
Definition modify {S} (f : S -> S) : M S unit := fun s => (Ok tt, f s).

(** Result of a computation that cannot touch the state. *)
Definition lift_res {S A} (r : res A) : M S A := fun s => (r, s).

Declare Scope py_scope.
Delimit Scope py_scope with py.
Notation "'let*' x := c 'in' k" := (bind c (fun x => k))
  (at level 10, x pattern, c at level 100, k at level 200) : py_scope.
Notation "c ;;; k" := (bind c (fun _ => k))
  (at level 100, right associativity) : py_scope.
Local Open Scope py_scope.

(** ** Python sequence helpers *)

(** [l[i]] on a Python list or tuple: a negative index counts from the end,
    anything out of range raises [IndexError]. *)
Definition py_getitem {A} (l : list A) (i : Z) : res A :=
  let len := Z.of_nat (length l) in
  let j := if i <? 0 then i + len else i in
  if (0 <=? j) && (j <? len)
  then match l !! Z.to_nat j with
       | Some x => Ok x
       | None => Raise IndexError
       end
  else Raise IndexError.

(** [range(n)] *)
Definition py_range (n : Z) : list Z := map Z.of_nat (seq 0 (Z.to_nat n)).

(** ** random.Random *)

Record Rng : Type := mkRng { raw : nat -> nat; cursor : nat }.

(** [_randbelow(n)] for [n > 0]: the next raw draw, reduced below [n]. *)
Definition randbelow (n : nat) : M Rng nat :=
  fun g => (Ok (raw g (cursor g) mod n)%nat, mkRng (raw g) (S (cursor g))).

(** [rng.choice(seq)] raises [IndexError] on an empty sequence. *)
Definition choice {A} (l : list A) : M Rng A :=
  match l with
  | [] => raise IndexError
  | _ => let* k := randbelow (length l) in
         lift_res (py_getitem l (Z.of_nat k))
  end.

(** ** src/env.py *)

Definition cell : Type := Z * Z.

(** Directions: U, R, D, L *)
Definition DIRS : list cell := [(0, -1); (1, 0); (0, 1); (-1, 0)].

(** (danger_left, danger_front, danger_right, sdx, sdy, dir) *)
Definition state : Type := Z * Z * Z * Z * Z * Z.

Record SnakeEnv : Type := mkEnv {
  env_n : Z;
  env_rng : Rng;
  env_dir : Z;
  env_snake : list cell;
  env_food : cell;
  env_steps : Z;
  env_prev_dist : Z
}.

Definition set_dir (d : Z) (e : SnakeEnv) : SnakeEnv :=
  mkEnv (env_n e) (env_rng e) d (env_snake e) (env_food e) (env_steps e) (env_prev_dist e).
Definition set_snake (s : list cell) (e : SnakeEnv) : SnakeEnv :=
  mkEnv (env_n e) (env_rng e) (env_dir e) s (env_food e) (env_steps e) (env_prev_dist e).
Definition set_food (f : cell) (e : SnakeEnv) : SnakeEnv :=
  mkEnv (env_n e) (env_rng e) (env_dir e) (env_snake e) f (env_steps e) (env_prev_dist e).
Definition set_steps (k : Z) (e : SnakeEnv) : SnakeEnv :=
  mkEnv (env_n e) (env_rng e) (env_dir e) (env_snake e) (env_food e) k (env_prev_dist e).
Definition set_prev_dist (d : Z) (e : SnakeEnv) : SnakeEnv :=
  mkEnv (env_n e) (env_rng e) (env_dir e) (env_snake e) (env_food e) (env_steps e) d.
Definition set_rng (g : Rng) (e : SnakeEnv) : SnakeEnv :=
  mkEnv (env_n e) g (env_dir e) (env_snake e) (env_food e) (env_steps e) (env_prev_dist e).

(** [SnakeEnv(n, seed)]: the seed fixes the sequence of raw draws. *)
Definition SnakeEnv_init (n : Z) (g : Rng) : SnakeEnv :=
  mkEnv n g 1 [] (0, 0) 0 0.

(** A method of the generator run on the generator the environment owns. *)
Definition with_rng {A} (c : M Rng A) : M SnakeEnv A :=
  fun e => match c (env_rng e) with (r, g) => (r, set_rng g e) end.

Definition cell_eqb (a b : cell) : bool :=
  (fst a =? fst b) && (snd a =? snd b).

(** [pos in cells] on a list of tuples. *)
Definition cell_in (c : cell) (l : list cell) : bool := existsb (cell_eqb c) l.

(** [self.snake[:-1]] *)
Definition but_last {A} (l : list A) : list A := removelast l.
Arguments but_last : simpl never.

Definition _manhattan (a b : cell) : Z :=
  Z.abs (fst a - fst b) + Z.abs (snd a - snd b).

Definition _out_of_bounds (n : Z) (pos : cell) : bool :=
  let '(x, y) := pos in
  (x <? 0) || (x >=? n) || (y <? 0) || (y >=? n).

Definition _turn (action : Z) : M SnakeEnv unit :=
  if action =? 0 then modify (fun e => set_dir ((env_dir e - 1) mod 4) e)
  else if action =? 2 then modify (fun e => set_dir ((env_dir e + 1) mod 4) e)
  else ret tt.

(** [{(x, y) for x in range(n) for y in range(n)} - set(self.snake)],
    enumerated row by row.  The iteration order of the Python set is not
    modelled: the draw that indexes the list is arbitrary. *)
Definition free_cells (n : Z) (snake : list cell) : list cell :=
  List.filter (fun c => negb (cell_in c snake))
         (flat_map (fun x => map (fun y => (x, y)) (py_range n)) (py_range n)).

Definition _place_food : M SnakeEnv unit :=
  let* e := get in
  let* f := with_rng (choice (free_cells (env_n e) (env_snake e))) in
  modify (set_food f).

Definition _danger (rel : Z) : M SnakeEnv Z :=
  let* e := get in
  let d := (env_dir e + rel) mod 4 in
  let* (hx, hy) := lift_res (py_getitem (env_snake e) 0) in
  let* (dx, dy) := lift_res (py_getitem DIRS d) in
  let '(nx, ny) := (hx + dx, hy + dy) in
  ret (if _out_of_bounds (env_n e) (nx, ny) || cell_in (nx, ny) (but_last (env_snake e))
       then 1 else 0).

Definition _state : M SnakeEnv state :=
  let* e := get in
  let* (hx, hy) := lift_res (py_getitem (env_snake e) 0) in
  let '(fx, fy) := env_food e in
  let sdx := if fx =? hx then 0 else if fx >? hx then 1 else -1 in
  let sdy := if fy =? hy then 0 else if fy >? hy then 1 else -1 in
  let* dl := _danger (-1) in
  let* df := _danger 0 in
  let* dr := _danger 1 in
  ret (dl, df, dr, sdx, sdy, env_dir e).

Definition reset : M SnakeEnv state :=
  modify (set_dir 1) ;;;
  let* n := gets env_n in
  let mid := n / 2 in
  modify (set_snake [(mid, mid); (mid - 1, mid)]) ;;;
  _place_food ;;;
  modify (set_steps 0) ;;;
  let* e := get in
  let* h := lift_res (py_getitem (env_snake e) 0) in
  modify (set_prev_dist (_manhattan h (env_food e))) ;;;
  _state.

(** The [info] dictionary of [step]. *)
Definition info_t : Type := gmap string bool.

#[warnings="-inexact-float"]
Definition step (action : Z) : M SnakeEnv (state * float * bool * info_t) :=
  _turn action ;;;
  let* e := get in
  let* (dx, dy) := lift_res (py_getitem DIRS (env_dir e)) in
  let* (hx, hy) := lift_res (py_getitem (env_snake e) 0) in
  let new_head := (hx + dx, hy + dy) in
  if _out_of_bounds (env_n e) new_head then
    let* s := _state in ret (s, (-10.0)%float, true, ∅)
  else
    let will_eat := cell_eqb new_head (env_food e) in
    let body := if will_eat then env_snake e else but_last (env_snake e) in
    if cell_in new_head body then
      let* s := _state in ret (s, (-10.0)%float, true, ∅)
    else
      modify (set_snake (new_head :: env_snake e)) ;;;
      let reward := (-0.01)%float in
      let info : info_t := {[ "ate" := false ]} in
      let* (reward, info) :=
        (if will_eat then
           _place_food ;;; ret ((reward + 10.0)%float, <[ "ate" := true ]> info)
         else
           modify (fun e => set_snake (but_last (env_snake e)) e) ;;;
           ret (reward, info)) in
      let* e := get in
      let dist := _manhattan new_head (env_food e) in
      let reward := if dist <? env_prev_dist e then (reward + 0.05)%float
                    else if dist >? env_prev_dist e then (reward - 0.02)%float
                    else reward in
      modify (set_prev_dist dist) ;;;
      modify (fun e => set_steps (env_steps e + 1) e) ;;;
      let* s := _state in
      ret (s, reward, false, info).

(** The states a caller can observe: those left by a [reset()] or a
    [step(action)] that returned. *)
Inductive reachable : SnakeEnv -> Prop :=
| reach_reset e0 s e :
    reset e0 = (Ok s, e) -> reachable e
| reach_step e a r e' :
    reachable e -> step a e = (Ok r, e') -> reachable e'.

(** The heading [_turn] leaves behind. *)
Definition turned (action d : Z) : Z :=
  if action =? 0 then (d - 1) mod 4
  else if action =? 2 then (d + 1) mod 4
  else d.

(** A cell lies off the grid. *)
Definition off_grid (n : Z) (c : cell) : Prop :=
  ~ (0 <= fst c < n /\ 0 <= snd c < n).

(** A cell is occupied by a segment of the body that is not the tail
    segment (the last one). *)
Definition non_tail_segment (snake : list cell) (c : cell) : Prop :=
  exists i : nat, (i + 1 < length snake)%nat /\ snake !! i = Some c.

(** What the danger flag for the relative direction [rel] has to be. *)
Definition danger_flag_ok (e : SnakeEnv) (rel flag : Z) : Prop :=
  exists hx hy tl dx dy,
    env_snake e = (hx, hy) :: tl /\
    DIRS !! Z.to_nat ((env_dir e + rel) mod 4) = Some (dx, dy) /\
    (flag = 0 \/ flag = 1) /\
    (flag = 1 <->
     off_grid (env_n e) (hx + dx, hy + dy) \/
     non_tail_segment (env_snake e) (hx + dx, hy + dy)).

(** The invariant of the observable states. *)
Definition env_inv (e : SnakeEnv) : Prop :=
  (2 <= length (env_snake e))%nat /\
  0 <= env_dir e < 4 /\
  env_food e ∉ env_snake e.


(** [reset()] followed by [step(a)] for each [a] of a list, on a fresh
    environment of size [n]: an episode as a caller drives it. *)
Fixpoint steps (acts : list Z) : M SnakeEnv unit :=
  match acts with
  | [] => ret tt
  | a :: rest => step a ;;; steps rest
  end.

Definition play (n : Z) (acts : list Z) (g : Rng) : res unit * SnakeEnv :=
  (reset ;;; steps acts) (SnakeEnv_init n g).

(** A call returns (does not raise) from state [s]. *)
Definition returns {S A} (c : M S A) (s : S) : Prop :=
  exists a s', c s = (Ok a, s').

(** The reading of the wall rule under which nothing of the move is
    committed: the call ends the episode with reward -10, hands back the
    encoding of the state it started from, and leaves heading, body and food
    as they were. *)
Definition wall_hit_keeps_prior_state (e : SnakeEnv) (action : Z) : Prop :=
  exists s e',
    step action e = (Ok (s, (-10)%float, true, ∅), e') /\
    _state e = (Ok s, e) /\
    env_dir e' = env_dir e /\ env_snake e' = env_snake e /\
    env_food e' = env_food e.

(** *** Concrete environments *)

(** The 2x2 grid right after [reset()], first raw draw 0: the snake fills the
    bottom row heading right, the food is in the top-left corner. *)
Definition env_2x2 : SnakeEnv :=
  mkEnv 2 (mkRng (fun _ => 0%nat) 1) 1 [(1, 1); (0, 1)] (0, 0) 0 2.

(** Raw draws that put each new food cell right where the snake goes next on
    the 3x3 grid. *)
Definition rng_3x3 : Rng :=
  mkRng (fun i => match i with 0 => 4 | 1 => 3 | _ => 0 end)%nat 0.

(** The 3x3 grid after [reset()] and the actions 1,0,0,1,0,1,0 under
    [rng_3x3]: eight cells of snake heading right, the food in the one free
    cell straight ahead. *)
Definition env_3x3 : SnakeEnv :=
  mkEnv 3 (mkRng (raw rng_3x3) 7) 1
        [(1, 2); (0, 2); (0, 1); (0, 0); (1, 0); (2, 0); (2, 1); (1, 1)]
        (2, 2) 7 1.

(** ** src/agent.py *)

(** The floating-point scalars of the agent.  numpy's and Python's float
    arithmetic is kept abstract: [F] is the scalar type in which the
    right-hand sides are computed, [f32] is the rounding numpy applies when a
    scalar is stored into a [float32] vector, and [frandom] builds the float
    that [random.random()] returns from a raw draw. *)
Class NpFloat (F : Type) : Type := {
  fzero : F;
  fadd : F -> F -> F;
  fsub : F -> F -> F;
  fmul : F -> F -> F;
  fltb : F -> F -> bool;
  feqb : F -> F -> bool;
  f32 : F -> F;
  frandom : nat -> F
}.

(** What the proofs about comparisons need.  Every law is true of IEEE
    floats, NaN and the infinities included: [<] is a strict order that
    holds between ordered values only, [==] is symmetric and transitive and
    a congruence for [<], two values that are not NaN are comparable, and a
    NaN is the one value that is not [==] to itself.  Besides, 0.0 is not
    NaN, [float32] values store unchanged, and [random.random()] is never
    below zero. *)
Class NpFloatLaws (F : Type) `{NpFloat F} : Prop := {
  fltb_asym : forall x y : F, fltb x y = true -> fltb y x = false;
  fltb_trans : forall x y z : F,
      fltb x y = true -> fltb y z = true -> fltb x z = true;
  fltb_ordered : forall x y : F,
      fltb x y = true -> feqb x x = true /\ feqb y y = true;
  feqb_sym : forall x y : F, feqb x y = feqb y x;
  feqb_trans : forall x y z : F,
      feqb x y = true -> feqb y z = true -> feqb x z = true;
  feqb_fltb_l : forall x y z : F, feqb x y = true -> fltb x z = fltb y z;
  feqb_fltb_r : forall x y z : F, feqb x y = true -> fltb z x = fltb z y;
  f_comparable : forall x y : F,
      feqb x x = true -> feqb y y = true ->
      fltb x y = true \/ feqb x y = true \/ fltb y x = true;
  fzero_eq : feqb (fzero : F) fzero = true;
  f32_zero : f32 fzero = fzero;
  f32_idem : forall x : F, f32 (f32 x) = f32 x;
  frandom_nonneg : forall k : nat, fltb (frandom k) fzero = false
}.

(** [isnan(x)], that is [x != x]. *)
Definition fisnan {F} `{NpFloat F} (x : F) : bool := negb (feqb x x).

(** [x <= y] *)
Definition fleb {F} `{NpFloat F} (x y : F) : bool := fltb x y || feqb x y.

(** Exact integer arithmetic, an instance on which the definitions run. *)
#[export] Instance Z_NpFloat : NpFloat Z := {|
  fzero := 0;
  fadd := Z.add;
  fsub := Z.sub;
  fmul := Z.mul;
  fltb := Z.ltb;
  feqb := Z.eqb;
  f32 := fun x => x;
  frandom := fun _ => 0
|}.

(** The integers with a NaN ([None]): an instance on which runs that meet a
    NaN can be evaluated.  Arithmetic propagates the NaN and every
    comparison with it is false. *)
#[export] Instance ZNaN_NpFloat : NpFloat (option Z) := {|
  fzero := Some 0;
  fadd := fun x y => match x, y with Some a, Some b => Some (a + b) | _, _ => None end;
  fsub := fun x y => match x, y with Some a, Some b => Some (a - b) | _, _ => None end;
  fmul := fun x y => match x, y with Some a, Some b => Some (a * b) | _, _ => None end;
  fltb := fun x y => match x, y with Some a, Some b => a <? b | _, _ => false end;
  feqb := fun x y => match x, y with Some a, Some b => a =? b | _, _ => false end;
  f32 := fun x => x;
  frandom := fun _ => Some 0
|}.

(** [QTable]: the action count and the [defaultdict] from keys to value
    vectors. *)
Record QTable (K F : Type) `{Countable K} : Type := mkQ {
  actions : Z;
  Q : gmap K (list F)
}.
Arguments mkQ {K F _ _} actions Q.
Arguments actions {K F _ _} _.
Arguments Q {K F _ _} _.

(** The pickled dictionary [{"actions": ..., "Q": dict(self.Q)}]; the file is
    modelled by the object [pickle] stores in it and hands back. *)
Record Snapshot (K F : Type) : Type := mkSnapshot {
  snap_actions : Z;
  snap_Q : list (K * list F)
}.
Arguments mkSnapshot {K F} snap_actions snap_Q.
Arguments snap_actions {K F} _.
Arguments snap_Q {K F} _.

(** The module-level generator of [random]. *)
Definition random_random {F} `{NpFloat F} : M Rng F :=
  fun g => (Ok (frandom (raw g (cursor g))), mkRng (raw g) (S (cursor g))).

(** [random.randrange(n)] raises [ValueError] on an empty range. *)
Definition randrange (n : Z) : M Rng Z :=
  if n <=? 0 then raise ValueError
  else let* k := randbelow (Z.to_nat n) in ret (Z.of_nat k).

(** [enumerate(q)] *)
Fixpoint enumerate_from {A} (i : Z) (q : list A) : list (Z * A) :=
  match q with
  | [] => []
  | v :: q' => (i, v) :: enumerate_from (i + 1) q'
  end.

Definition enumerate {A} (q : list A) : list (Z * A) := enumerate_from 0 q.

Section Agent.
Context {K : Type} `{Countable K} {F : Type} `{NpFloat F}.

(** [np.zeros(n, dtype=np.float32)] *)
Definition np_zeros (n : Z) : res (list F) :=
  if n <? 0 then Raise ValueError else Ok (replicate (Z.to_nat n) fzero).

(** [np.max(q)] raises [ValueError] on an empty vector.  The reduction is
    numpy's [maximum], [(m >= v || isnan(m)) ? m : v]: a NaN, once met, is
    the result. *)
Definition np_max (q : list F) : res F :=
  match q with
  | [] => Raise ValueError
  | x :: xs => Ok (fold_left (fun m v => if fleb v m || fisnan m then m else v) xs x)
  end.

(** [np.argmax(q)]: the first index that holds the maximum, and the index of
    the first NaN when there is one.  numpy's loop stops at a NaN and moves
    to entry [v] when [!(v <= best)]. *)
Fixpoint argmax_from (i best_i : Z) (best : F) (q : list F) : Z :=
  match q with
  | [] => best_i
  | v :: q' => if fisnan best then best_i
               else if negb (fleb v best) then argmax_from (i + 1) i v q'
               else argmax_from (i + 1) best_i best q'
  end.

Definition np_argmax (q : list F) : res Z :=
  match q with
  | [] => Raise ValueError
  | x :: xs => Ok (argmax_from 1 0 x xs)
  end.

(** [q[a] = x] on a vector: same index rule as reading. *)
Definition np_setitem (q : list F) (a : Z) (x : F) : res (list F) :=
  let len := Z.of_nat (length q) in
  let j := if a <? 0 then a + len else a in
  if (0 <=? j) && (j <? len) then Ok (<[Z.to_nat j := x]> q)
  else Raise IndexError.

(** [self.Q[s]] on the [defaultdict]: a missing key is created with the
    factory's value, [np.zeros(actions, dtype=np.float32)]. *)
Definition Q_getitem (s : K) : M (QTable K F) (list F) :=
  let* t := get in
  match Q t !! s with
  | Some q => ret q
  | None =>
      let* q := lift_res (np_zeros (actions t)) in
      modify (fun t => mkQ (actions t) (<[s := q]> (Q t))) ;;;
      ret q
  end.

(** [self.Q[s][a] = x]: the vector stored under [s] is updated in place. *)
Definition Q_setitem (s : K) (a : Z) (x : F) : M (QTable K F) unit :=
  let* q := Q_getitem s in
  let* q' := lift_res (np_setitem q a (f32 x)) in
  modify (fun t => mkQ (actions t) (<[s := q']> (Q t))).

Definition QTable_init (n : Z) : QTable K F := mkQ n ∅.

Definition on_table {A} (c : M (QTable K F) A) : M (QTable K F * Rng) A :=
  fun w => match c (fst w) with (r, t) => (r, (t, snd w)) end.

Definition on_random {A} (c : M Rng A) : M (QTable K F * Rng) A :=
  fun w => match c (snd w) with (r, g) => (r, (fst w, g)) end.

(** [[i for i, v in enumerate(q) if v == m]] *)
Definition maximizers (q : list F) (m : F) : list Z :=
  map fst (List.filter (fun iv => feqb (snd iv) m) (enumerate q)).

Definition act (st : K) (eps : F) : M (QTable K F * Rng) Z :=
  let* u := on_random random_random in
  if fltb u eps then
    let* w := get in on_random (randrange (actions (fst w)))
  else
    let* q := on_table (Q_getitem st) in
    let* m := lift_res (np_max q) in
    let idxs := maximizers q m in
    on_random (choice idxs).

Definition update (s : K) (a : Z) (r : F) (s2 : K) (alpha gamma : F)
  : M (QTable K F) unit :=
  let* qs := Q_getitem s in
  let* qsa := lift_res (py_getitem qs a) in
  let* q2 := Q_getitem s2 in
  let* m := lift_res (np_max q2) in
  let td := fsub (fadd r (fmul gamma m)) qsa in
  Q_setitem s a (fadd qsa (fmul alpha td)).

Definition greedy (st : K) : M (QTable K F) Z :=
  let* q := Q_getitem st in
  lift_res (np_argmax q).

Definition save (t : QTable K F) : Snapshot K F :=
  mkSnapshot (actions t) (map_to_list (Q t)).

(** [agent.Q[k] = np.array(v, dtype=np.float32)] for every item. *)
Definition load (obj : Snapshot K F) : QTable K F :=
  mkQ (snap_actions obj)
      (fold_left (fun m kv => <[fst kv := map f32 (snd kv)]> m) (snap_Q obj) ∅).

(** *** Notions used to state the properties of the table *)

(** Every vector has one entry per action. *)
Definition table_wf (t : QTable K F) : Prop :=
  forall k q, Q t !! k = Some q -> length q = Z.to_nat (actions t).

(** Every entry is a [float32] value. *)
Definition f32_table (t : QTable K F) : Prop :=
  forall k q, Q t !! k = Some q -> Forall (fun x => f32 x = x) q.

(** The dictionary after a read of key [s]: an absent key now holds the
    all-zero vector with one entry per action. *)
Definition lazy_init (n : Z) (s : K) (m : gmap K (list F)) : gmap K (list F) :=
  match m !! s with
  | Some _ => m
  | None => <[s := replicate (Z.to_nat n) fzero]> m
  end.

(** [v] is an entry of [q] that no entry of [q] exceeds. *)
Definition is_maximal (q : list F) (v : F) : Prop :=
  v ∈ q /\ forall w, w ∈ q -> fltb v w = false.

(** [old + alpha * (r + gamma * m - old)] *)
Definition td_target (old r m alpha gamma : F) : F :=
  fadd old (fmul alpha (fsub (fadd r (fmul gamma m)) old)).
End Agent.

(** No entry of the vector is a NaN. *)
Definition nan_free {F} `{NpFloat F} (q : list F) : Prop :=
  Forall (fun v => feqb v v = true) q.

(** No vector of the table holds a NaN. *)
Definition table_nan_free {K F} `{Countable K} `{NpFloat F} (t : QTable K F) : Prop :=
  forall k q, Q t !! k = Some q -> nan_free q.

(** A table with the single key 7 holding the vector [1, 0, -1]. *)
Definition qt_example : QTable Z Z := mkQ 3 {[ 7 := [1; 0; -1] ]}.

(** The same table over the integers with a NaN, and a table whose vector
    holds a NaN, as [update] leaves it when [alpha] is NaN. *)
Definition qt_example_nan_model : QTable Z (option Z) :=
  mkQ 3 {[ 7 := [Some 1; Some 0; Some (-1)] ]}.

Definition qt_nan : QTable Z (option Z) :=
  mkQ 3 {[ 7 := [Some 0; None; Some 0] ]}.

(** ** src/evaluate.py *)

(** numpy's [mean] and [std] of the float array of scores.  Both are total:
    on an empty array they warn and return nan. *)
Class NpStats (F : Type) : Type := {
  np_mean : list Z -> F;
  np_std : list Z -> F
}.

#[export] Instance Z_NpStats : NpStats Z := {|
  np_mean := fun l => match l with
                      | [] => 0
                      | _ => fold_right Z.add 0 l / Z.of_nat (length l)
                      end;
  np_std := fun _ => 0
|}.

(** [arr.max()] and [arr.min()] raise [ValueError] on an empty array. *)
Definition np_amax (l : list Z) : res Z :=
  match l with
  | [] => Raise ValueError
  | x :: xs => Ok (fold_left Z.max xs x)
  end.

Definition np_amin (l : list Z) : res Z :=
  match l with
  | [] => Raise ValueError
  | x :: xs => Ok (fold_left Z.min xs x)
  end.

(** The dictionary [evaluate] returns. *)
Record Stats (F : Type) : Type := mkStats {
  stat_episodes : Z;
  stat_grid : Z;
  mean_score : F;
  std_score : F;
  max_score : Z;
  min_score : Z
}.
Arguments mkStats {F} _ _ _ _ _ _.

Section Evaluate.
Context {F : Type} `{NpFloat F} `{NpStats F}.

(** The table and the environment [evaluate] works on. *)
Definition World : Type := QTable state F * SnakeEnv.

Definition on_Q {A} (c : M (QTable state F) A) : M World A :=
  fun w => match c (fst w) with (r, t) => (r, (t, snd w)) end.

Definition on_env {A} (c : M SnakeEnv A) : M World A :=
  fun w => match c (snd w) with (r, e) => (r, (fst w, e)) end.

(** [int(np.argmax(Q.Q[s])) if s in Q.Q else 1] *)
Definition greedy_or_default (s : state) : M (QTable state F) Z :=
  let* t := get in
  if decide (is_Some (Q t !! s)) then
    let* q := Q_getitem s in
    lift_res (np_argmax q)
  else ret 1.

(** The [while not done and steps < max_steps] loop; [fuel] is the number
    of steps left before the cap. *)
Fixpoint episode_loop (fuel : nat) (s : state) (score : Z) : M World Z :=
  match fuel with
  | O => ret score
  | S fuel' =>
      let* a := on_Q (greedy_or_default s) in
      let* out := on_env (step a) in
      let '(s', _, done, info) := out in
      let score := if default false (info !! "ate") then score + 1 else score in
      if done then ret score else episode_loop fuel' s' score
  end.

(** The [for _ in range(episodes)] loop, [k] episodes to go. *)
Fixpoint episodes_loop (k : nat) (max_steps : Z) (totals : list Z)
  : M World (list Z) :=
  match k with
  | O => ret totals
  | S k' =>
      let* s := on_env reset in
      let* score := episode_loop (Z.to_nat max_steps) s 0 in
      episodes_loop k' max_steps (totals ++ [score])
  end.

(** The statistics of the scores, in the order the dictionary display
    evaluates them. *)
Definition aggregate (episodes n : Z) (totals : list Z) : res (Stats F) :=
  let mean := np_mean totals in
  let std := np_std totals in
  match np_amax totals with
  | Raise e => Raise e
  | Ok mx =>
      match np_amin totals with
      | Raise e => Raise e
      | Ok mn => Ok (mkStats episodes n mean std mx mn)
      end
  end.

(** [evaluate(Q, episodes, n, seed, max_steps)]; the environment is local
    to the call, the table is the caller's. *)
Definition evaluate (episodes n : Z) (g : Rng) (max_steps : Z)
  : M (QTable state F) (Stats F) :=
  fun t =>
    match (let* totals := episodes_loop (Z.to_nat episodes) max_steps [] in
           lift_res (aggregate episodes n totals)) (t, SnakeEnv_init n g) with
    | (r, (t', _)) => (r, t')
    end.
End Evaluate.

(** ** Notions used to state further properties of the simulator *)

(** A cell of the [n] x [n] grid. *)
Definition in_grid (n : Z) (c : cell) : Prop :=
  0 <= fst c < n /\ 0 <= snd c < n.

(** The cost of a step that does not end the episode. *)
#[warnings="-inexact-float"]
Definition step_cost : float := (-0.01)%float.

(** The approach / depart shaping of [step] applied to a base reward. *)
#[warnings="-inexact-float"]
Definition shaped (base : float) (dist prev : Z) : float :=
  if dist <? prev then (base + 0.05)%float
  else if dist >? prev then (base - 0.02)%float
  else base.

(** The data model of the grid state: a grid of side at least 2, a snake of at
    least two pairwise distinct cells of the grid, a heading among the four
    directions, the food on a grid cell off the snake, and a distance tracker
    that holds the Manhattan distance from the head to the food. *)
Definition grid_state_ok (e : SnakeEnv) : Prop :=
  2 <= env_n e /\
  (2 <= length (env_snake e))%nat /\
  Forall (in_grid (env_n e)) (env_snake e) /\
  NoDup (env_snake e) /\
  0 <= env_dir e < 4 /\
  in_grid (env_n e) (env_food e) /\
  (env_food e ∉ env_snake e) /\
  exists h tl, env_snake e = h :: tl /\
               env_prev_dist e = _manhattan h (env_food e).

(** The danger flag of an encoded state that belongs to an action:
    0 = left, 1 = front, 2 = right. *)
Definition danger_of (s : state) (action : Z) : Z :=
  let '(dl, df, dr, _, _, _) := s in
  if action =? 0 then dl else if action =? 2 then dr else df.

(** The cells of the [n] x [n] grid, row by row. *)
Definition grid_cells (n : Z) : list cell :=
  flat_map (fun x => map (fun y => (x, y)) (py_range n)) (py_range n).

(** ** Notions used to state further properties of the evaluation *)

Arguments stat_episodes {F} _.
Arguments stat_grid {F} _.
Arguments mean_score {F} _.
Arguments std_score {F} _.
Arguments max_score {F} _.
Arguments min_score {F} _.

(** ** src/train.py *)

(** What the training loop needs of float arithmetic besides [NpFloat]:
    the true division of two integers ([ep / eps_decay]) and the passage of a
    reward computed by the simulator into the agent's arithmetic. *)
Class TrainFloat (F : Type) : Type := {
  fdiv_int : Z -> Z -> F;
  of_float : float -> F
}.

(** The integer model used to run examples: floor division, and of a reward
    its sign. *)
#[export] Instance Z_TrainFloat : TrainFloat Z := {|
  fdiv_int := Z.div;
  of_float := fun r => if PrimFloat.ltb r 0 then -1 else if PrimFloat.ltb 0 r then 1 else 0
|}.

(** The same over the integers with a NaN; a division by zero and a NaN
    reward give the NaN. *)
#[export] Instance ZNaN_TrainFloat : TrainFloat (option Z) := {|
  fdiv_int := fun a b => if b =? 0 then None else Some (a / b);
  of_float := fun r => if PrimFloat.ltb r 0 then Some (-1)
                       else if PrimFloat.ltb 0 r then Some 1
                       else if PrimFloat.eqb r 0 then Some 0 else None
|}.

#[export] Instance ZNaN_NpStats : NpStats (option Z) := {|
  np_mean := fun l => match l with
                      | [] => None
                      | _ => Some (fold_right Z.add 0 l / Z.of_nat (length l))
                      end;
  np_std := fun l => match l with [] => None | _ => Some 0 end
|}.

(** The metrics dictionary of [train]. *)
Record Metrics (F : Type) : Type := mkMetrics {
  m_episodes : Z;
  m_grid : Z;
  m_alpha : F;
  m_gamma : F;
  m_eps_start : F;
  m_eps_end : F;
  m_max_steps : Z;
  m_seed : Z;
  m_mean_score : F;
  m_std_score : F;
  m_last100_mean : F;
  m_best_score : Z;
  m_best_episode : Z
}.
Arguments mkMetrics {F} _ _ _ _ _ _ _ _ _ _ _ _ _.
Arguments m_episodes {F} _.
Arguments m_grid {F} _.
Arguments m_mean_score {F} _.
Arguments m_std_score {F} _.
Arguments m_last100_mean {F} _.
Arguments m_best_score {F} _.
Arguments m_best_episode {F} _.

(** [max(a, b)] on two floats: the first argument unless the second is
    greater. *)
Definition py_max {F} `{NpFloat F} (a b : F) : F := if fltb a b then b else a.

(** [scores[-k:]] for a positive [k]. *)
Definition py_last {A} (k : nat) (l : list A) : list A := drop (length l - k) l.

Section Train.
Context {F : Type} `{NpFloat F} `{NpStats F} `{TrainFloat F}.

(** The agent (its table and the module-level generator of [random]) and the
    environment. *)
Definition TrainWorld : Type := (QTable state F * Rng) * SnakeEnv.

Definition on_agent {A} (c : M (QTable state F * Rng) A) : M TrainWorld A :=
  fun w => match c (fst w) with (r, ag) => (r, (ag, snd w)) end.

Definition on_agent_table {A} (c : M (QTable state F) A) : M TrainWorld A :=
  on_agent (on_table c).

Definition on_train_env {A} (c : M SnakeEnv A) : M TrainWorld A :=
  fun w => match c (snd w) with (r, e) => (r, (fst w, e)) end.

(** [eps = max(eps_end, eps_start - (eps_start - eps_end) * (ep / eps_decay))] *)
Definition epsilon (eps_start eps_end : F) (ep eps_decay : Z) : F :=
  py_max eps_end (fsub eps_start (fmul (fsub eps_start eps_end) (fdiv_int ep eps_decay))).

(** The [while not done and steps < max_steps] loop of one training episode;
    [fuel] is the number of steps left before the cap. *)
Fixpoint train_steps (fuel : nat) (alpha gamma eps : F) (s : state) (score : Z)
  : M TrainWorld Z :=
  match fuel with
  | O => ret score
  | S fuel' =>
      let* a := on_agent (act s eps) in
      let* out := on_train_env (step a) in
      let '(s2, r, done, info) := out in
      on_agent_table (update s a (of_float r) s2 alpha gamma) ;;;
      let score := if default false (info !! "ate") then score + 1 else score in
      if done then ret score else train_steps fuel' alpha gamma eps s2 score
  end.

(** The [for ep in range(1, episodes + 1)] loop: [k] episodes to go, [ep] the
    number of the next one, [best] the best score so far and its episode. *)
Fixpoint train_episodes (k : nat) (ep eps_decay max_steps : Z)
         (alpha gamma eps_start eps_end : F) (scores : list Z) (best : Z * Z)
  : M TrainWorld (list Z * (Z * Z)) :=
  match k with
  | O => ret (scores, best)
  | S k' =>
      let* s := on_train_env reset in
      let eps := epsilon eps_start eps_end ep eps_decay in
      let* score := train_steps (Z.to_nat max_steps) alpha gamma eps s 0 in
      let scores := scores ++ [score] in
      let best := if score >? fst best then (score, ep) else best in
      train_episodes k' (ep + 1) eps_decay max_steps alpha gamma eps_start eps_end
                     scores best
  end.

(** The summary metrics; an empty list of scores gives 0.0 for the means. *)
Definition train_metrics (episodes n : Z) (alpha gamma eps_start eps_end : F)
           (max_steps seed : Z) (scores : list Z) (best : Z * Z) : Metrics F :=
  mkMetrics episodes n alpha gamma eps_start eps_end max_steps seed
            (match scores with [] => fzero | _ => np_mean scores end)
            (match scores with [] => fzero | _ => np_std scores end)
            (match scores with [] => fzero | _ => np_mean (py_last 100 scores) end)
            (fst best) (snd best).

(** [train(episodes, n, alpha, gamma, eps_start, eps_end, max_steps, seed)].
    [g_agent] and [g_env] are the module-level generator and the
    environment's own generator as [seed] leaves them. *)
Definition train (episodes n : Z) (alpha gamma eps_start eps_end : F)
           (max_steps seed : Z) (g_agent g_env : Rng)
  : res (QTable state F * list Z * Metrics F) :=
  let w0 : TrainWorld := ((QTable_init 3, g_agent), SnakeEnv_init n g_env) in
  let eps_decay := Z.max 1 episodes in
  match train_episodes (Z.to_nat episodes) 1 eps_decay max_steps
                       alpha gamma eps_start eps_end [] (-1, -1) w0 with
  | (Ok (scores, best), ((q, _), _)) =>
      Ok (q, scores,
          train_metrics episodes n alpha gamma eps_start eps_end max_steps seed
                        scores best)
  | (Raise x, _) => Raise x
  end.
End Train.

(** What lines 37 and 52 of [train] maintain: [best] holds the highest score
    so far and the number of the first episode that reached it, and is
    [(-1, -1)] before the first episode. *)
Definition best_tracked (scores : list Z) (best : Z * Z) : Prop :=
  (forall sc, sc ∈ scores -> sc <= fst best) /\
  ((scores = [] /\ best = (-1, -1)) \/
   exists i : nat,
     scores !! i = Some (fst best) /\ snd best = Z.of_nat i + 1 /\
     forall (j : nat) x, (j < i)%nat -> scores !! j = Some x -> x < fst best).

(** ** src/utils.py *)

(** [acc / len(q)]: a float divided by a count. *)
Class FloatDiv (F : Type) : Type := {
  fdiv_len : F -> Z -> F
}.

#[export] Instance Z_FloatDiv : FloatDiv Z := {| fdiv_len := Z.div |}.

Section Utils.
Context {F : Type} `{NpFloat F} `{FloatDiv F}.

(** One round of the [for x in xs] loop of [moving_average] on the window
    [q], the running sum [acc] and the output [out]. *)
Definition ma_step (w : Z) (st : list F * F * list F) (x : F) : list F * F * list F :=
  let '(q, acc, out) := st in
  let q := q ++ [x] in
  let acc := fadd acc x in
  let '(q, acc) :=
    if Z.of_nat (length q) >? w then (tail q, fsub acc (hd fzero q)) else (q, acc) in
  (q, acc, out ++ [fdiv_len acc (Z.of_nat (length q))]).

(** [moving_average(xs, window)] *)
Definition moving_average (xs : list F) (window : Z) : list F :=
  let w := Z.max 1 window in
  snd (fold_left (ma_step w) xs ([], fzero, [])).
End Utils.
(** ** Monad inversion *)

Lemma bind_Ok_inv {S A B} (c : M S A) (k : A -> M S B) s b s' :
  bind c k s = (Ok b, s') ->
  exists a s1, c s = (Ok a, s1) /\ k a s1 = (Ok b, s').
Proof.
  unfold bind. destruct (c s) as [[a|x] s1]; [eauto | discriminate].
Qed.

Lemma lift_res_Ok_inv {S A} (r : res A) (s s' : S) a :
  lift_res r s = (Ok a, s') -> r = Ok a /\ s' = s.
Proof. unfold lift_res. intros [= -> ->]. auto. Qed.

Ltac inv_bind H a s1 H1 :=
  apply bind_Ok_inv in H; destruct H as (a & s1 & H1 & H); cbv beta in H.

(** ** Sequence helpers *)

Lemma py_getitem_head {A} (x : A) l : py_getitem (x :: l) 0 = Ok x.
Proof.
  unfold py_getitem. cbn [length Z.ltb Z.compare].
  replace (0 <=? 0) with true by reflexivity.
  replace (0 <? Z.of_nat (S (length l))) with true
    by (symmetry; apply Z.ltb_lt; lia).
  reflexivity.
Qed.

Lemma py_getitem_DIRS (d : Z) :
  0 <= d < 4 ->
  exists v, py_getitem DIRS d = Ok v /\ DIRS !! Z.to_nat d = Some v.
Proof.
  intros Hd.
  assert (d = 0 \/ d = 1 \/ d = 2 \/ d = 3) as [ -> | [ -> | [ -> | -> ] ] ] by lia;
    eexists; split; reflexivity.
Qed.

Lemma py_getitem_elem {A} (l : list A) i x : py_getitem l i = Ok x -> x ∈ l.
Proof.
  unfold py_getitem.
  destruct (_ && _); [|discriminate].
  destruct (l !! _) eqn:E; [|discriminate].
  intros [= <-]. eapply list_elem_of_lookup_2, E.
Qed.

Lemma py_getitem_nil_inv {A} (i : Z) (x : A) : py_getitem [] i = Ok x -> False.
Proof. intros H%py_getitem_elem. by apply not_elem_of_nil in H. Qed.

Lemma cell_eqb_eq (a b : cell) : cell_eqb a b = true <-> a = b.
Proof.
  destruct a as [ax ay], b as [bx b_y]. unfold cell_eqb. cbn.
  rewrite andb_true_iff, !Z.eqb_eq. split; [intros [-> ->]|intros [= -> ->]]; auto.
Qed.

Lemma cell_in_elem (c : cell) l : cell_in c l = true <-> c ∈ l.
Proof.
  unfold cell_in. rewrite existsb_exists. split.
  - intros (x & Hx & Heq). apply cell_eqb_eq in Heq. subst.
    by apply list_elem_of_In.
  - intros H. exists c. split; [by apply list_elem_of_In | by apply cell_eqb_eq].
Qed.

Lemma cell_in_false (c : cell) l : cell_in c l = false <-> c ∉ l.
Proof.
  rewrite <- cell_in_elem. destruct (cell_in c l); split; congruence.
Qed.

Lemma out_of_bounds_off_grid n c : _out_of_bounds n c = true <-> off_grid n c.
Proof.
  destruct c as [x y]. unfold _out_of_bounds, off_grid. cbn.
  rewrite !orb_true_iff, !Z.ltb_lt, !Z.geb_le. lia.
Qed.

Lemma but_last_non_tail (l : list cell) c : c ∈ but_last l <-> non_tail_segment l c.
Proof.
  unfold but_last, non_tail_segment.
  destruct l as [|x l' _] using rev_ind.
  - cbn. split; [by intros ?%not_elem_of_nil | intros (i & Hlt & _); cbn in Hlt; lia].
  - rewrite removelast_last, length_app. cbn. split.
    + intros (i & Hi)%list_elem_of_lookup_1. exists i. split.
      * apply lookup_lt_Some in Hi. lia.
      * by apply lookup_app_l_Some.
    + intros (i & Hlt & Hi). rewrite lookup_app_l in Hi by lia.
      eapply list_elem_of_lookup_2, Hi.
Qed.

(** ** The encoder only reads *)

Lemma danger_frame rel e r e' : _danger rel e = (r, e') -> e' = e.
Proof.
  unfold _danger, bind, get, lift_res, ret.
  destruct (py_getitem (env_snake e) 0) as [[hx hy]|];
    [destruct (py_getitem DIRS _) as [[dx dy]|]|]; by intros [= _ <-].
Qed.

Lemma danger_Ok rel e hx hy tl :
  env_snake e = (hx, hy) :: tl ->
  exists dx dy,
    DIRS !! Z.to_nat ((env_dir e + rel) mod 4) = Some (dx, dy) /\
    _danger rel e =
      (Ok (if _out_of_bounds (env_n e) (hx + dx, hy + dy)
              || cell_in (hx + dx, hy + dy) (but_last (env_snake e))
           then 1 else 0), e).
Proof.
  intros Hs.
  destruct (py_getitem_DIRS ((env_dir e + rel) mod 4)) as ([dx dy] & Hget & Hlk).
  { apply Z.mod_pos_bound. lia. }
  exists dx, dy. split; [exact Hlk|].
  unfold _danger, bind, get, lift_res, ret.
  destruct (py_getitem (env_snake e) 0) as [[hx' hy']|] eqn:E;
    rewrite Hs, py_getitem_head in E; [|discriminate].
  injection E as <- <-. rewrite Hget. reflexivity.
Qed.

Lemma danger_flag_sound rel e hx hy tl dx dy :
  env_snake e = (hx, hy) :: tl ->
  DIRS !! Z.to_nat ((env_dir e + rel) mod 4) = Some (dx, dy) ->
  danger_flag_ok e rel
    (if _out_of_bounds (env_n e) (hx + dx, hy + dy)
        || cell_in (hx + dx, hy + dy) (but_last (env_snake e))
     then 1 else 0).
Proof.
  intros Hs Hd. exists hx, hy, tl, dx, dy. split; [exact Hs|]. split; [exact Hd|].
  rewrite <- out_of_bounds_off_grid, <- but_last_non_tail, <- cell_in_elem.
  destruct (_out_of_bounds _ _), (cell_in _ _); cbn [orb];
    intuition (auto; discriminate).
Qed.

Lemma state_frame e r e' : _state e = (r, e') -> e' = e.
Proof.
  unfold _state. unfold bind at 1, get at 1.
  unfold bind at 1, lift_res at 1.
  destruct (py_getitem (env_snake e) 0) as [[hx hy]|]; [|by intros [= _ <-]].
  destruct (env_food e) as [fx fy].
  unfold bind, ret.
  destruct (_danger (-1) e) as [[dl|] e1] eqn:E1; apply danger_frame in E1; subst e1;
    [|by intros [= _ <-]].
  destruct (_danger 0 e) as [[df|] e1] eqn:E1; apply danger_frame in E1; subst e1;
    [|by intros [= _ <-]].
  destruct (_danger 1 e) as [[dr|] e1] eqn:E1; apply danger_frame in E1; subst e1;
    by intros [= _ <-].
Qed.

Lemma state_Ok e hx hy tl :
  env_snake e = (hx, hy) :: tl ->
  exists dl df dr sdx sdy,
    _state e = (Ok (dl, df, dr, sdx, sdy, env_dir e), e) /\
    danger_flag_ok e (-1) dl /\ danger_flag_ok e 0 df /\ danger_flag_ok e 1 dr.
Proof.
  intros Hs.
  destruct (danger_Ok (-1) e hx hy tl Hs) as (dxl & dyl & Hl & El).
  destruct (danger_Ok 0 e hx hy tl Hs) as (dxf & dyf & Hf & Ef).
  destruct (danger_Ok 1 e hx hy tl Hs) as (dxr & dyr & Hr & Er).
  unfold _state. unfold bind at 1, get at 1.
  unfold bind at 1, lift_res at 1.
  destruct (py_getitem (env_snake e) 0) as [[hx' hy']|] eqn:E;
    rewrite Hs, py_getitem_head in E; [clear E|discriminate].
  destruct (env_food e) as [fx fy].
  unfold bind, ret. rewrite El, Ef, Er.
  do 5 eexists. split; [reflexivity|].
  repeat split; eapply danger_flag_sound; eassumption.
Qed.

Lemma state_Ok_inv e s e' :
  _state e = (Ok s, e') -> e' = e /\ exists h tl, env_snake e = h :: tl.
Proof.
  intros H. split; [eapply state_frame, H|].
  unfold _state in H. unfold bind at 1, get at 1 in H.
  unfold bind at 1, lift_res at 1 in H.
  destruct (env_snake e); [discriminate H | eauto].
Qed.

(** ** Food placement *)

Lemma choice_Ok_elem {A} (l : list A) g x g' :
  choice l g = (Ok x, g') -> x ∈ l.
Proof.
  destruct l as [|y l]; [discriminate|].
  unfold choice. intros H. inv_bind H k g1 Hk.
  apply lift_res_Ok_inv in H as [H _]. eapply py_getitem_elem, H.
Qed.

Lemma free_cells_spec n snake (c : cell) :
  c ∈ free_cells n snake -> c ∉ snake.
Proof.
  unfold free_cells. rewrite list_elem_of_In, filter_In.
  intros [_ H]. apply negb_true_iff in H. by apply cell_in_false.
Qed.

Lemma place_food_Ok_inv e u e' :
  _place_food e = (Ok u, e') ->
  exists f g, f ∈ free_cells (env_n e) (env_snake e) /\
              e' = set_food f (set_rng g e).
Proof.
  unfold _place_food, bind, get, with_rng, modify.
  destruct (choice _ (env_rng e)) as [[f|x] g] eqn:E; [|discriminate].
  intros [= _ <-]. exists f, g. split; [|reflexivity].
  eapply choice_Ok_elem, E.
Qed.

Lemma turn_spec a e : _turn a e = (Ok tt, set_dir (turned a (env_dir e)) e).
Proof.
  unfold _turn, turned, modify, ret.
  destruct (a =? 0); [reflexivity|]. destruct (a =? 2); [reflexivity|].
  destruct e; reflexivity.
Qed.

Lemma turned_range a d : 0 <= d < 4 -> 0 <= turned a d < 4.
Proof.
  intros Hd. unfold turned.
  destruct (a =? 0); [apply Z.mod_pos_bound; lia|].
  destruct (a =? 2); [apply Z.mod_pos_bound; lia|exact Hd].
Qed.

Lemma but_last_elem {A} (l : list A) x : x ∈ but_last l -> x ∈ l.
Proof.
  unfold but_last. destruct l as [|y l' _] using rev_ind; [done|].
  rewrite removelast_last. intros H. apply elem_of_app. by left.
Qed.

Lemma but_last_cons {A} (x y : A) l :
  but_last (x :: y :: l) = x :: but_last (y :: l).
Proof. reflexivity. Qed.

Lemma but_last_length {A} (l : list A) : length (but_last l) = pred (length l).
Proof.
  unfold but_last. destruct l as [|y l' _] using rev_ind; [done|].
  rewrite removelast_last, length_app. cbn. lia.
Qed.

(** ** The invariant holds in every observable state *)

Lemma step_inv e a r e' : env_inv e -> step a e = (Ok r, e') -> env_inv e'.
Proof.
  intros (Hlen & Hdir & Hfood) H. unfold step in H.
  inv_bind H u e1 Ht. rewrite turn_spec in Ht. injection Ht as _ <-.
  set (e1 := set_dir (turned a (env_dir e)) e) in *.
  assert (env_inv e1) as Hinv1.
  { repeat split; try exact Hfood; try exact Hlen; apply turned_range, Hdir. }
  inv_bind H e2 e3 Hg. injection Hg as <- <-.
  inv_bind H v e3 Hv. apply lift_res_Ok_inv in Hv as [Hv ->]. destruct v as [dx dy].
  inv_bind H h e3 Hh. apply lift_res_Ok_inv in Hh as [Hh ->]. destruct h as [hx hy].
  destruct (_out_of_bounds _ _).
  { inv_bind H s e3 Hs. apply state_frame in Hs. injection H as _ <-. by subst. }
  destruct (cell_in (hx + dx, hy + dy) _) eqn:Hbody.
  { inv_bind H s e3 Hs. apply state_frame in Hs. injection H as _ <-. by subst. }
  inv_bind H u' e3 Hm. injection Hm as _ <-.
  inv_bind H ri e4 Hmove. destruct ri as [reward info].
  inv_bind H e5 e6 Hg. injection Hg as <- <-.
  inv_bind H u2 e6 Hm. injection Hm as _ <-.
  inv_bind H u3 e6 Hm. injection Hm as _ <-.
  inv_bind H s e6 Hs. apply state_frame in Hs. injection H as _ <-. subst e6.
  clear Hinv1 Hv Hh Hbody.
  destruct (cell_eqb _ _) eqn:Heat.
  - inv_bind Hmove u4 e5 Hp. apply place_food_Ok_inv in Hp as (f & g & Hf & ->).
    injection Hmove as _ _ <-. apply free_cells_spec in Hf.
    repeat split; cbn in *; try apply turned_range; try lia; try done.
  - inv_bind Hmove u4 e5 Hp. injection Hp as _ <-. injection Hmove as _ _ <-.
    repeat split; cbn; try apply turned_range; try lia.
    + rewrite but_last_length. cbn. lia.
    + destruct (env_snake e) as [|y l] eqn:Hsn; [cbn in Hlen; lia|].
      rewrite but_last_cons. intros [Heq|Hin%but_last_elem]%elem_of_cons; [|done].
      cbn in Heq. symmetry in Heq. apply cell_eqb_eq in Heq.
      subst e1. cbn in Heat. congruence.
Qed.

Lemma reset_inv e0 s e : reset e0 = (Ok s, e) -> env_inv e.
Proof.
  intros H. unfold reset in H.
  inv_bind H u e1 Hm. injection Hm as _ <-.
  inv_bind H n e1 Hg. injection Hg as <- <-.
  inv_bind H u1 e1 Hm. injection Hm as _ <-.
  inv_bind H u2 e1 Hp. apply place_food_Ok_inv in Hp as (f & g & Hf & ->).
  inv_bind H u3 e1 Hm. injection Hm as _ <-.
  inv_bind H e2 e1 Hg. injection Hg as <- <-.
  inv_bind H h e1 Hh. apply lift_res_Ok_inv in Hh as [_ ->].
  inv_bind H u4 e1 Hm. injection Hm as _ <-.
  apply state_frame in H. subst e.
  apply free_cells_spec in Hf. cbn in Hf.
  repeat split; cbn; try lia; exact Hf.
Qed.

Lemma reachable_inv e : reachable e -> env_inv e.
Proof.
  induction 1 as [e0 s e H | e a r e' _ IH H].
  - eapply reset_inv, H.
  - eapply step_inv; [exact IH | exact H].
Qed.

Lemma steps_reachable actions e u e' :
  reachable e -> steps actions e = (Ok u, e') -> reachable e'.
Proof.
  revert e. induction actions as [|a rest IH]; intros e He H.
  - injection H as _ <-. exact He.
  - cbn [steps] in H. inv_bind H r e1 Hs.
    eapply IH; [|exact H]. eapply reach_step; [exact He | exact Hs].
Qed.

Lemma play_reachable n actions g u e :
  play n actions g = (Ok u, e) -> reachable e.
Proof.
  unfold play. intros H. inv_bind H s e1 Hr.
  eapply steps_reachable; [|exact H]. eapply reach_reset, Hr.
Qed.

Lemma env_2x2_reachable : reachable env_2x2.
Proof.
  apply (play_reachable 2 [] (mkRng (fun _ => 0%nat) 0) tt). reflexivity.
Qed.

Lemma env_3x3_reachable : reachable env_3x3.
Proof.
  apply (play_reachable 3 [1; 0; 0; 1; 0; 1; 0] rng_3x3 tt).
  vm_compute. reflexivity.
Qed.

(** ** The wall rule *)

Lemma lookup_DIRS_getitem d v :
  0 <= d < 4 -> DIRS !! Z.to_nat d = Some v -> py_getitem DIRS d = Ok v.
Proof.
  intros Hd Hv. destruct (py_getitem_DIRS d Hd) as (v' & Hg & Hl). congruence.
Qed.

(** C1, as amended: when the cell ahead along the turned heading lies off
    the grid, [step] ends the episode with reward -10 and returns the
    encoding of the state in which only the heading has changed (to the
    turned one): body, food, step counter, distance tracker and generator
    are those at the start of the call.  For a straight move the state is the
    one at the start of the call. *)
Theorem step_wall_death e a hx hy tl dx dy :
  reachable e ->
  env_snake e = (hx, hy) :: tl ->
  DIRS !! Z.to_nat (turned a (env_dir e)) = Some (dx, dy) ->
  _out_of_bounds (env_n e) (hx + dx, hy + dy) = true ->
  exists s,
    step a e = (Ok (s, (-10)%float, true, ∅), set_dir (turned a (env_dir e)) e) /\
    _state (set_dir (turned a (env_dir e)) e) = (Ok s, set_dir (turned a (env_dir e)) e) /\
    (a <> 0 -> a <> 2 -> set_dir (turned a (env_dir e)) e = e).
Proof.
  intros (_ & Hdir & _)%reachable_inv Hs Hd Hoob.
  set (e1 := set_dir (turned a (env_dir e)) e).
  destruct (state_Ok e1 hx hy tl Hs) as (dl & df & dr & sdx & sdy & Hst & _).
  eexists. split; [|split; [exact Hst|]].
  - unfold step. unfold bind at 1. rewrite turn_spec. fold e1.
    unfold bind at 1, get at 1. unfold bind at 1, lift_res at 1.
    rewrite (lookup_DIRS_getitem _ (dx, dy)); [|by apply turned_range|exact Hd].
    unfold bind at 1, lift_res at 1.
    replace (env_snake e1) with ((hx, hy) :: tl) by (symmetry; exact Hs).
    rewrite py_getitem_head.
    replace (env_n e1) with (env_n e) by reflexivity. rewrite Hoob.
    unfold bind, ret. rewrite Hst. reflexivity.
  - intros H0 H2. subst e1. unfold turned.
    apply Z.eqb_neq in H0, H2. rewrite H0, H2. destruct e; reflexivity.
Qed.

Lemma step_wall_death_witness :
  exists s,
    step 2 env_2x2 = (Ok (s, (-10)%float, true, ∅), set_dir 2 env_2x2) /\
    _state (set_dir 2 env_2x2) = (Ok s, set_dir 2 env_2x2) /\
    (2 <> 0 -> 2 <> 2 -> set_dir 2 env_2x2 = env_2x2).
Proof.
  apply (step_wall_death env_2x2 2 1 1 [(0, 1)] 0 1).
  - exact env_2x2_reachable.
  - reflexivity.
  - reflexivity.
  - reflexivity.
Defined.

(** On the 2x2 grid a right turn runs the snake into the bottom wall; the
    call returns the encoding of the turned state (heading 2), not that of the
    state it started from (heading 1). *)
Lemma step_wall_turn_committed :
  reachable env_2x2 /\
  env_snake env_2x2 = (1, 1) :: [(0, 1)] /\
  DIRS !! Z.to_nat (turned 2 (env_dir env_2x2)) = Some (0, 1) /\
  _out_of_bounds (env_n env_2x2) (1 + 0, 1 + 1) = true /\
  _state env_2x2 = (Ok (0, 1, 1, -1, -1, 1), env_2x2) /\
  step 2 env_2x2 =
    (Ok ((1, 1, 0, -1, -1, 2), (-10)%float, true, ∅), set_dir 2 env_2x2) /\
  ~ wall_hit_keeps_prior_state env_2x2 2.
Proof.
  split; [exact env_2x2_reachable|]. do 5 (split; [reflexivity|]).
  intros (s & e' & Hstep & Hstate & Hd & _).
  vm_compute in Hstep. injection Hstep as _ <-. vm_compute in Hd. discriminate Hd.
Qed.

(** ** Danger sensing *)

(** C7: in every reachable state the encoder returns, the heading is one of
    the four directions, and each danger flag is 0 or 1 and is 1 exactly when
    the cell one step from the head, along the heading for danger-front and
    along the heading rotated a quarter turn for danger-left (-1) and
    danger-right (+1), is off the grid or occupied by a segment of the body
    other than the tail segment. *)
Theorem danger_flags_characterised e :
  reachable e ->
  exists dl df dr sdx sdy,
    _state e = (Ok (dl, df, dr, sdx, sdy, env_dir e), e) /\
    0 <= env_dir e < 4 /\ (env_dir e + 0) mod 4 = env_dir e /\
    danger_flag_ok e 0 df /\
    danger_flag_ok e (-1) dl /\
    danger_flag_ok e 1 dr.
Proof.
  intros (Hlen & Hdir & _)%reachable_inv.
  destruct (env_snake e) as [|[hx hy] tl] eqn:Hs; [cbn in Hlen; lia|].
  destruct (state_Ok e hx hy tl Hs) as (dl & df & dr & sdx & sdy & Hst & Hl & Hf & Hr).
  exists dl, df, dr, sdx, sdy. repeat split; try assumption; try lia.
  rewrite Z.add_0_r. apply Z.mod_small. lia.
Qed.

Lemma danger_flags_characterised_witness :
  exists dl df dr sdx sdy,
    _state env_2x2 = (Ok (dl, df, dr, sdx, sdy, env_dir env_2x2), env_2x2) /\
    0 <= env_dir env_2x2 < 4 /\ (env_dir env_2x2 + 0) mod 4 = env_dir env_2x2 /\
    danger_flag_ok env_2x2 0 df /\
    danger_flag_ok env_2x2 (-1) dl /\
    danger_flag_ok env_2x2 1 dr.
Proof. apply (danger_flags_characterised env_2x2). exact env_2x2_reachable. Defined.

(** ** Food placement *)

(** C8: in every reachable state the food cell is not a cell of the snake,
    and a food placement that returns there again leaves the body as it is
    and puts the food on a cell the snake does not occupy. *)
Theorem food_never_on_snake e :
  reachable e ->
  (env_food e ∉ env_snake e) /\
  forall u e', _place_food e = (Ok u, e') ->
               env_snake e' = env_snake e /\ (env_food e' ∉ env_snake e').
Proof.
  intros (_ & _ & Hfood)%reachable_inv. split; [exact Hfood|].
  intros u e' (f & g & Hf%free_cells_spec & ->)%place_food_Ok_inv.
  split; [reflexivity | exact Hf].
Qed.

Lemma food_never_on_snake_witness :
  (env_food env_3x3 ∉ env_snake env_3x3) /\
  forall u e', _place_food env_3x3 = (Ok u, e') ->
               env_snake e' = env_snake env_3x3 /\ (env_food e' ∉ env_snake e').
Proof. apply (food_never_on_snake env_3x3). exact env_3x3_reachable. Defined.

(** ** Totality *)

(** C2: [reset()] raises on the 1x1 grid, whatever the generator draws, and
    on the 2x2 grid three left turns after [reset()] always end in an
    exception: the snake fills the grid and [_place_food] chooses from an
    empty list. *)
Theorem reset_and_step_raise_on_full_grid :
  (forall g, fst (play 1 [] g) = Raise IndexError) /\
  (forall g, fst (play 2 [0; 0; 0] g) = Raise IndexError).
Proof.
  split; intros [rawf c]; [reflexivity|].
  pose proof (Nat.mod_upper_bound (rawf c) 2 ltac:(lia)) as Hk.
  unfold play. unfold bind at 1.
  assert (exists s f pd,
            reset (SnakeEnv_init 2 (mkRng rawf c)) =
              (Ok s, mkEnv 2 (mkRng rawf (S c)) 1 [(1, 1); (0, 1)] f 0 pd) /\
            ((f = (0, 0) /\ pd = 2) \/ (f = (1, 0) /\ pd = 1))) as (s & f & pd & -> & Hf).
  { cbv -[Nat.modulo].
    destruct (rawf c mod 2)%nat as [|[|k]]; [ | | lia];
      do 3 eexists; (split; [reflexivity|]); auto. }
  destruct Hf as [[-> ->] | [-> ->]]; vm_compute; reflexivity.
Qed.

(** ** Actions outside the three-action domain *)

(** C10: an action value other than 0 and 2 leaves the heading alone, and
    [step] on it is the same computation as [step(1)]: the same returned
    tuple (state, reward, done, info) and the same environment afterwards.
    But [step] is not total.  On the reachable 3x3 state with eight cells of
    snake and the food straight ahead, [step(3)] and [step(-1)], like
    [step(1)], eat, fill the grid and raise [IndexError]: [_place_food]
    chooses from the empty list of free cells. *)
Theorem step_other_action_straight_not_total :
  (forall a e, a <> 0 -> a <> 2 -> step a e = step 1 e) /\
  reachable env_3x3 /\
  fst (step 3 env_3x3) = Raise IndexError /\
  fst (step (-1) env_3x3) = Raise IndexError /\
  fst (step 1 env_3x3) = Raise IndexError /\
  ~ returns (step 3) env_3x3.
Proof.
  split.
  { intros a e H0%Z.eqb_neq H2%Z.eqb_neq. unfold step, _turn.
    rewrite H0, H2. reflexivity. }
  split; [exact env_3x3_reachable|].
  assert (fst (step 3 env_3x3) = Raise IndexError) as H3 by (vm_compute; reflexivity).
  split; [exact H3|]. split; [vm_compute; reflexivity|]. split; [vm_compute; reflexivity|].
  intros (r & e' & Hr). rewrite Hr in H3. discriminate H3.
Qed.

(** ** The Q-table *)

Section AgentFacts.
Context {K : Type} `{Countable K} {F : Type} `{NpFloat F}.
Implicit Types (t : QTable K F) (s : K) (q : list F).

Lemma QTable_eta t : mkQ (actions t) (Q t) = t.
Proof. by destruct t. Qed.

Lemma lazy_init_lookup n s m :
  lazy_init n s m !! s =
    Some (default (replicate (Z.to_nat n) fzero) (m !! s)).
Proof.
  unfold lazy_init. destruct (m !! s) as [q|] eqn:E; cbn.
  - exact E.
  - apply lookup_insert_eq.
Qed.

Lemma lazy_init_lookup_ne n s s' m :
  s <> s' -> lazy_init n s m !! s' = m !! s'.
Proof.
  intros Hne. unfold lazy_init. destruct (m !! s); [done|].
  by apply lookup_insert_ne.
Qed.

Lemma lazy_init_idem n s m : lazy_init n s (lazy_init n s m) = lazy_init n s m.
Proof.
  unfold lazy_init at 1. by rewrite lazy_init_lookup.
Qed.

Lemma Q_getitem_spec t s :
  0 <= actions t ->
  Q_getitem s t =
    (Ok (default (replicate (Z.to_nat (actions t)) fzero) (Q t !! s)),
     mkQ (actions t) (lazy_init (actions t) s (Q t))).
Proof.
  intros Hn. unfold Q_getitem, lazy_init, bind, get.
  destruct (Q t !! s) as [q|] eqn:E; cbn.
  - by rewrite QTable_eta.
  - unfold lift_res, np_zeros.
    replace (actions t <? 0) with false by (symmetry; apply Z.ltb_ge, Hn).
    reflexivity.
Qed.

Lemma table_wf_lazy_init t s :
  table_wf t -> table_wf (mkQ (actions t) (lazy_init (actions t) s (Q t))).
Proof.
  intros Hwf k q. cbn. unfold lazy_init.
  destruct (Q t !! s) eqn:E; [apply Hwf|].
  destruct (decide (s = k)) as [->|Hne].
  - rewrite lookup_insert_eq. intros [= <-]. apply length_replicate.
  - rewrite lookup_insert_ne by done. apply Hwf.
Qed.

Lemma py_getitem_nat {A} (l : list A) (a : Z) x :
  0 <= a -> l !! Z.to_nat a = Some x -> py_getitem l a = Ok x.
Proof.
  intros Ha Hl. unfold py_getitem.
  pose proof (lookup_lt_Some _ _ _ Hl) as Hlt.
  replace (a <? 0) with false by (symmetry; apply Z.ltb_ge, Ha).
  replace (0 <=? a) with true by (symmetry; apply Z.leb_le, Ha).
  replace (a <? Z.of_nat (length l)) with true by (symmetry; apply Z.ltb_lt; lia).
  cbn. by rewrite Hl.
Qed.

Lemma np_setitem_nat q (a : Z) x :
  0 <= a < Z.of_nat (length q) ->
  np_setitem q a x = Ok (<[Z.to_nat a := x]> q).
Proof.
  intros Ha. unfold np_setitem.
  replace (a <? 0) with false by (symmetry; apply Z.ltb_ge; lia).
  replace (0 <=? a) with true by (symmetry; apply Z.leb_le; lia).
  replace (a <? Z.of_nat (length q)) with true by (symmetry; apply Z.ltb_lt; lia).
  reflexivity.
Qed.

Lemma np_max_nonempty q : q <> [] -> exists m, np_max q = Ok m.
Proof. destruct q; [done|]. intros _. eexists. reflexivity. Qed.

(** What [update] does to a well-shaped table. *)
Lemma update_spec t s a r s2 alpha gamma :
  table_wf t -> 0 <= a < actions t ->
  let Q1 := lazy_init (actions t) s2 (lazy_init (actions t) s (Q t)) in
  exists qs q2 old m,
    Q1 !! s = Some qs /\ Q1 !! s2 = Some q2 /\
    qs !! Z.to_nat a = Some old /\ np_max q2 = Ok m /\
    update s a r s2 alpha gamma t =
      (Ok tt,
       mkQ (actions t)
           (<[s := <[Z.to_nat a := f32 (td_target old r m alpha gamma)]> qs]> Q1)).
Proof.
  intros Hwf Ha Q1.
  set (t1 := mkQ (actions t) (lazy_init (actions t) s (Q t))).
  set (t2 := mkQ (actions t) Q1).
  assert (table_wf t1) as Hwf1 by (apply table_wf_lazy_init, Hwf).
  assert (table_wf t2) as Hwf2 by (apply (table_wf_lazy_init t1), Hwf1).
  destruct (Q1 !! s) as [qs|] eqn:Eqs; cycle 1.
  { subst Q1. destruct (decide (s2 = s)) as [->|Hne].
    - by rewrite lazy_init_lookup in Eqs.
    - rewrite lazy_init_lookup_ne, lazy_init_lookup in Eqs; done. }
  destruct (Q1 !! s2) as [q2|] eqn:Eq2; cycle 1.
  { subst Q1. by rewrite lazy_init_lookup in Eq2. }
  pose proof (Hwf2 _ _ Eqs) as Hlen. pose proof (Hwf2 _ _ Eq2) as Hlen2.
  change (actions t2) with (actions t) in Hlen, Hlen2.
  destruct (lookup_lt_is_Some_2 qs (Z.to_nat a)) as [old Hold]; [lia|].
  destruct (np_max_nonempty q2) as [m Hm].
  { intros ->. cbn [length] in Hlen2. lia. }
  exists qs, q2, old, m. do 4 (split; [done|]).
  assert (lazy_init (actions t) s (Q t) !! s = Some qs) as Eqs1.
  { subst Q1. destruct (decide (s2 = s)) as [->|Hne].
    - by rewrite lazy_init_idem in Eqs.
    - by rewrite lazy_init_lookup_ne in Eqs. }
  unfold update.
  unfold bind at 1. rewrite Q_getitem_spec by lia. fold t1.
  rewrite lazy_init_lookup in Eqs1. injection Eqs1 as Eqs1. rewrite Eqs1.
  unfold bind at 1, lift_res at 1. rewrite (py_getitem_nat qs a old) by (lia || done).
  unfold bind at 1. rewrite Q_getitem_spec by (cbn; lia).
  change (actions t1) with (actions t). change (Q t1) with (lazy_init (actions t) s (Q t)).
  fold Q1. fold t2.
  assert (default (replicate (Z.to_nat (actions t)) fzero) (lazy_init (actions t) s (Q t) !! s2) = q2) as ->.
  { subst Q1. rewrite lazy_init_lookup in Eq2. by injection Eq2. }
  unfold bind at 1, lift_res at 1. rewrite Hm.
  unfold Q_setitem. unfold bind at 1. rewrite Q_getitem_spec by (cbn; lia).
  change (actions t2) with (actions t). change (Q t2) with Q1. rewrite Eqs. cbn [from_option id].
  unfold bind at 1, lift_res at 1. rewrite np_setitem_nat by lia.
  unfold modify. cbn. unfold td_target.
  assert (lazy_init (actions t) s Q1 = Q1) as ->; [|reflexivity].
  unfold lazy_init at 1. by rewrite Eqs.
Qed.
End AgentFacts.

(** ** Greedy action selection *)

Section Greedy.
Context {K : Type} `{Countable K} {F : Type} `{NpFloatLaws F}.
Implicit Types (t : QTable K F) (q : list F).

Lemma fltb_irrefl (x : F) : fltb x x = false.
Proof. destruct (fltb x x) eqn:E; [|done]. by rewrite (fltb_asym x x E) in E. Qed.

Lemma feqb_fltb (x y : F) : feqb x y = true -> fltb x y = false.
Proof. intros E. rewrite (feqb_fltb_l x y y E). apply fltb_irrefl. Qed.

Lemma feqb_refl_l (x y : F) : feqb x y = true -> feqb x x = true.
Proof. intros E. eapply feqb_trans; [exact E|]. by rewrite feqb_sym. Qed.

Lemma fltb_nan_l (x y : F) : feqb x x = false -> fltb x y = false.
Proof.
  intros E. destruct (fltb x y) eqn:L; [|done].
  apply fltb_ordered in L as [L _]. congruence.
Qed.

Lemma fleb_nan_l (x y : F) : feqb x x = false -> fleb x y = false.
Proof.
  intros E. unfold fleb. rewrite (fltb_nan_l x y E). cbn.
  destruct (feqb x y) eqn:L; [|done]. apply feqb_refl_l in L. congruence.
Qed.

Lemma fleb_true (x y : F) : fleb x y = true -> fltb y x = false.
Proof.
  unfold fleb. intros [L|E]%orb_true_iff; [by apply fltb_asym|].
  apply feqb_fltb. by rewrite feqb_sym.
Qed.

Lemma fleb_false (x y : F) :
  feqb x x = true -> feqb y y = true -> fleb x y = false -> fltb y x = true.
Proof.
  unfold fleb. intros Hx Hy [L E]%orb_false_iff.
  destruct (f_comparable x y Hx Hy) as [?|[?|?]]; congruence.
Qed.

Lemma fold_max_spec (xs seen : list F) (acc : F) :
  acc ∈ seen -> (forall w, w ∈ seen -> fltb acc w = false) ->
  is_maximal (seen ++ xs)
             (fold_left (fun m v => if fleb v m || fisnan m then m else v) xs acc).
Proof.
  revert seen acc. induction xs as [|y ys IH]; intros seen acc Hin Hmax.
  - rewrite app_nil_r. by split.
  - cbn [fold_left]. replace (seen ++ y :: ys) with ((seen ++ [y]) ++ ys)
      by (by rewrite <- app_assoc).
    destruct (fleb y acc || fisnan acc) eqn:E; apply IH.
    + set_solver.
    + intros w [Hw| ->%list_elem_of_singleton]%elem_of_app; [by apply Hmax|].
      apply orb_true_iff in E as [E|E]; [by apply fleb_true|].
      apply fltb_nan_l. unfold fisnan in E. by apply negb_true_iff in E.
    + set_solver.
    + apply orb_false_iff in E as [Ele Enan].
      unfold fisnan in Enan. apply negb_false_iff in Enan.
      intros w [Hw| ->%list_elem_of_singleton]%elem_of_app; [|apply fltb_irrefl].
      destruct (fltb y w) eqn:Eyw; [exfalso|done].
      pose proof (fltb_ordered _ _ Eyw) as [Hy _].
      pose proof (fleb_false y acc Hy Enan Ele) as Hlt.
      pose proof (Hmax w Hw) as Hw'. by rewrite (fltb_trans _ _ _ Hlt Eyw) in Hw'.
Qed.

Lemma np_max_maximal q m : np_max q = Ok m -> is_maximal q m.
Proof.
  destruct q as [|x xs]; [discriminate|]. intros [= <-].
  apply (fold_max_spec xs [x] x); [set_solver|].
  intros w ->%list_elem_of_singleton. apply fltb_irrefl.
Qed.

Lemma fold_max_nan (xs : list F) (acc : F) :
  feqb acc acc = false \/ Exists (fun v => feqb v v = false) xs ->
  let m := fold_left (fun m v => if fleb v m || fisnan m then m else v) xs acc in
  feqb m m = false.
Proof.
  revert acc. induction xs as [|y ys IH]; intros acc Hnan; cbn [fold_left].
  - destruct Hnan as [?|Hex]; [done | by apply Exists_nil in Hex].
  - apply IH. unfold fisnan. destruct (feqb acc acc) eqn:Ea.
    + destruct Hnan as [?|[Hy|Hys]%Exists_cons]; [done| |by right].
      left. by rewrite (fleb_nan_l y acc Hy).
    + left. by rewrite orb_true_r.
Qed.

(** A NaN in the vector is the result of [np.max]; without one the result
    is not NaN. *)
Lemma np_max_nan q m :
  np_max q = Ok m -> Exists (fun v => feqb v v = false) q -> feqb m m = false.
Proof.
  destruct q as [|x xs]; [discriminate|]. intros [= <-] Hex.
  apply fold_max_nan. apply Exists_cons in Hex as [?|?]; [by left | by right].
Qed.

Lemma np_max_nan_free q m : np_max q = Ok m -> nan_free q -> feqb m m = true.
Proof.
  intros [Hin _]%np_max_maximal Hq.
  by apply (proj1 (Forall_forall _ _) Hq).
Qed.

Lemma not_nan_free q : ~ nan_free q -> Exists (fun v => feqb v v = false) q.
Proof.
  intros Hn. apply not_Forall_Exists in Hn; [|intros x; apply _].
  eapply Exists_impl; [exact Hn|]. intros v Hv. cbn in Hv.
  by destruct (feqb v v).
Qed.

Lemma feqb_maximal q m v :
  nan_free q -> is_maximal q m -> v ∈ q ->
  feqb v m = true <-> forall w, w ∈ q -> fltb v w = false.
Proof.
  intros Hq [Hm Hmax] Hv. split.
  - intros E w Hw. rewrite (feqb_fltb_l v m w E). by apply Hmax.
  - intros Hvmax.
    pose proof (proj1 (Forall_forall _ _) Hq v Hv) as Hv'.
    pose proof (proj1 (Forall_forall _ _) Hq m Hm) as Hm'. cbn in Hv', Hm'.
    destruct (f_comparable v m Hv' Hm') as [L|[E|L]]; [|done|].
    + by rewrite (Hvmax m Hm) in L.
    + by rewrite (Hmax v Hv) in L.
Qed.

Lemma elem_of_enumerate_from {A} (l : list A) i j v :
  (j, v) ∈ enumerate_from i l <->
  exists k : nat, j = i + Z.of_nat k /\ l !! k = Some v.
Proof.
  revert i. induction l as [|x l IH]; intros i; cbn [enumerate_from].
  - split; [by intros ?%not_elem_of_nil | by intros (k & _ & ?)].
  - rewrite elem_of_cons, IH. split.
    + intros [[= -> ->] | (k & -> & Hk)].
      * exists 0%nat. split; [lia | done].
      * exists (S k). split; [lia | done].
    + intros ([|k] & -> & Hk).
      * left. cbn in Hk. injection Hk as ->. f_equal. lia.
      * right. exists k. split; [lia | done].
Qed.

Lemma NoDup_enumerate_from {A} (l : list A) i (p : Z * A -> bool) :
  NoDup (map fst (List.filter p (enumerate_from i l))).
Proof.
  revert i. induction l as [|x l IH]; intros i; cbn [enumerate_from List.filter].
  - constructor.
  - destruct (p (i, x)); [|apply IH]. cbn [map fst]. constructor; [|apply IH].
    intros ([j v] & Hj & [(k & -> & _)%list_elem_of_In%elem_of_enumerate_from _]%list_elem_of_In%filter_In)%list_elem_of_fmap_1.
    cbn in Hj. lia.
Qed.

Lemma elem_of_maximizers q m i :
  nan_free q -> is_maximal q m ->
  i ∈ maximizers q m <->
  0 <= i /\ exists v, q !! Z.to_nat i = Some v /\ forall w, w ∈ q -> fltb v w = false.
Proof.
  intros Hq Hm. unfold maximizers, enumerate. rewrite list_elem_of_fmap. split.
  - intros ([j v] & -> & [(k & -> & Hk)%list_elem_of_In%elem_of_enumerate_from Hf]%list_elem_of_In%filter_In).
    cbn in *. split; [lia|]. exists v. rewrite Z.add_0_l, Nat2Z.id. split; [done|].
    apply (feqb_maximal q m v Hq Hm); [|done]. eapply list_elem_of_lookup_2, Hk.
  - intros (Hi & v & Hv & Hmax). exists (i, v). split; [done|].
    apply list_elem_of_In, filter_In. split.
    + apply list_elem_of_In, elem_of_enumerate_from. exists (Z.to_nat i). split; [lia|done].
    + cbn. apply (feqb_maximal q m v Hq Hm); [|done]. eapply list_elem_of_lookup_2, Hv.
Qed.
End Greedy.

Section Act.
Context {K : Type} `{Countable K} {F : Type} `{NpFloatLaws F}.
Implicit Types (t : QTable K F) (q : list F).

Lemma NoDup_maximizers q m : NoDup (maximizers q m).
Proof. apply NoDup_enumerate_from. Qed.

Lemma sorted_enumerate_from {A} (l : list A) i (p : Z * A -> bool) :
  StronglySorted Z.lt (map fst (List.filter p (enumerate_from i l))).
Proof.
  revert i. induction l as [|x l IH]; intros i; cbn [enumerate_from List.filter].
  - constructor.
  - destruct (p (i, x)); [|apply IH]. cbn [map fst]. constructor; [apply IH|].
    apply Forall_forall.
    intros j ([j' v] & -> & [(k & -> & _)%list_elem_of_In%elem_of_enumerate_from _]%list_elem_of_In%filter_In)%list_elem_of_fmap_1.
    cbn. lia.
Qed.

(** The list comprehension lists the indices in increasing order. *)
Lemma sorted_maximizers q m : StronglySorted Z.lt (maximizers q m).
Proof. apply sorted_enumerate_from. Qed.

Lemma maximizers_nonempty q m : m ∈ q -> feqb m m = true -> maximizers q m <> [].
Proof.
  intros [k Hk]%list_elem_of_lookup_1 Hm Hnil.
  assert (Z.of_nat k ∈ maximizers q m) as Hel.
  { unfold maximizers, enumerate. apply list_elem_of_fmap. exists (Z.of_nat k, m).
    split; [done|]. apply list_elem_of_In, filter_In. split; [|exact Hm].
    apply list_elem_of_In, elem_of_enumerate_from. exists k. split; [lia | done]. }
  rewrite Hnil in Hel. by apply not_elem_of_nil in Hel.
Qed.

(** No entry is [==] to a NaN. *)
Lemma maximizers_nan q m : feqb m m = false -> maximizers q m = [].
Proof.
  intros Hm. destruct (maximizers q m) as [|i l] eqn:E; [done|].
  assert (i ∈ maximizers q m) as Hi by (rewrite E; left).
  unfold maximizers in Hi.
  apply list_elem_of_fmap in Hi as ([j v] & _ & [_ Hf]%list_elem_of_In%filter_In).
  cbn in Hf. rewrite feqb_sym in Hf. apply feqb_refl_l in Hf. congruence.
Qed.

Lemma choice_spec {A} (l : list A) g :
  l <> [] ->
  exists a, l !! (raw g (cursor g) mod length l)%nat = Some a /\
            choice l g = (Ok a, mkRng (raw g) (S (cursor g))).
Proof.
  intros Hl.
  assert (raw g (cursor g) mod length l < length l)%nat as Hlt.
  { apply Nat.mod_upper_bound. by destruct l. }
  destruct (lookup_lt_is_Some_2 _ _ Hlt) as [a Ha]. exists a. split; [exact Ha|].
  destruct l as [|x l]; [done|].
  unfold choice, bind, randbelow, lift_res.
  rewrite (py_getitem_nat _ _ a); [done | lia | by rewrite Nat2Z.id].
Qed.

(** [act] with [eps = 0] up to the choice among [idxs]. *)
Lemma act_greedy_run t g st q m :
  0 < actions t ->
  lazy_init (actions t) st (Q t) !! st = Some q -> np_max q = Ok m ->
  act st fzero (t, g) =
    match choice (maximizers q m) (mkRng (raw g) (S (cursor g))) with
    | (r, g') => (r, (mkQ (actions t) (lazy_init (actions t) st (Q t)), g'))
    end.
Proof.
  intros Hn Eq Hm.
  unfold act. unfold bind at 1, on_random at 1, random_random. cbn [snd fst].
  rewrite frandom_nonneg.
  unfold bind at 1, on_table at 1. cbn [fst snd].
  rewrite Q_getitem_spec by lia.
  assert (default (replicate (Z.to_nat (actions t)) fzero) (Q t !! st) = q) as ->.
  { rewrite lazy_init_lookup in Eq. by injection Eq. }
  unfold bind at 1, lift_res at 1. rewrite Hm.
  unfold on_random. cbn [snd fst]. reflexivity.
Qed.

(** C5: [act] with [eps = 0] on a table whose vectors have one entry per
    action (at least one action).  It never explores: it reads the vector
    [q] of the key (an unseen key is first given the all-zero vector), takes
    [m = np.max(q)] and the list [idxs] of the indices whose entry is [== m].
    When [q] holds no NaN, [idxs] is the increasing list of all the indices
    whose value no entry exceeds, and [act] returns the index at position
    [randbelow(len(idxs))] of that list, the position the generator draws;
    on [[1.0, 0.0, -1.0]] (any [one] above zero and above [mone]) that is
    action 0 whatever is drawn.  When [q] holds a NaN, [m] is NaN, [idxs] is
    empty and [act] raises [IndexError] out of [random.choice]. *)
Theorem act_greedy_spec t g st :
  table_wf t -> 0 < actions t ->
  let Q1 := lazy_init (actions t) st (Q t) in
  let g1 := mkRng (raw g) (S (cursor g)) in
  exists q m,
    Q1 !! st = Some q /\ np_max q = Ok m /\
    let idxs := maximizers q m in
    (nan_free q ->
     StronglySorted Z.lt idxs /\
     (forall i, i ∈ idxs <->
                0 <= i /\ exists v, q !! Z.to_nat i = Some v /\
                                     forall w, w ∈ q -> fltb v w = false) /\
     exists a,
       idxs !! (raw g1 (cursor g1) mod length idxs)%nat = Some a /\
       act st fzero (t, g) =
         (Ok a, (mkQ (actions t) Q1, mkRng (raw g) (S (S (cursor g))))) /\
       (forall one mone : F,
           fltb fzero one = true -> fltb mone one = true ->
           q = [one; fzero; mone] -> a = 0)) /\
    (~ nan_free q ->
     idxs = [] /\
     act st fzero (t, g) = (Raise IndexError, (mkQ (actions t) Q1, g1))).
Proof.
  intros Hwf Hn Q1 g1.
  pose proof (table_wf_lazy_init t st Hwf) as Hwf1. fold Q1 in Hwf1.
  destruct (Q1 !! st) as [q|] eqn:Eq; [|by subst Q1; rewrite lazy_init_lookup in Eq].
  pose proof (Hwf1 _ _ Eq) as Hlen. cbn [actions] in Hlen.
  destruct (np_max_nonempty q) as [m Hm].
  { intros ->. cbn [length] in Hlen. lia. }
  pose proof (np_max_maximal q m Hm) as Hmax.
  pose proof (act_greedy_run t g st q m Hn Eq Hm) as Hrun. fold Q1 g1 in Hrun.
  exists q, m. split; [done|]. split; [done|]. cbn zeta. split.
  - intros Hq.
    destruct (choice_spec (maximizers q m) g1) as (a & Ha & Hch).
    { apply maximizers_nonempty; [apply Hmax | by eapply np_max_nan_free]. }
    split; [apply sorted_maximizers|].
    split; [intros i; by apply elem_of_maximizers|].
    exists a. split; [exact Ha|]. split; [by rewrite Hrun, Hch|].
    intros one mone Hone Hmone ->.
    apply list_elem_of_lookup_2, elem_of_maximizers in Ha as (Hpos & v & Hv & Hvmax);
      [|exact Hq|exact Hmax].
    assert (a = 0 \/ a = 1 \/ a = 2) as [-> | [-> | ->]].
    { apply lookup_lt_Some in Hv. cbn [length] in Hv. lia. }
    + reflexivity.
    + cbn in Hv. injection Hv as <-.
      rewrite (Hvmax one) in Hone by set_solver. discriminate.
    + cbn in Hv. injection Hv as <-.
      rewrite (Hvmax one) in Hmone by set_solver. discriminate.
  - intros Hq%not_nan_free.
    pose proof (maximizers_nan q m (np_max_nan q m Hm Hq)) as Hnil.
    split; [exact Hnil|]. by rewrite Hrun, Hnil.
Qed.

(** C4: on a table whose vectors have one entry per action, and for an
    action index in range, [update] returns, and the table it leaves is the
    table after the lazy reads of [s] and [s2] (an absent key holding the
    all-zero vector) with entry [a] of the vector of [s] replaced by
    [old + alpha * (r + gamma * m - old)], stored as a [float32], where
    [old] is the entry before the call and [m], the result of [np.max], is
    an entry of the vector of [s2] that no entry exceeds. *)
Theorem update_td0 t s a r s2 alpha gamma :
  table_wf t -> 0 <= a < actions t ->
  let Q1 := lazy_init (actions t) s2 (lazy_init (actions t) s (Q t)) in
  exists qs q2 old m,
    Q1 !! s = Some qs /\ Q1 !! s2 = Some q2 /\
    qs !! Z.to_nat a = Some old /\
    np_max q2 = Ok m /\ is_maximal q2 m /\
    update s a r s2 alpha gamma t =
      (Ok tt,
       mkQ (actions t)
           (<[s := <[Z.to_nat a := f32 (td_target old r m alpha gamma)]> qs]> Q1)).
Proof.
  intros Hwf Ha Q1.
  destruct (update_spec t s a r s2 alpha gamma Hwf Ha)
    as (qs & q2 & old & m & Hqs & Hq2 & Hold & Hm & Hup).
  exists qs, q2, old, m. repeat split; try assumption.
  - by apply np_max_maximal.
  - intros w Hw. by apply (np_max_maximal q2 m Hm).
Qed.
End Act.

(** The integers satisfy the laws, and so do the integers with a NaN. *)
#[export] Instance Z_NpFloatLaws : NpFloatLaws Z.
Proof.
  split; cbn; try reflexivity.
  - intros x y. rewrite Z.ltb_lt, Z.ltb_ge. lia.
  - intros x y z. rewrite !Z.ltb_lt. lia.
  - intros x y _. by rewrite !Z.eqb_refl.
  - intros x y. apply Z.eqb_sym.
  - intros x y z. rewrite !Z.eqb_eq. congruence.
  - by intros x y z ->%Z.eqb_eq.
  - by intros x y z ->%Z.eqb_eq.
  - intros x y _ _. rewrite !Z.ltb_lt, Z.eqb_eq. lia.
Qed.

#[export] Instance ZNaN_NpFloatLaws : NpFloatLaws (option Z).
Proof.
  split; cbn; try reflexivity.
  - intros [x|] [y|]; try done. rewrite Z.ltb_lt, Z.ltb_ge. lia.
  - intros [x|] [y|] [z|]; try done. rewrite !Z.ltb_lt. lia.
  - intros [x|] [y|]; try done. intros _. by rewrite !Z.eqb_refl.
  - intros [x|] [y|]; try done. apply Z.eqb_sym.
  - intros [x|] [y|] [z|]; try done. rewrite !Z.eqb_eq. congruence.
  - intros [x|] [y|] [z|]; try done; by intros ->%Z.eqb_eq.
  - intros [x|] [y|] [z|]; try done; by intros ->%Z.eqb_eq.
  - intros [x|] [y|]; try done. intros _ _. rewrite !Z.ltb_lt, Z.eqb_eq. lia.
Qed.

Lemma qt_example_wf : table_wf qt_example.
Proof.
  intros k q. unfold qt_example. cbn [Q actions].
  intros [<- <-]%lookup_singleton_Some. reflexivity.
Qed.

Lemma qt_nan_wf : table_wf qt_nan.
Proof.
  intros k q. unfold qt_nan. cbn [Q actions].
  intros [<- <-]%lookup_singleton_Some. reflexivity.
Qed.

Lemma act_greedy_spec_witness :
  let g := mkRng (fun _ => 5%nat) 0 in
  let t := qt_nan in
  let Q1 := lazy_init (actions t) 7 (Q t) in
  let g1 := mkRng (raw g) (S (cursor g)) in
  exists q m,
    Q1 !! 7 = Some q /\ np_max q = Ok m /\
    let idxs := maximizers q m in
    (nan_free q ->
     StronglySorted Z.lt idxs /\
     (forall i, i ∈ idxs <->
                0 <= i /\ exists v, q !! Z.to_nat i = Some v /\
                                     forall w, w ∈ q -> fltb v w = false) /\
     exists a,
       idxs !! (raw g1 (cursor g1) mod length idxs)%nat = Some a /\
       act 7 fzero (t, g) =
         (Ok a, (mkQ (actions t) Q1, mkRng (raw g) (S (S (cursor g))))) /\
       (forall one mone : option Z,
           fltb fzero one = true -> fltb mone one = true ->
           q = [one; fzero; mone] -> a = 0)) /\
    (~ nan_free q ->
     idxs = [] /\
     act 7 fzero (t, g) = (Raise IndexError, (mkQ (actions t) Q1, g1))).
Proof.
  apply (act_greedy_spec qt_nan (mkRng (fun _ => 5%nat) 0) 7).
  - exact qt_nan_wf.
  - reflexivity.
Defined.

Lemma update_td0_witness :
  let t := qt_example in
  let Q1 := lazy_init (actions t) 8 (lazy_init (actions t) 7 (Q t)) in
  exists qs q2 old m,
    Q1 !! 7 = Some qs /\ Q1 !! 8 = Some q2 /\
    qs !! Z.to_nat 0 = Some old /\
    np_max q2 = Ok m /\ is_maximal q2 m /\
    update 7 0 1 8 1 1 t =
      (Ok tt,
       mkQ (actions t)
           (<[7 := <[Z.to_nat 0 := f32 (td_target old 1 m 1 1)]> qs]> Q1)).
Proof.
  apply (update_td0 qt_example 7 0 1 8 1 1).
  - exact qt_example_wf.
  - cbn. lia.
Defined.

(** ** Persistence *)

Section Persistence.
Context {K : Type} `{Countable K} {F : Type} `{NpFloatLaws F}.
Implicit Types (t : QTable K F) (q : list F).

Lemma fold_insert_lookup (f : list F -> list F) (l : list (K * list F))
      (m : gmap K (list F)) (k : K) :
  NoDup l.*1 ->
  fold_left (fun m kv => <[fst kv := f (snd kv)]> m) l m !! k =
    match (list_to_map l : gmap K (list F)) !! k with
    | Some q => Some (f q)
    | None => m !! k
    end.
Proof.
  revert m. induction l as [|[k0 q0] l IH]; intros m Hnd; [done|].
  apply NoDup_cons in Hnd as [Hk0 Hnd]. cbn [fold_left fst snd list_to_map foldr].
  rewrite IH by done. cbn.
  destruct (decide (k0 = k)) as [->|Hne].
  - rewrite !lookup_insert_eq.
    by rewrite (not_elem_of_list_to_map_1 (M := gmap K) l k Hk0).
  - rewrite !lookup_insert_ne by done. reflexivity.
Qed.

Lemma load_save_lookup t k :
  Q (load (save t)) !! k = map f32 <$> Q t !! k.
Proof.
  unfold load, save. cbn [snap_Q snap_actions Q].
  rewrite fold_insert_lookup by apply NoDup_fst_map_to_list.
  rewrite list_to_map_to_list. destruct (Q t !! k); [done|]. apply lookup_empty.
Qed.

Lemma map_f32_id q : Forall (fun x => f32 x = x) q -> map f32 q = q.
Proof. induction 1 as [|x q Hx _ IH]; cbn; congruence. Qed.

(** C9: for a table of [float32] vectors, loading what [save] stored gives
    a table with the same action count and the same key-to-vector mapping,
    and [act] with [eps = 0] on the loaded table is the same computation
    (same action for the same draws) as on the original, for every key
    present before the save. *)
Theorem save_load_roundtrip t :
  f32_table t ->
  actions (load (save t)) = actions t /\
  Q (load (save t)) = Q t /\
  forall st g, is_Some (Q t !! st) ->
               act st fzero (load (save t), g) = act st fzero (t, g).
Proof.
  intros Hf32.
  assert (load (save t) = t) as Heq.
  { destruct t as [n m]. unfold load at 1. cbn [save snap_actions]. f_equal.
    apply map_eq. intros k.
    change (Q (load (save (mkQ n m))) !! k = m !! k).
    rewrite load_save_lookup. cbn [Q].
    destruct (m !! k) as [q|] eqn:E; [|done]. cbn. f_equal.
    apply map_f32_id. eapply Hf32. exact E. }
  rewrite Heq. auto.
Qed.

Lemma load_f32_table (obj : Snapshot K F) : NoDup (snap_Q obj).*1 -> f32_table (load obj).
Proof.
  intros Hnd k q. unfold load. cbn [Q]. rewrite fold_insert_lookup by done.
  destruct (_ !! k) as [q'|]; [|by rewrite lookup_empty].
  intros [= <-]. apply Forall_forall. intros x (y & -> & _)%list_elem_of_fmap_1. apply f32_idem.
Qed.

Lemma init_f32_table n : f32_table (@QTable_init K _ _ F n).
Proof. intros k q. unfold QTable_init. cbn. by rewrite lookup_empty. Qed.
End Persistence.

Lemma save_load_roundtrip_witness :
  actions (load (save qt_example)) = actions qt_example /\
  Q (load (save qt_example)) = Q qt_example /\
  forall st g, is_Some (Q qt_example !! st) ->
               act st fzero (load (save qt_example), g) = act st fzero (qt_example, g).
Proof.
  apply (save_load_roundtrip qt_example).
  intros k q _. apply Forall_forall. reflexivity.
Defined.

Section Float32.
Context {K : Type} `{Countable K} {F : Type} `{NpFloatLaws F}.
Implicit Types (t : QTable K F) (q : list F).

Lemma f32_table_lazy_init t s :
  f32_table t -> f32_table (mkQ (actions t) (lazy_init (actions t) s (Q t))).
Proof.
  intros Hf k q. cbn [Q]. unfold lazy_init.
  destruct (Q t !! s) eqn:E; [apply Hf|].
  destruct (decide (s = k)) as [->|Hne].
  - rewrite lookup_insert_eq. intros [= <-].
    apply Forall_forall. intros x ->%elem_of_replicate_inv. apply f32_zero.
  - rewrite lookup_insert_ne by done. apply Hf.
Qed.

(** The tables [update] builds keep their shape and hold [float32] values. *)
Lemma update_preserves t s a r s2 alpha gamma :
  table_wf t -> f32_table t -> 0 <= a < actions t ->
  exists t', update s a r s2 alpha gamma t = (Ok tt, t') /\
             actions t' = actions t /\ table_wf t' /\ f32_table t'.
Proof.
  intros Hwf Hf Ha.
  destruct (update_spec t s a r s2 alpha gamma Hwf Ha)
    as (qs & q2 & old & m & Hqs & Hq2 & Hold & Hm & Hup).
  eexists. split; [exact Hup|]. split; [reflexivity|].
  pose proof (table_wf_lazy_init _ s2 (table_wf_lazy_init t s Hwf)) as Hwf2.
  pose proof (f32_table_lazy_init _ s2 (f32_table_lazy_init t s Hf)) as Hf2.
  cbn [actions Q] in Hwf2, Hf2.
  split; intros k q; cbn [Q actions];
    (destruct (decide (s = k)) as [->|Hne];
     [rewrite lookup_insert_eq; intros [= <-]
     |rewrite lookup_insert_ne by done; first [apply Hwf2 | apply Hf2]]).
  - rewrite length_insert. exact (Hwf2 _ _ Hqs).
  - apply Forall_insert; [exact (Hf2 _ _ Hqs) | apply f32_idem].
Qed.
End Float32.

(** ** Evaluation *)

Section EvaluateFacts.
Context {F : Type} `{NpFloat F} `{NpStats F}.
Implicit Types (t : QTable state F) (w : World (F := F)).

Lemma greedy_or_default_frame s t : snd (greedy_or_default s t) = t.
Proof.
  unfold greedy_or_default, bind, get.
  destruct (decide (is_Some (Q t !! s))) as [[q Hq]|Hn]; [|reflexivity].
  unfold Q_getitem, bind, get. rewrite Hq. cbn.
  unfold lift_res. by destruct (np_argmax q).
Qed.

Lemma greedy_or_default_absent s t :
  Q t !! s = None -> greedy_or_default s t = (Ok 1, t).
Proof.
  intros Hn. unfold greedy_or_default, bind, get.
  destruct (decide (is_Some (Q t !! s))) as [[q Hq]|_]; [congruence|reflexivity].
Qed.

Lemma on_Q_greedy_frame s w : fst (snd (on_Q (greedy_or_default s) w)) = fst w.
Proof.
  unfold on_Q. pose proof (greedy_or_default_frame s (fst w)) as Hf.
  destruct (greedy_or_default s (fst w)) as [r t']. exact Hf.
Qed.

Lemma on_env_frame {A} (c : M SnakeEnv A) w : fst (snd (on_env c w)) = fst w.
Proof. unfold on_env. by destruct (c (snd w)). Qed.

Lemma episode_loop_frame fuel s score w :
  fst (snd (episode_loop fuel s score w)) = fst w.
Proof.
  revert s score w. induction fuel as [|fuel IH]; intros s score w; [reflexivity|].
  cbn [episode_loop]. unfold bind at 1.
  pose proof (on_Q_greedy_frame s w) as Hq.
  destruct (on_Q (greedy_or_default s) w) as [[a|x] w1]; [|exact Hq].
  unfold bind at 1. pose proof (on_env_frame (step a) w1) as He.
  destruct (on_env (step a) w1) as [[[[[s' r] done] info]|x] w2];
    [|cbn in *; congruence].
  destruct done; [cbn in *; congruence|].
  rewrite IH. cbn in *. congruence.
Qed.

Lemma episodes_loop_frame k max_steps totals w :
  fst (snd (episodes_loop k max_steps totals w)) = fst w.
Proof.
  revert totals w. induction k as [|k IH]; intros totals w; [reflexivity|].
  cbn [episodes_loop]. unfold bind at 1.
  pose proof (on_env_frame reset w) as He.
  destruct (on_env reset w) as [[s|x] w1]; [|exact He].
  unfold bind at 1. pose proof (episode_loop_frame (Z.to_nat max_steps) s 0 w1) as Hl.
  destruct (episode_loop _ s 0 w1) as [[score|x] w2]; [|cbn in *; congruence].
  rewrite IH. cbn in *. congruence.
Qed.

(** C6: whatever the arguments and however the call ends, [evaluate] leaves
    the table exactly as it found it (no key is created, no vector changed),
    and for a state that is not a key of the table the action selected is
    the default action 1. *)
Theorem evaluate_table_read_only t episodes n g max_steps :
  snd (evaluate episodes n g max_steps t) = t /\
  forall s, Q t !! s = None -> greedy_or_default s t = (Ok 1, t).
Proof.
  split; [|intros s; apply greedy_or_default_absent].
  unfold evaluate, bind.
  pose proof (episodes_loop_frame (Z.to_nat episodes) max_steps [] (t, SnakeEnv_init n g)) as Hl.
  destruct (episodes_loop _ max_steps [] _) as [[totals|x] [t' e']]; cbn in Hl; subst t'.
  - unfold lift_res. reflexivity.
  - reflexivity.
Qed.

(** C3: with [episodes = 0] no episode runs, the array of scores is empty,
    and [evaluate] raises [ValueError] (from [arr.max()]) instead of
    returning statistics; the table is untouched. *)
Theorem evaluate_zero_episodes_raises t n g max_steps :
  evaluate 0 n g max_steps t = (Raise ValueError, t).
Proof. reflexivity. Qed.
End EvaluateFacts.

(** ** The definitions at work *)

(** Grid 12, fresh reset: the snake is at [(6,6); (5,6)] heading right; five
    straight steps take the head to x = 11, and one more ends the episode
    with reward -10. *)
Example straight_into_the_wall :
  let g := mkRng (fun _ => 5%nat) 0 in
  env_snake (snd (reset (SnakeEnv_init 12 g))) = [(6, 6); (5, 6)] /\
  env_snake (snd (play 12 [1; 1; 1; 1; 1] g)) = [(11, 6); (10, 6)] /\
  fst (step 1 (snd (play 12 [1; 1; 1; 1; 1] g))) =
    Ok ((0, 1, 0, -1, -1, 1), (-10)%float, true, ∅).
Proof. repeat split; vm_compute; reflexivity. Qed.

(** The tail cell is not a danger: on [env_3x3] the cell to the left of the
    head is the tail, the cell in front is free and the cell to the right is
    below the grid. *)
Example tail_is_not_a_danger :
  _state env_3x3 = (Ok (0, 0, 1, 1, 0, 1), env_3x3).
Proof. reflexivity. Qed.

Example update_example :
  update 7 0 5 7 2 3 qt_example = (Ok tt, mkQ 3 {[ 7 := [15; 0; -1] ]}).
Proof. vm_compute. reflexivity. Qed.

Example update_unseen_example :
  Q (snd (update 8 1 5 9 2 3 qt_example)) !! 8 = Some [0; 10; 0] /\
  Q (snd (update 8 1 5 9 2 3 qt_example)) !! 9 = Some [0; 0; 0].
Proof. split; vm_compute; reflexivity. Qed.

(** Two evaluation episodes on the 3x3 grid with an empty table: every state
    is unseen, the snake goes straight, eats once and hits the wall. *)
Example evaluate_example :
  fst (evaluate 2 3 (mkRng (fun _ => 5%nat) 0) 5 (QTable_init 3 : QTable state Z)) =
    Ok (mkStats 2 3 1 0 1 1).
Proof. vm_compute. reflexivity. Qed.

(** On the vector [1, 0, -1] the only maximizer is 0, whatever is drawn. *)
Example act_on_example_vector g : fst (act 7 0 (qt_example, g)) = Ok 0.
Proof. destruct g as [rawf c]. vm_compute. reflexivity. Qed.

(** On a vector that holds a NaN, [act] raises while [greedy] returns the
    index of the NaN. *)
Example act_on_nan_vector g :
  fst (act 7 fzero (qt_nan, g)) = Raise IndexError /\
  fst (greedy 7 qt_nan) = Ok 1.
Proof. destruct g as [rawf c]. split; vm_compute; reflexivity. Qed.

(** An update with a NaN [alpha] stores a NaN, and the next [act] on the key
    raises. *)
Example nan_alpha_then_act_raises g :
  let t' := snd (update 7 0 (Some 1) 7 None (Some 1) qt_example_nan_model) in
  Q t' !! 7 = Some [None; Some 0; Some (-1)] /\
  fst (act 7 fzero (t', g)) = Raise IndexError.
Proof. destruct g as [rawf c]. split; vm_compute; reflexivity. Qed.

(** ** More on the simulator *)

Lemma elem_of_py_range n x : x ∈ py_range n <-> 0 <= x < n.
Proof.
  unfold py_range. rewrite list_elem_of_fmap. split.
  - intros (k & -> & Hk%elem_of_seq). lia.
  - intros Hx. exists (Z.to_nat x). split; [lia|]. apply elem_of_seq. lia.
Qed.

Lemma elem_of_free_cells n snake (c : cell) :
  c ∈ free_cells n snake <-> in_grid n c /\ c ∉ snake.
Proof.
  unfold free_cells, in_grid.
  rewrite list_elem_of_In, filter_In, negb_true_iff, cell_in_false, in_flat_map.
  destruct c as [x y]. cbn [fst snd]. split.
  - intros [(x' & Hx%list_elem_of_In%elem_of_py_range & Hy%list_elem_of_In) Hs].
    apply list_elem_of_fmap in Hy as (y' & [= -> ->] & Hy%elem_of_py_range). auto.
  - intros [[Hx Hy] Hs]. split; [|done]. exists x. split.
    + by apply list_elem_of_In, elem_of_py_range.
    + apply list_elem_of_In, list_elem_of_fmap. exists y. split; [done|].
      by apply elem_of_py_range.
Qed.

Lemma info_ate_true :
  <["ate" := true]> ({["ate" := false]} : info_t) = {["ate" := true]}.
Proof. vm_compute. reflexivity. Qed.

(** Every way a call of [step] can return. *)
Lemma step_cases a e s r done info e' :
  step a e = (Ok (s, r, done, info), e') ->
  exists hx hy tl dx dy,
    env_snake e = (hx, hy) :: tl /\
    py_getitem DIRS (turned a (env_dir e)) = Ok (dx, dy) /\
    let nh := (hx + dx, hy + dy) in
    let d := turned a (env_dir e) in
    _state e' = (Ok s, e') /\
    ((done = true /\ r = (-10)%float /\ info = ∅ /\ e' = set_dir d e /\
      (_out_of_bounds (env_n e) nh = true \/
       (_out_of_bounds (env_n e) nh = false /\
        cell_in nh (if cell_eqb nh (env_food e) then env_snake e
                    else but_last (env_snake e)) = true)))
     \/
     (done = false /\ info = {["ate" := true]} /\
      _out_of_bounds (env_n e) nh = false /\ nh = env_food e /\
      cell_in nh (env_snake e) = false /\
      exists f g,
        f ∈ free_cells (env_n e) (nh :: env_snake e) /\
        choice (free_cells (env_n e) (nh :: env_snake e)) (env_rng e) = (Ok f, g) /\
        r = shaped (step_cost + 10)%float (_manhattan nh f) (env_prev_dist e) /\
        e' = mkEnv (env_n e) g d (nh :: env_snake e) f
                   (env_steps e + 1) (_manhattan nh f))
     \/
     (done = false /\ info = {["ate" := false]} /\
      _out_of_bounds (env_n e) nh = false /\ nh <> env_food e /\
      cell_in nh (but_last (env_snake e)) = false /\
      r = shaped step_cost (_manhattan nh (env_food e)) (env_prev_dist e) /\
      e' = mkEnv (env_n e) (env_rng e) d (nh :: but_last (env_snake e))
                 (env_food e) (env_steps e + 1) (_manhattan nh (env_food e)))).
Proof.
  intros H. unfold step in H.
  inv_bind H u e1 Ht. rewrite turn_spec in Ht. injection Ht as _ <-.
  inv_bind H e2 e3 Hg. injection Hg as <- <-.
  inv_bind H v e3 Hv. apply lift_res_Ok_inv in Hv as [Hv ->]. destruct v as [dx dy].
  inv_bind H h e3 Hh. apply lift_res_Ok_inv in Hh as [Hh ->]. destruct h as [hx hy].
  cbn [set_dir env_dir env_snake env_n env_food] in Hv, Hh, H.
  destruct (env_snake e) as [|h0 tl] eqn:Hsn; [by apply py_getitem_nil_inv in Hh|].
  rewrite py_getitem_head in Hh. injection Hh as ->.
  exists hx, hy, tl, dx, dy. split; [done|]. split; [exact Hv|]. cbn zeta.
  destruct (_out_of_bounds _ _) eqn:Hoob.
  { inv_bind H s0 e3 Hs. pose proof (state_frame _ _ _ Hs) as ->.
    injection H as <- <- <- <- <-. split; [exact Hs|]. left. repeat split; auto. }
  destruct (cell_in (hx + dx, hy + dy) _) eqn:Hbody.
  { inv_bind H s0 e3 Hs. pose proof (state_frame _ _ _ Hs) as ->.
    injection H as <- <- <- <- <-. split; [exact Hs|]. left. repeat split; auto. }
  inv_bind H u' e3 Hm. injection Hm as _ <-.
  inv_bind H ri e4 Hmove. destruct ri as [reward info0].
  inv_bind H e5 e6 Hg. injection Hg as <- <-.
  inv_bind H u2 e6 Hm. injection Hm as _ <-.
  inv_bind H u3 e6 Hm. injection Hm as _ <-.
  inv_bind H s0 e6 Hs. pose proof (state_frame _ _ _ Hs) as ->.
  injection H as <- <- <- <- <-. split; [exact Hs|]. right.
  destruct (cell_eqb _ _) eqn:Heat.
  - left. apply cell_eqb_eq in Heat.
    inv_bind Hmove u4 e5 Hp.
    unfold _place_food in Hp. inv_bind Hp e7 e8 Hg. injection Hg as <- <-.
    inv_bind Hp f e8 Hc. injection Hp as _ <-.
    unfold with_rng in Hc. cbn [env_rng env_n env_snake set_snake set_dir] in Hc.
    destruct (choice _ (env_rng e)) as [[f'|x] g] eqn:Ech; [|discriminate].
    injection Hc as -> <-.
    injection Hmove as <- <- <-.
    repeat split; auto using info_ate_true.
    exists f, g. split; [eapply choice_Ok_elem, Ech|]. repeat split; reflexivity.
  - right. assert ((hx + dx, hy + dy) <> env_food e) as Hne.
    { intros Heq%cell_eqb_eq. congruence. }
    inv_bind Hmove u4 e5 Hp. injection Hp as _ <-. injection Hmove as <- <- <-.
    repeat split; auto.
Qed.

Lemma oob_false_in_grid n c : _out_of_bounds n c = false <-> in_grid n c.
Proof.
  destruct c as [x y]. unfold _out_of_bounds, in_grid. cbn [fst snd].
  rewrite !orb_false_iff, !Z.ltb_ge, Z.geb_leb, Z.geb_leb, !Z.leb_gt. lia.
Qed.

Lemma but_last_take {A} (l : list A) : but_last l = take (length l - 1) l.
Proof.
  unfold but_last. destruct l as [|x l' _] using rev_ind; [done|].
  rewrite removelast_last, length_app. cbn [length].
  replace (length l' + 1 - 1)%nat with (length l') by lia.
  by rewrite take_app_length.
Qed.

Lemma but_last_NoDup {A} (l : list A) : NoDup l -> NoDup (but_last l).
Proof. rewrite but_last_take. intros Hnd. eapply sublist_NoDup, sublist_take. exact Hnd. Qed.

Lemma but_last_Forall {A} (P : A -> Prop) (l : list A) :
  Forall P l -> Forall P (but_last l).
Proof. rewrite but_last_take. apply Forall_take. Qed.

Lemma reset_cases e0 s e :
  reset e0 = (Ok s, e) ->
  let mid := env_n e0 / 2 in
  let body := [(mid, mid); (mid - 1, mid)] in
  _state e = (Ok s, e) /\
  exists f g,
    f ∈ free_cells (env_n e0) body /\
    choice (free_cells (env_n e0) body) (env_rng e0) = (Ok f, g) /\
    e = mkEnv (env_n e0) g 1 body f 0 (_manhattan (mid, mid) f).
Proof.
  intros H. unfold reset in H.
  inv_bind H u e1 Hm. injection Hm as _ <-.
  inv_bind H n e1 Hg. injection Hg as <- <-.
  inv_bind H u1 e1 Hm. injection Hm as _ <-.
  inv_bind H u2 e1 Hp.
  unfold _place_food in Hp. inv_bind Hp e7 e8 Hg. injection Hg as <- <-.
  inv_bind Hp f e8 Hc. injection Hp as _ <-.
  unfold with_rng in Hc. cbn [env_rng env_n env_snake set_snake set_dir] in Hc.
  destruct (choice _ (env_rng e0)) as [[f'|x] g] eqn:Ech; [|discriminate].
  injection Hc as -> <-.
  inv_bind H u3 e1 Hm. injection Hm as _ <-.
  inv_bind H e2 e1 Hg. injection Hg as <- <-.
  inv_bind H h e1 Hh. apply lift_res_Ok_inv in Hh as [Hh ->].
  cbn in Hh. injection Hh as <-.
  inv_bind H u4 e1 Hm. injection Hm as _ <-.
  pose proof (state_frame _ _ _ H) as ->.
  cbn zeta. split; [exact H|]. exists f, g.
  split; [eapply choice_Ok_elem, Ech|]. split; [exact Ech | reflexivity].
Qed.

Lemma reset_grid_state_ok e0 s e : reset e0 = (Ok s, e) -> grid_state_ok e.
Proof.
  intros (_ & f & g & Hf & _ & ->)%reset_cases.
  apply elem_of_free_cells in Hf as [[Hfx Hfy] Hfs].
  set (n := env_n e0) in *.
  assert (2 <= n) as Hn.
  { destruct (decide (n = 1)) as [Hn1|Hn1]; [|lia].
    exfalso. apply Hfs. rewrite Hn1. change (1 / 2) with 0.
    destruct f as [fx fy]. cbn [fst snd] in *.
    replace fx with 0 by lia. replace fy with 0 by lia. apply elem_of_cons. by left. }
  assert (1 <= n / 2 < n) as Hmid.
  { split; [apply Z.div_le_lower_bound; lia | apply Z.div_lt_upper_bound; lia]. }
  unfold grid_state_ok, in_grid. cbn [env_n env_snake env_dir env_food env_prev_dist].
  repeat split; try (cbn; lia); try done.
  - repeat constructor; cbn; lia.
  - apply NoDup_cons. split; [|apply NoDup_singleton].
    intros [= Hx]%list_elem_of_singleton. lia.
  - eauto.
Qed.

Lemma step_grid_state_ok e a r e' :
  grid_state_ok e -> step a e = (Ok r, e') -> grid_state_ok e'.
Proof.
  intros (Hn & Hlen & Hin & Hnd & Hdir & Hfin & Hfs & h & tl0 & Hh & Hpd) H.
  destruct r as [[[s r] done] info].
  apply step_cases in H as (hx & hy & tl & dx & dy & Hsn & Hv & _ & Hcase).
  cbn zeta in Hcase.
  pose proof (turned_range a _ Hdir) as Hd.
  destruct Hcase as [(_ & _ & _ & -> & _) | [(_ & _ & Hoob & Heat & Hbody & f & g & Hf & _ & _ & ->)
                                            | (_ & _ & Hoob & Hne & Hbody & _ & ->)]].
  - unfold grid_state_ok. cbn. repeat split; try done; try lia; try apply Hfin; eauto.
  - apply elem_of_free_cells in Hf as [Hfg Hfs'].
    apply oob_false_in_grid in Hoob. apply cell_in_false in Hbody.
    unfold grid_state_ok. cbn [env_n env_snake env_dir env_food env_prev_dist].
    split; [lia|]. split; [cbn [length]; lia|].
    split; [constructor; [exact Hoob | exact Hin]|].
    split; [by apply NoDup_cons|].
    split; [lia|]. split; [exact Hfg|]. split; [exact Hfs'|]. eauto.
  - apply oob_false_in_grid in Hoob. apply cell_in_false in Hbody.
    unfold grid_state_ok. cbn [env_n env_snake env_dir env_food env_prev_dist].
    split; [lia|]. split; [cbn [length]; rewrite but_last_length; lia|].
    split; [constructor; [exact Hoob | by apply but_last_Forall]|].
    split; [apply NoDup_cons; split; [done | by apply but_last_NoDup]|].
    split; [lia|]. split; [exact Hfin|]. split; [|eauto].
    intros [Heq | Hin']%elem_of_cons; [congruence|].
    by apply Hfs, but_last_elem.
Qed.

Lemma reachable_ok e : reachable e -> grid_state_ok e.
Proof.
  induction 1 as [e0 s e H | e a r e' _ IH H].
  - eapply reset_grid_state_ok, H.
  - eapply step_grid_state_ok; [exact IH | exact H].
Qed.

Ltac env_cbv :=
  cbv [set_food set_rng set_steps set_prev_dist set_snake set_dir
       env_n env_rng env_dir env_snake env_food env_steps env_prev_dist].

(** [step] run forwards from a state with a head and a heading in range. *)
Lemma step_run a n g d hx hy tl fd st pd dx dy :
  py_getitem DIRS (turned a d) = Ok (dx, dy) ->
  let sn := (hx, hy) :: tl in
  let nh := (hx + dx, hy + dy) in
  let e := mkEnv n g d sn fd st pd in
  (_out_of_bounds n nh = false -> cell_eqb nh fd = true ->
   cell_in nh sn = false -> free_cells n (nh :: sn) = [] ->
   step a e = (Raise IndexError, mkEnv n g (turned a d) (nh :: sn) fd st pd)) /\
  (~ (_out_of_bounds n nh = false /\ cell_eqb nh fd = true /\
      cell_in nh sn = false /\ free_cells n (nh :: sn) = []) ->
   returns (step a) e).
Proof.
  intros Hv sn nh e. subst e.
  assert (forall sn' g' fd' st' pd', sn' <> [] ->
            exists s, _state (mkEnv n g' (turned a d) sn' fd' st' pd') =
                      (Ok s, mkEnv n g' (turned a d) sn' fd' st' pd')) as Hstate.
  { intros [|[x y] l] g' fd' st' pd' Hne; [done|].
    destruct (state_Ok (mkEnv n g' (turned a d) ((x, y) :: l) fd' st' pd') x y l eq_refl)
      as (dl & df & dr & sdx & sdy & Hst & _). eauto. }
  assert (step a (mkEnv n g d sn fd st pd) =
          (let e1 := mkEnv n g (turned a d) sn fd st pd in
           if _out_of_bounds n nh then
             (let* s := _state in ret (s, (-10)%float, true, (∅ : info_t))) e1
           else if cell_in nh (if cell_eqb nh fd then sn else but_last sn) then
             (let* s := _state in ret (s, (-10)%float, true, (∅ : info_t))) e1
           else if cell_eqb nh fd then
             match choice (free_cells n (nh :: sn)) g with
             | (Ok f, g') =>
                 (let* s := _state in
                  ret (s, shaped (step_cost + 10)%float (_manhattan nh f) pd, false,
                       ({["ate" := true]} : info_t)))
                   (mkEnv n g' (turned a d) (nh :: sn) f (st + 1) (_manhattan nh f))
             | (Raise x, g') => (Raise x, mkEnv n g' (turned a d) (nh :: sn) fd st pd)
             end
           else
             (let* s := _state in
              ret (s, shaped step_cost (_manhattan nh fd) pd, false,
                   ({["ate" := false]} : info_t)))
               (mkEnv n g (turned a d) (nh :: but_last sn) fd (st + 1) (_manhattan nh fd))))
    as Hrun.
  { unfold step. unfold bind at 1. rewrite turn_spec. env_cbv.
    unfold bind at 1, get at 1. unfold bind at 1, lift_res at 1. env_cbv. rewrite Hv.
    unfold bind at 1, lift_res at 1. env_cbv. unfold sn at 1. rewrite py_getitem_head.
    fold nh. cbv zeta.
    destruct (_out_of_bounds n nh); [reflexivity|].
    destruct (cell_in nh _); [reflexivity|].
    unfold bind at 1, modify at 1. env_cbv.
    destruct (cell_eqb nh fd).
    - unfold bind at 1. unfold bind at 1. unfold _place_food, bind at 1, get at 1.
      unfold bind at 1, with_rng. env_cbv.
      destruct (choice _ g) as [[f|x] g']; [|reflexivity].
      unfold modify at 1. env_cbv. unfold ret at 1.
      unfold bind at 1, get at 1. unfold bind at 1, modify at 1.
      unfold bind at 1, modify at 1. env_cbv. rewrite info_ate_true. reflexivity.
    - unfold bind at 1. unfold bind at 1, modify at 1. env_cbv. unfold ret at 1.
      unfold bind at 1, get at 1. unfold bind at 1, modify at 1.
      unfold bind at 1, modify at 1. env_cbv. reflexivity. }
  unfold returns. rewrite Hrun. clear Hrun. cbv zeta. subst sn nh. split.
  - intros -> Heat Hin Hnil. rewrite Heat, Hin, Hnil. reflexivity.
  - intros Hnot.
    destruct (_out_of_bounds n (hx + dx, hy + dy)) eqn:Hoob.
    { destruct (Hstate ((hx, hy) :: tl) g fd st pd) as [s Hs]; [done|]. unfold bind, ret. rewrite Hs. eauto. }
    destruct (cell_in (hx + dx, hy + dy) (if cell_eqb (hx + dx, hy + dy) fd then ((hx, hy) :: tl) else but_last ((hx, hy) :: tl))) eqn:Hbody.
    { destruct (Hstate ((hx, hy) :: tl) g fd st pd) as [s Hs]; [done|]. unfold bind, ret. rewrite Hs. eauto. }
    destruct (cell_eqb (hx + dx, hy + dy) fd) eqn:Heat.
    + destruct (free_cells n ((hx + dx, hy + dy) :: ((hx, hy) :: tl))) as [|c l] eqn:Hfree; [exfalso; by apply Hnot|].
      destruct (choice_spec (c :: l) g) as (f & _ & Hch); [done|]. rewrite Hch.
      destruct (Hstate ((hx + dx, hy + dy) :: (hx, hy) :: tl) (mkRng (raw g) (S (cursor g))) f (st + 1) (_manhattan (hx + dx, hy + dy) f))
        as [s Hs]; [done|].
      unfold bind, ret. rewrite Hs. eauto.
    + destruct (Hstate ((hx + dx, hy + dy) :: but_last ((hx, hy) :: tl)) g fd (st + 1) (_manhattan (hx + dx, hy + dy) fd)) as [s Hs]; [done|].
      unfold bind, ret. rewrite Hs. eauto.
Qed.

(** ** Properties of the grid state *)

(** The encoder written out on a state with a head. *)
Lemma state_eval e hx hy tl :
  env_snake e = (hx, hy) :: tl ->
  exists dl df dr,
    _state e =
      (Ok (dl, df, dr,
           (if fst (env_food e) =? hx then 0 else if fst (env_food e) >? hx then 1 else -1),
           (if snd (env_food e) =? hy then 0 else if snd (env_food e) >? hy then 1 else -1),
           env_dir e), e) /\
    danger_flag_ok e (-1) dl /\ danger_flag_ok e 0 df /\ danger_flag_ok e 1 dr.
Proof.
  intros Hs.
  destruct (danger_Ok (-1) e hx hy tl Hs) as (dxl & dyl & Hl & El).
  destruct (danger_Ok 0 e hx hy tl Hs) as (dxf & dyf & Hf & Ef).
  destruct (danger_Ok 1 e hx hy tl Hs) as (dxr & dyr & Hr & Er).
  unfold _state. unfold bind at 1, get at 1.
  unfold bind at 1, lift_res at 1.
  destruct (py_getitem (env_snake e) 0) as [[hx' hy']|] eqn:E;
    rewrite Hs, py_getitem_head in E; [injection E as <- <-|discriminate].
  destruct (env_food e) as [fx fy]. cbn [fst snd].
  unfold bind, ret. rewrite El, Ef, Er.
  do 3 eexists. split; [reflexivity|].
  repeat split; eapply danger_flag_sound; eassumption.
Qed.

Lemma turned_rel a d :
  0 <= d < 4 -> a = 0 \/ a = 1 \/ a = 2 -> turned a d = (d + (a - 1)) mod 4.
Proof.
  intros Hd [-> | [-> | ->]]; unfold turned; cbn [Z.eqb].
  - reflexivity.
  - replace (d + (1 - 1)) with d by lia. symmetry. by apply Z.mod_small.
  - reflexivity.
Qed.

Lemma free_cells_small n body :
  n < 2 -> body = [(n / 2, n / 2); (n / 2 - 1, n / 2)] -> free_cells n body = [].
Proof.
  intros Hn ->. apply elem_of_nil_inv. intros [x y] [[Hx Hy] Hs]%elem_of_free_cells.
  cbn [fst snd] in *. assert (n = 1) as -> by lia. apply Hs.
  replace x with 0 by lia. replace y with 0 by lia. apply elem_of_cons. by left.
Qed.

Lemma free_cells_start n :
  2 <= n -> (0, 0) ∈ free_cells n [(n / 2, n / 2); (n / 2 - 1, n / 2)].
Proof.
  intros Hn. apply elem_of_free_cells. split; [unfold in_grid; cbn; lia|].
  assert (1 <= n / 2) by (apply Z.div_le_lower_bound; lia).
  intros [[= ?] | [[= ? ?] | ?%not_elem_of_nil]%elem_of_cons]%elem_of_cons; lia.
Qed.

Lemma choice_nil {A} g : choice (@nil A) g = (Raise IndexError, g).
Proof. reflexivity. Qed.

(** X1: every state a caller can observe satisfies the data model: the grid
    has side at least 2, the snake has at least two cells, all on the grid
    and pairwise distinct, the heading is one of the four directions, the food
    is on a grid cell the snake does not occupy, and the distance tracker
    holds the Manhattan distance from the head to the food. *)
Theorem reachable_grid_state_ok e : reachable e -> grid_state_ok e.
Proof. intros He. by apply reachable_ok. Qed.

Lemma reachable_grid_state_ok_witness : grid_state_ok env_3x3.
Proof. apply (reachable_grid_state_ok env_3x3). exact env_3x3_reachable. Defined.

(** X2: what a returning [step] does to the snake.  When it ends the episode
    the reward is -10, the info map is empty and body, food, step counter,
    distance tracker and generator are untouched.  Otherwise the step counter
    grows by one and either the move ate (the new head is the old food cell,
    the whole old body follows it, so the length grows by one and the tail
    stays, and the new food is off the snake) or it did not (the new head is
    followed by the old body without its tail, so the length is unchanged,
    and food and generator are untouched). *)
Theorem step_moves_snake a e s r done info e' :
  step a e = (Ok (s, r, done, info), e') ->
  (done = true ->
   r = (-10)%float /\ info = ∅ /\ env_snake e' = env_snake e /\
   env_food e' = env_food e /\ env_steps e' = env_steps e /\
   env_prev_dist e' = env_prev_dist e /\ env_rng e' = env_rng e) /\
  (done = false ->
   env_steps e' = env_steps e + 1 /\
   exists nh,
     (info = {["ate" := true]} /\ nh = env_food e /\
      env_snake e' = nh :: env_snake e /\
      length (env_snake e') = S (length (env_snake e)) /\
      (env_food e' ∉ env_snake e'))
     \/
     (info = {["ate" := false]} /\ nh <> env_food e /\
      env_snake e' = nh :: but_last (env_snake e) /\
      length (env_snake e') = length (env_snake e) /\
      env_food e' = env_food e /\ env_rng e' = env_rng e)).
Proof.
  intros (hx & hy & tl & dx & dy & Hsn & Hv & _ & Hcase)%step_cases.
  cbn zeta in Hcase.
  destruct Hcase as [(-> & -> & -> & -> & _)
                    | [(-> & -> & _ & Heat & _ & f & g & Hf & _ & _ & ->)
                      | (-> & -> & _ & Hne & _ & _ & ->)]].
  - split; [intros _; repeat split; reflexivity | discriminate].
  - split; [discriminate|]. intros _. split; [reflexivity|].
    exists (hx + dx, hy + dy). left. cbn [env_snake env_food].
    apply elem_of_free_cells in Hf as [_ Hf]. auto.
  - split; [discriminate|]. intros _. split; [reflexivity|].
    exists (hx + dx, hy + dy). right. cbn [env_snake env_food env_rng].
    repeat split; auto.
    cbn [length]. rewrite but_last_length, Hsn. reflexivity.
Qed.

Lemma step_moves_snake_witness :
  exists s r done info e',
    step 0 env_2x2 = (Ok (s, r, done, info), e') /\
    (done = true ->
     r = (-10)%float /\ info = ∅ /\ env_snake e' = env_snake env_2x2 /\
     env_food e' = env_food env_2x2 /\ env_steps e' = env_steps env_2x2 /\
     env_prev_dist e' = env_prev_dist env_2x2 /\ env_rng e' = env_rng env_2x2) /\
    (done = false ->
     env_steps e' = env_steps env_2x2 + 1 /\
     exists nh,
       (info = {["ate" := true]} /\ nh = env_food env_2x2 /\
        env_snake e' = nh :: env_snake env_2x2 /\
        length (env_snake e') = S (length (env_snake env_2x2)) /\
        (env_food e' ∉ env_snake e'))
       \/
       (info = {["ate" := false]} /\ nh <> env_food env_2x2 /\
        env_snake e' = nh :: but_last (env_snake env_2x2) /\
        length (env_snake e') = length (env_snake env_2x2) /\
        env_food e' = env_food env_2x2 /\ env_rng e' = env_rng env_2x2)).
Proof.
  do 5 eexists. split; [vm_compute; reflexivity|].
  eapply (step_moves_snake 0 env_2x2). vm_compute. reflexivity.
Defined.

(** X3: in every reachable state the food signals of the encoded state are
    the signs of the food's offset from the head, and they are never both
    zero (the food is never under the head). *)
Theorem food_signals e :
  reachable e ->
  exists hx hy tl dl df dr sdx sdy,
    env_snake e = (hx, hy) :: tl /\
    _state e = (Ok (dl, df, dr, sdx, sdy, env_dir e), e) /\
    sdx = Z.sgn (fst (env_food e) - hx) /\
    sdy = Z.sgn (snd (env_food e) - hy) /\
    (sdx <> 0 \/ sdy <> 0).
Proof.
  intros (_ & _ & _ & _ & _ & _ & Hfs & h & tl & Hsn & _)%reachable_ok.
  destruct h as [hx hy].
  destruct (state_eval e hx hy tl Hsn) as (dl & df & dr & Hst & _).
  exists hx, hy, tl, dl, df, dr. do 2 eexists.
  split; [exact Hsn|]. split; [exact Hst|].
  assert (env_food e <> (hx, hy)) as Hne.
  { intros Heq. apply Hfs. rewrite Hsn, Heq. apply elem_of_cons. by left. }
  destruct (env_food e) as [fx fy]. cbn [fst snd].
  assert (fx <> hx \/ fy <> hy) as Hd.
  { destruct (decide (fx = hx)) as [->|]; [|by left].
    right. intros ->. by apply Hne. }
  destruct (Z.eqb_spec fx hx), (Z.eqb_spec fy hy), (Z.gtb_spec fx hx), (Z.gtb_spec fy hy);
    repeat split; lia.
Qed.

Lemma food_signals_witness :
  exists hx hy tl dl df dr sdx sdy,
    env_snake env_3x3 = (hx, hy) :: tl /\
    _state env_3x3 = (Ok (dl, df, dr, sdx, sdy, env_dir env_3x3), env_3x3) /\
    sdx = Z.sgn (fst (env_food env_3x3) - hx) /\
    sdy = Z.sgn (snd (env_food env_3x3) - hy) /\
    (sdx <> 0 \/ sdy <> 0).
Proof. apply (food_signals env_3x3). exact env_3x3_reachable. Defined.


(** X4: the danger flags predict death.  From a reachable state, for an
    action among 0, 1, 2, a [step] that returns ends the episode exactly when
    the danger flag of that action (left, front, right) in the encoding of the
    state before the call is 1. *)
Theorem danger_flag_predicts_death a e s s' r done info e' :
  reachable e ->
  a = 0 \/ a = 1 \/ a = 2 ->
  _state e = (Ok s, e) ->
  step a e = (Ok (s', r, done, info), e') ->
  (done = true <-> danger_of s a = 1).
Proof.
  intros He Ha Hst Hstep.
  pose proof (reachable_ok e He) as (_ & _ & _ & _ & Hdir & _ & Hfs & _).
  apply step_cases in Hstep as (hx & hy & tl & dx & dy & Hsn & Hv & _ & Hcase).
  cbn zeta in Hcase.
  destruct (state_eval e hx hy tl Hsn) as (dl & df & dr & Hst' & Hl & Hf & Hr).
  rewrite Hst in Hst'. injection Hst' as ->.
  assert (danger_flag_ok e (a - 1) (danger_of (dl, df, dr,
            (if fst (env_food e) =? hx then 0 else if fst (env_food e) >? hx then 1 else -1),
            (if snd (env_food e) =? hy then 0 else if snd (env_food e) >? hy then 1 else -1),
            env_dir e) a)) as Hflag.
  { destruct Ha as [-> | [-> | ->]]; cbn; assumption. }
  set (flag := danger_of _ a) in *. clearbody flag.
  destruct Hflag as (hx' & hy' & tl' & dx' & dy' & Hsn' & Hd' & H01 & Hiff).
  rewrite Hsn in Hsn'. injection Hsn' as <- <- <-.
  rewrite <- (turned_rel a _ Hdir Ha) in Hd'.
  apply (lookup_DIRS_getitem _ _ (turned_range a _ Hdir)) in Hd'.
  rewrite Hv in Hd'. injection Hd' as <- <-.
  rewrite Hiff, <- out_of_bounds_off_grid, <- but_last_non_tail, <- cell_in_elem.
  assert (cell_in (hx + dx, hy + dy) (env_snake e) = true ->
          (hx + dx, hy + dy) <> env_food e) as Hnf.
  { intros Hin%cell_in_elem Heq. apply Hfs. by rewrite <- Heq. }
  destruct Hcase as [(-> & _ & _ & _ & Hdeath)
                    | [(-> & _ & Hoob & Heat & Hbody & _)
                      | (-> & _ & Hoob & Hne & Hbody & _)]].
  - split; [intros _|done].
    destruct Hdeath as [Hoob | [Hoob Hin]]; [by left|]. right.
    destruct (cell_eqb _ _) eqn:Heq; [|exact Hin].
    apply cell_eqb_eq in Heq. by apply Hnf in Hin.
  - split; [discriminate|]. intros [Hx | Hx]; [congruence|].
    apply cell_in_elem, but_last_elem, cell_in_elem in Hx. congruence.
  - split; [discriminate|]. intros [Hx | Hx]; congruence.
Qed.


Lemma danger_flag_predicts_death_witness :
  exists s s' r done info e',
    _state env_2x2 = (Ok s, env_2x2) /\
    step 0 env_2x2 = (Ok (s', r, done, info), e') /\
    (done = true <-> danger_of s 0 = 1).
Proof.
  do 6 eexists. split; [vm_compute; reflexivity|]. split; [vm_compute; reflexivity|].
  eapply (danger_flag_predicts_death 0 env_2x2).
  - exact env_2x2_reachable.
  - left. reflexivity.
  - vm_compute. reflexivity.
  - vm_compute. reflexivity.
Defined.

(** X5: [reset()] returns exactly on grids of side at least 2.  There it
    leaves the two-cell snake at the centre heading right, the step counter
    at 0, the food on a free grid cell and the distance tracker at the
    distance from the head to it, whatever the state before; on a smaller
    grid it raises [IndexError] after having set heading and snake. *)
Theorem reset_returns_iff e :
  let mid := env_n e / 2 in
  let body := [(mid, mid); (mid - 1, mid)] in
  (2 <= env_n e ->
   exists s f g,
     reset e = (Ok s, mkEnv (env_n e) g 1 body f 0 (_manhattan (mid, mid) f)) /\
     in_grid (env_n e) f /\ (f ∉ body)) /\
  (env_n e < 2 ->
   reset e = (Raise IndexError, set_snake body (set_dir 1 e))).
Proof.
  destruct e as [n g d sn fd st pd]. cbn [env_n]. cbn zeta. split; intros Hn.
  - pose proof (free_cells_start n Hn) as Hin.
    remember (n / 2) as mid eqn:Hmid.
    assert (free_cells n [(mid, mid); (mid - 1, mid)] <> []) as Hne.
    { intros Hnil. rewrite Hnil in Hin. by apply not_elem_of_nil in Hin. }
    destruct (choice_spec _ g Hne) as (f & Hf & Hch).
    apply list_elem_of_lookup_2, elem_of_free_cells in Hf as [Hfg Hfs].
    destruct (state_Ok (mkEnv n (mkRng (raw g) (S (cursor g)))
                              1 [(mid, mid); (mid - 1, mid)] f 0 (_manhattan (mid, mid) f))
                       mid mid [(mid - 1, mid)] eq_refl)
      as (dl & df & dr & sdx & sdy & Hst & _).
    eexists _, f, _. split; [|split; [exact Hfg | exact Hfs]].
    unfold reset, _place_food, bind, modify, gets, get, with_rng.
    cbv [set_food set_rng set_steps set_prev_dist set_snake set_dir
         env_n env_rng env_dir env_snake env_food env_steps env_prev_dist].
    rewrite <- Hmid, Hch. unfold lift_res. rewrite py_getitem_head.
    rewrite Hst. reflexivity.
  - unfold reset, _place_food, bind, modify, gets, get, with_rng.
    cbv [set_food set_rng set_steps set_prev_dist set_snake set_dir
         env_n env_rng env_dir env_snake env_food env_steps env_prev_dist].
    rewrite (free_cells_small n _ Hn eq_refl).
    rewrite choice_nil. reflexivity.
Qed.

Lemma free_cells_nil n l :
  free_cells n l = [] <-> forall c, in_grid n c -> c ∈ l.
Proof.
  split.
  - intros Hnil c Hc. destruct (decide (c ∈ l)) as [|Hn]; [done|].
    assert (c ∈ free_cells n l) as Hin by (by apply elem_of_free_cells).
    rewrite Hnil in Hin. by apply not_elem_of_nil in Hin.
  - intros Hall. apply elem_of_nil_inv. intros c [Hc Hn]%elem_of_free_cells. auto.
Qed.

Lemma elem_of_grid_cells n c : c ∈ grid_cells n <-> in_grid n c.
Proof.
  unfold grid_cells, in_grid. rewrite list_elem_of_In, in_flat_map.
  destruct c as [x y]. cbn [fst snd]. split.
  - intros (x' & Hx%list_elem_of_In%elem_of_py_range & Hy%list_elem_of_In).
    apply list_elem_of_fmap in Hy as (y' & [= -> ->] & Hy%elem_of_py_range). auto.
  - intros [Hx Hy]. exists x. split.
    + by apply list_elem_of_In, elem_of_py_range.
    + apply list_elem_of_In, list_elem_of_fmap. exists y. split; [done|].
      by apply elem_of_py_range.
Qed.

Lemma NoDup_py_range n : NoDup (py_range n).
Proof.
  unfold py_range. apply NoDup_fmap_2; [|apply NoDup_seq].
  intros x y Hxy. lia.
Qed.

Lemma NoDup_grid_cells n : NoDup (grid_cells n).
Proof.
  unfold grid_cells. generalize (NoDup_py_range n). generalize (py_range n) at 1 3.
  induction 1 as [|x l Hx Hl IH]; cbn [flat_map]; [constructor|].
  apply NoDup_app. split; [|split; [|exact IH]].
  - apply NoDup_fmap_2; [|apply NoDup_py_range]. by intros y1 y2 [= ->].
  - intros c (y & -> & _)%list_elem_of_fmap_1 Hin.
    apply list_elem_of_In, in_flat_map in Hin as (x' & Hx' & Hin).
    apply list_elem_of_In, list_elem_of_fmap_1 in Hin as (y' & [= <- _] & _).
    by apply Hx, list_elem_of_In.
Qed.

Lemma length_grid_cells n : length (grid_cells n) = (Z.to_nat n * Z.to_nat n)%nat.
Proof.
  assert (forall xs ys : list Z,
             length (flat_map (fun x => map (fun y => (x, y)) ys) xs) =
             (length xs * length ys)%nat) as Hprod.
  { induction xs as [|x xs IH]; intros ys; cbn [flat_map length]; [done|].
    rewrite length_app, length_map, IH. lia. }
  unfold grid_cells. rewrite Hprod. unfold py_range.
  by rewrite length_map, length_seq.
Qed.

Lemma full_grid_length n l :
  NoDup l -> Forall (in_grid n) l -> free_cells n l = [] ->
  length l = (Z.to_nat n * Z.to_nat n)%nat.
Proof.
  intros Hnd Hin Hnil. rewrite <- length_grid_cells.
  apply Permutation_length, NoDup_Permutation; [done | apply NoDup_grid_cells|].
  intros c. rewrite elem_of_grid_cells. split.
  - intros Hc. by eapply (proj1 (Forall_forall _ _) Hin).
  - by apply free_cells_nil.
Qed.

(** X6: from a reachable state [step] raises only when the move eats the
    last free cell.  If the cell ahead is the food and no cell is free once
    the head is on it, the call raises [IndexError], leaves the grown snake
    in place (with the stale food under its head) and the snake covers all
    [n * n] cells; in every other case the call returns. *)
Theorem step_raises_iff_grid_filled a e hx hy tl dx dy :
  reachable e ->
  env_snake e = (hx, hy) :: tl ->
  DIRS !! Z.to_nat (turned a (env_dir e)) = Some (dx, dy) ->
  let nh := (hx + dx, hy + dy) in
  let eats_last := nh = env_food e /\ free_cells (env_n e) (nh :: env_snake e) = [] in
  (eats_last ->
   step a e = (Raise IndexError,
               set_snake (nh :: env_snake e) (set_dir (turned a (env_dir e)) e)) /\
   Z.of_nat (length (nh :: env_snake e)) = env_n e * env_n e) /\
  (~ eats_last -> returns (step a) e).
Proof.
  intros (Hn & _ & Hin & Hnd & Hdir & Hfg & Hfs & _)%reachable_ok Hsn Hd nh eats_last.
  apply (lookup_DIRS_getitem _ _ (turned_range a _ Hdir)) in Hd.
  destruct e as [n g d sn fd st pd]. cbn [env_n env_snake env_dir env_food] in *. subst sn.
  destruct (step_run a n g d hx hy tl fd st pd dx dy Hd) as [Hraise Hret].
  cbn zeta in Hraise, Hret. fold nh in Hraise, Hret.
  assert (nh = fd -> _out_of_bounds n nh = false /\ cell_eqb nh fd = true /\
                     cell_in nh ((hx, hy) :: tl) = false) as Hfood.
  { intros ->. split; [by apply oob_false_in_grid|].
    split; [by apply cell_eqb_eq | by apply cell_in_false]. }
  split.
  - intros [Heq Hnil]. destruct (Hfood Heq) as (Hoob & Heat & Hbody).
    split; [by apply Hraise|].
    assert (length (nh :: (hx, hy) :: tl) = (Z.to_nat n * Z.to_nat n)%nat) as Hlen.
    { apply full_grid_length; [| |done].
      - apply NoDup_cons. split; [by apply cell_in_false | done].
      - constructor; [by apply oob_false_in_grid | done]. }
    rewrite Hlen, Nat2Z.inj_mul, Z2Nat.id by lia. reflexivity.
  - intros Hnot. apply Hret. intros (_ & Heat%cell_eqb_eq & _ & Hnil). by apply Hnot.
Qed.

Lemma step_raises_iff_grid_filled_witness :
  let nh := (1 + 1, 2 + 0) in
  let eats_last :=
    nh = env_food env_3x3 /\ free_cells (env_n env_3x3) (nh :: env_snake env_3x3) = [] in
  (eats_last ->
   step 1 env_3x3 = (Raise IndexError,
                     set_snake (nh :: env_snake env_3x3)
                               (set_dir (turned 1 (env_dir env_3x3)) env_3x3)) /\
   Z.of_nat (length (nh :: env_snake env_3x3)) = env_n env_3x3 * env_n env_3x3) /\
  (~ eats_last -> returns (step 1) env_3x3).
Proof.
  apply (step_raises_iff_grid_filled 1 env_3x3 1 2
           [(0, 2); (0, 1); (0, 0); (1, 0); (2, 0); (2, 1); (1, 1)] 1 0).
  - exact env_3x3_reachable.
  - reflexivity.
  - reflexivity.
Defined.

(** X7: the key that [reset] or [step] returns is the encoding of the state
    the environment is left in: encoding that state again gives the same
    key and changes nothing. *)
Theorem returned_state_is_current e s e' :
  reset e = (Ok s, e') \/
  (exists a r done info, step a e = (Ok (s, r, done, info), e')) ->
  _state e' = (Ok s, e').
Proof.
  intros [H | (a & r & done & info & H)].
  - by apply reset_cases in H as [H _].
  - by apply step_cases in H as (hx & hy & tl & dx & dy & _ & _ & H & _).
Qed.

Lemma returned_state_is_current_witness :
  exists s e', reset (SnakeEnv_init 2 (mkRng (fun _ => 0%nat) 0)) = (Ok s, e') /\
               _state e' = (Ok s, e').
Proof.
  do 2 eexists. split; [vm_compute; reflexivity|].
  eapply (returned_state_is_current (SnakeEnv_init 2 (mkRng (fun _ => 0%nat) 0))).
  left. vm_compute. reflexivity.
Defined.

#[warnings="-inexact-float"]
Lemma shaped_cases base dist prev :
  shaped base dist prev = (base + 0.05)%float \/
  shaped base dist prev = (base - 0.02)%float \/
  shaped base dist prev = base.
Proof. unfold shaped. destruct (dist <? prev), (dist >? prev); auto. Qed.

(** X8: the reward of a returning [step] tells its outcome: it is -10
    exactly when the episode ended, it is above 9 exactly when the move ate,
    and it is above -1 whenever the episode goes on. *)
Theorem reward_tells_outcome a e s r done info e' :
  step a e = (Ok (s, r, done, info), e') ->
  (done = true <-> r = (-10)%float) /\
  (info !! "ate" = Some true <-> PrimFloat.ltb 9 r = true) /\
  (done = false -> PrimFloat.ltb (-1) r = true).
Proof.
  intros (hx & hy & tl & dx & dy & _ & _ & _ & Hcase)%step_cases.
  cbn zeta in Hcase.
  destruct Hcase as [(-> & -> & -> & _)
                    | [(-> & -> & _ & _ & _ & f & g & _ & _ & -> & _)
                      | (-> & -> & _ & _ & _ & -> & _)]].
  - repeat split; try done; vm_compute; discriminate.
  - destruct (shaped_cases (step_cost + 10) (_manhattan (hx + dx, hy + dy) f) (env_prev_dist e))
      as [-> | [-> | ->]];
      (split; [split; [discriminate | intros H; apply (f_equal (PrimFloat.ltb 0)) in H;
                                      vm_compute in H; discriminate H]|]);
      (split; [split; [intros _; vm_compute; reflexivity | intros _; vm_compute; reflexivity]
              | intros _; vm_compute; reflexivity]).
  - destruct (shaped_cases step_cost (_manhattan (hx + dx, hy + dy) (env_food e)) (env_prev_dist e))
      as [-> | [-> | ->]];
      (split; [split; [discriminate | intros H; apply (f_equal (PrimFloat.ltb (-1))) in H;
                                      vm_compute in H; discriminate H]|]);
      (split; [split; [vm_compute; discriminate | vm_compute; discriminate]
              | intros _; vm_compute; reflexivity]).
Qed.

Lemma reward_tells_outcome_witness :
  exists s r done info e',
    step 0 env_2x2 = (Ok (s, r, done, info), e') /\
    (done = true <-> r = (-10)%float) /\
    (info !! "ate" = Some true <-> PrimFloat.ltb 9 r = true) /\
    (done = false -> PrimFloat.ltb (-1) r = true).
Proof.
  do 5 eexists. split; [vm_compute; reflexivity|].
  eapply (reward_tells_outcome 0 env_2x2). vm_compute. reflexivity.
Defined.

(** ** More on the Q-table *)

Section GreedyFacts.
Context {K : Type} `{Countable K} {F : Type} `{NpFloatLaws F}.
Implicit Types (t : QTable K F) (q : list F).

Lemma nan_free_app (l1 l2 : list F) : nan_free (l1 ++ l2) <-> nan_free l1 /\ nan_free l2.
Proof. apply Forall_app. Qed.

Lemma nan_free_elem q v : nan_free q -> v ∈ q -> feqb v v = true.
Proof. intros Hq Hv. by apply (proj1 (Forall_forall _ _) Hq). Qed.

Lemma argmax_from_nan i bi (best : F) l :
  feqb best best = false -> argmax_from i bi best l = bi.
Proof. intros E. destruct l; cbn [argmax_from]; [done|]. unfold fisnan. by rewrite E. Qed.

(** What numpy's loop returns from a NaN-free prefix [pre] whose first
    maximum is at [bi]: the first maximum of the whole vector when the rest
    holds no NaN, and the first NaN otherwise. *)
Lemma argmax_from_spec (l pre : list F) (bi : nat) (best : F) :
  pre !! bi = Some best -> nan_free pre ->
  (forall w, w ∈ pre -> fltb best w = false) ->
  (forall j u, (j < bi)%nat -> pre !! j = Some u -> fltb u best = true) ->
  exists (r : nat) (v : F),
    argmax_from (Z.of_nat (length pre)) (Z.of_nat bi) best l = Z.of_nat r /\
    (pre ++ l) !! r = Some v /\
    (nan_free l ->
     (forall w, w ∈ pre ++ l -> fltb v w = false) /\
     (forall j u, (j < r)%nat -> (pre ++ l) !! j = Some u -> fltb u v = true)) /\
    (~ nan_free l ->
     feqb v v = false /\
     (forall j u, (j < r)%nat -> (pre ++ l) !! j = Some u -> feqb u u = true)).
Proof.
  revert pre bi best. induction l as [|y l IH]; intros pre bi best Hbi Hpre Hmax Hfirst.
  - exists bi, best. rewrite app_nil_r. cbn [argmax_from].
    split; [done|]. split; [done|]. split; [by intros _|].
    intros Hn. exfalso. apply Hn. constructor.
  - pose proof (nan_free_elem pre best Hpre (list_elem_of_lookup_2 _ _ _ Hbi)) as Hbest.
    cbn [argmax_from]. unfold fisnan at 1. rewrite Hbest. cbn [negb].
    replace (Z.of_nat (length pre) + 1) with (Z.of_nat (length (pre ++ [y])))
      by (rewrite length_app; cbn; lia).
    replace (pre ++ y :: l) with ((pre ++ [y]) ++ l) by (by rewrite <- app_assoc).
    destruct (feqb y y) eqn:Ey.
    + assert (nan_free (pre ++ [y])) as Hpre'.
      { apply nan_free_app. split; [done|]. by constructor. }
      assert (nan_free (y :: l) <-> nan_free l) as Hyl.
      { unfold nan_free. split; [by intros [_ ?]%Forall_cons_1 | intros ?; by constructor]. }
      destruct (fleb y best) eqn:E; cbn [negb].
      * destruct (IH (pre ++ [y]) bi best) as (r & v & Hr & Hv & Hfree & Hnan).
        -- rewrite lookup_app_l; [done|]. by eapply lookup_lt_Some.
        -- exact Hpre'.
        -- intros w [Hw | ->%list_elem_of_singleton]%elem_of_app;
             [by apply Hmax | by apply fleb_true].
        -- intros j u Hj Hu. apply (Hfirst j u Hj).
           rewrite lookup_app_l in Hu; [done|]. apply lookup_lt_Some in Hbi. lia.
        -- exists r, v. split; [done|]. split; [done|]. rewrite Hyl. by split.
      * pose proof (fleb_false y best Ey Hbest E) as Hlt.
        destruct (IH (pre ++ [y]) (length pre) y) as (r & v & Hr & Hv & Hfree & Hnan).
        -- by rewrite lookup_app_r, Nat.sub_diag.
        -- exact Hpre'.
        -- intros w [Hw | ->%list_elem_of_singleton]%elem_of_app; [|apply fltb_irrefl].
           destruct (fltb y w) eqn:Eyw; [exfalso|done].
           pose proof (Hmax w Hw) as Hw'. by rewrite (fltb_trans _ _ _ Hlt Eyw) in Hw'.
        -- intros j u Hj Hu. rewrite lookup_app_l in Hu by done.
           pose proof (list_elem_of_lookup_2 _ _ _ Hu) as Hin.
           destruct (f_comparable u y (nan_free_elem pre u Hpre Hin) Ey) as [L|[L|L]]; [done| |].
           ++ exfalso. rewrite <- (feqb_fltb_r u y best L), (Hmax u Hin) in Hlt. done.
           ++ exfalso. pose proof (Hmax u Hin) as Hu'.
              by rewrite (fltb_trans _ _ _ Hlt L) in Hu'.
        -- exists r, v. split; [done|]. split; [done|]. rewrite Hyl. by split.
    + rewrite (fleb_nan_l y best Ey). cbn [negb]. rewrite (argmax_from_nan _ _ y l Ey).
      exists (length pre), y. split; [done|].
      split; [by rewrite lookup_app_l, lookup_app_r, Nat.sub_diag
                by (rewrite ?length_app; cbn; lia)|].
      split.
      * intros Hn. apply Forall_cons_1 in Hn as [Hn _]. cbn in Hn. congruence.
      * intros _. split; [done|]. intros j u Hj Hu.
        rewrite <- app_assoc, lookup_app_l in Hu by done.
        eapply nan_free_elem; [exact Hpre|]. eapply list_elem_of_lookup_2, Hu.
Qed.

Lemma np_argmax_spec q :
  q <> [] ->
  exists (r : nat) (v : F),
    np_argmax q = Ok (Z.of_nat r) /\ q !! r = Some v /\
    (nan_free q ->
     (forall w, w ∈ q -> fltb v w = false) /\
     (forall j u, (j < r)%nat -> q !! j = Some u -> fltb u v = true)) /\
    (~ nan_free q ->
     feqb v v = false /\
     (forall j u, (j < r)%nat -> q !! j = Some u -> feqb u u = true)).
Proof.
  destruct q as [|x xs]; [done|]. intros _. cbn [np_argmax].
  destruct (feqb x x) eqn:Ex.
  - destruct (argmax_from_spec xs [x] 0 x) as (r & v & Hr & Hv & Hfree & Hnan).
    + done.
    + by constructor.
    + intros w ->%list_elem_of_singleton. apply fltb_irrefl.
    + intros j u Hj. lia.
    + assert (nan_free (x :: xs) <-> nan_free xs) as Hx.
      { unfold nan_free. split; [by intros [_ ?]%Forall_cons_1 | intros ?; by constructor]. }
      exists r, v. split; [f_equal; exact Hr|]. split; [done|]. rewrite Hx. by split.
  - exists 0%nat, x. rewrite (argmax_from_nan _ _ x xs Ex).
    split; [done|]. split; [done|]. split.
    + intros Hn. apply Forall_cons_1 in Hn as [Hn _]. cbn in Hn. congruence.
    + intros _. split; [done|]. intros j u Hj. lia.
Qed.

(** X9: [greedy] on a table whose vectors have one entry per action (at
    least one action) returns, creating an unseen key with the all-zero
    vector.  When the key's vector holds no NaN the action is the lowest
    index that holds a maximal value: no entry exceeds the value at that
    index and every entry before it is strictly smaller; on an unseen key it
    is 0.  When the vector holds a NaN the action is the index of the first
    NaN. *)
Theorem greedy_lowest_maximizer t st :
  table_wf t -> 0 < actions t ->
  let Q1 := lazy_init (actions t) st (Q t) in
  exists q (i : nat) v,
    Q1 !! st = Some q /\
    greedy st t = (Ok (Z.of_nat i), mkQ (actions t) Q1) /\
    q !! i = Some v /\
    (nan_free q ->
     (forall w, w ∈ q -> fltb v w = false) /\
     (forall j u, (j < i)%nat -> q !! j = Some u -> fltb u v = true)) /\
    (~ nan_free q ->
     feqb v v = false /\
     (forall j u, (j < i)%nat -> q !! j = Some u -> feqb u u = true)) /\
    (Q t !! st = None -> i = 0%nat).
Proof.
  intros Hwf Hn Q1.
  pose proof (table_wf_lazy_init t st Hwf) as Hwf1. fold Q1 in Hwf1.
  destruct (Q1 !! st) as [q|] eqn:Eq; [|by subst Q1; rewrite lazy_init_lookup in Eq].
  pose proof (Hwf1 _ _ Eq) as Hlen. cbn [actions] in Hlen.
  destruct (np_argmax_spec q) as (i & v & Hi & Hv & Hfree & Hnan).
  { intros ->. cbn [length] in Hlen. lia. }
  exists q, i, v. split; [done|]. split; [|split; [done|split; [done|split; [done|]]]].
  - unfold greedy, bind. rewrite Q_getitem_spec by lia. fold Q1.
    assert (default (replicate (Z.to_nat (actions t)) fzero) (Q t !! st) = q) as ->.
    { subst Q1. rewrite lazy_init_lookup in Eq. by injection Eq. }
    unfold lift_res. by rewrite Hi.
  - intros Hnone. subst Q1. rewrite lazy_init_lookup, Hnone in Eq. cbn in Eq.
    injection Eq as <-.
    destruct Hfree as [_ Hfirst].
    { apply Forall_forall. intros x ->%elem_of_replicate_inv. apply fzero_eq. }
    destruct i as [|i]; [done|]. exfalso.
    destruct (lookup_lt_is_Some_2 (replicate (Z.to_nat (actions t)) fzero) 0) as [u Hu].
    { rewrite length_replicate. lia. }
    pose proof (Hfirst 0%nat u ltac:(lia) Hu) as Hlt.
    apply lookup_replicate in Hu as [-> _]. apply lookup_replicate in Hv as [-> _].
    by rewrite fltb_irrefl in Hlt.
Qed.
End GreedyFacts.

Lemma greedy_lowest_maximizer_witness :
  let t := qt_example in
  let Q1 := lazy_init (actions t) 8 (Q t) in
  exists q (i : nat) v,
    Q1 !! 8 = Some q /\
    greedy 8 t = (Ok (Z.of_nat i), mkQ (actions t) Q1) /\
    q !! i = Some v /\
    (nan_free q ->
     (forall w, w ∈ q -> fltb v w = false) /\
     (forall j u, (j < i)%nat -> q !! j = Some u -> fltb u v = true)) /\
    (~ nan_free q ->
     feqb v v = false /\
     (forall j u, (j < i)%nat -> q !! j = Some u -> feqb u u = true)) /\
    (Q t !! 8 = None -> i = 0%nat).
Proof.
  apply (greedy_lowest_maximizer qt_example 8).
  - exact qt_example_wf.
  - reflexivity.
Defined.

Section ActFacts.
Context {K : Type} `{Countable K} {F : Type} `{NpFloat F}.
Implicit Types (t : QTable K F) (q : list F).

(** X11: when the draw of [random.random()] is below [eps], [act] explores:
    it returns [randrange(actions)], a valid action index, and leaves the
    table exactly as it was (the key is not created); with no action to
    choose from it raises [ValueError]. *)
Theorem act_explores_without_touching_table t g st eps :
  fltb (frandom (raw g (cursor g))) eps = true ->
  (0 < actions t ->
   act st eps (t, g) =
     (Ok (Z.of_nat (raw g (S (cursor g)) mod Z.to_nat (actions t))%nat),
      (t, mkRng (raw g) (S (S (cursor g))))) /\
   0 <= Z.of_nat (raw g (S (cursor g)) mod Z.to_nat (actions t))%nat < actions t) /\
  (actions t <= 0 ->
   act st eps (t, g) = (Raise ValueError, (t, mkRng (raw g) (S (cursor g))))).
Proof.
  intros Hlt. split; intros Hn.
  - split.
    + unfold act. unfold bind at 1, on_random at 1, random_random. cbn [snd fst].
      rewrite Hlt. unfold bind, get, on_random, randrange. cbn [fst snd].
      replace (actions t <=? 0) with false by (symmetry; apply Z.leb_gt, Hn).
      reflexivity.
    + pose proof (Nat.mod_upper_bound (raw g (S (cursor g))) (Z.to_nat (actions t))). lia.
  - unfold act. unfold bind at 1, on_random at 1, random_random. cbn [snd fst].
    rewrite Hlt. unfold bind, get, on_random, randrange. cbn [fst snd].
    replace (actions t <=? 0) with true by (symmetry; apply Z.leb_le, Hn).
    reflexivity.
Qed.

(** X12: reading [Q[s]] on the [defaultdict].  A present key is returned
    without any change.  An absent key is created with the all-zero vector of
    length [actions], which is returned; the other keys are untouched and a
    second read returns the same vector and changes nothing.  With a negative
    action count the factory raises [ValueError] and no key is created. *)
Theorem Q_getitem_defaultdict t s :
  (forall q, Q t !! s = Some q -> Q_getitem s t = (Ok q, t)) /\
  (Q t !! s = None -> actions t < 0 -> Q_getitem s t = (Raise ValueError, t)) /\
  (Q t !! s = None -> 0 <= actions t ->
   let q := replicate (Z.to_nat (actions t)) fzero in
   let t' := mkQ (actions t) (<[s := q]> (Q t)) in
   Q_getitem s t = (Ok q, t') /\
   Z.of_nat (length q) = actions t /\
   Q t' !! s = Some q /\
   (forall k, k <> s -> Q t' !! k = Q t !! k) /\
   Q_getitem s t' = (Ok q, t')).
Proof.
  split; [|split].
  - intros q Hq. unfold Q_getitem, bind, get. rewrite Hq. reflexivity.
  - intros Hn Hneg. unfold Q_getitem, bind, get. rewrite Hn.
    unfold lift_res, np_zeros.
    replace (actions t <? 0) with true by (symmetry; apply Z.ltb_lt, Hneg).
    reflexivity.
  - intros Hn Hpos. cbn zeta.
    split; [|split; [|split; [|split]]].
    + unfold Q_getitem, bind, get. rewrite Hn. unfold lift_res, np_zeros.
      replace (actions t <? 0) with false by (symmetry; apply Z.ltb_ge, Hpos).
      reflexivity.
    + rewrite length_replicate. lia.
    + cbn [Q]. apply lookup_insert_eq.
    + intros k Hk. cbn [Q]. by apply lookup_insert_ne.
    + unfold Q_getitem, bind, get. cbn [Q]. rewrite lookup_insert_eq. reflexivity.
Qed.

(** X13: the frame of [update] on a well-shaped table: the action count is
    kept; every key other than [s] and [s2] keeps its vector; the keys of the
    new table are the old keys plus [s] and [s2]; the vector of [s2] (when it
    is not [s]) is the old one, or the all-zero vector if the key was absent;
    and every entry of the vector of [s] other than entry [a] is unchanged. *)
Theorem update_frame t s a r s2 alpha gamma :
  table_wf t -> 0 <= a < actions t ->
  exists t',
    update s a r s2 alpha gamma t = (Ok tt, t') /\
    actions t' = actions t /\
    (forall k, k <> s -> k <> s2 -> Q t' !! k = Q t !! k) /\
    (forall k, is_Some (Q t' !! k) <-> is_Some (Q t !! k) \/ k = s \/ k = s2) /\
    (s2 <> s ->
     Q t' !! s2 = Some (default (replicate (Z.to_nat (actions t)) fzero) (Q t !! s2))) /\
    (forall i, i <> Z.to_nat a ->
               (Q t' !! s ≫= (.!! i)) =
               default (replicate (Z.to_nat (actions t)) fzero) (Q t !! s) !! i).
Proof.
  intros Hwf Ha.
  destruct (update_spec t s a r s2 alpha gamma Hwf Ha)
    as (qs & q2 & old & m & Hqs & Hq2 & Hold & Hm & Hup).
  eexists. split; [exact Hup|]. cbn [actions Q]. split; [reflexivity|].
  assert (forall k, lazy_init (actions t) s2 (lazy_init (actions t) s (Q t)) !! k =
                    if decide (k = s2)
                    then Some (default (replicate (Z.to_nat (actions t)) fzero)
                                       (lazy_init (actions t) s (Q t) !! s2))
                    else if decide (k = s)
                         then Some (default (replicate (Z.to_nat (actions t)) fzero) (Q t !! s))
                         else Q t !! k) as Hlk.
  { intros k. destruct (decide (k = s2)) as [->|Hk2]; [apply lazy_init_lookup|].
    rewrite lazy_init_lookup_ne by done.
    destruct (decide (k = s)) as [->|Hk]; [apply lazy_init_lookup|].
    by apply lazy_init_lookup_ne. }
  split; [|split; [|split]].
  - intros k Hk Hk2. rewrite lookup_insert_ne by done. rewrite Hlk.
    rewrite decide_False by done. by rewrite decide_False.
  - intros k. destruct (decide (k = s)) as [->|Hk].
    + rewrite lookup_insert_eq. split; [auto | by eexists].
    + rewrite lookup_insert_ne by done. rewrite Hlk.
      destruct (decide (k = s2)) as [->|Hk2]; [split; [auto | by eexists]|].
      rewrite decide_False by done. split; [auto | by intros [? | [? | ?]]].
  - intros Hne. rewrite lookup_insert_ne by done. rewrite Hlk.
    rewrite decide_True by done. by rewrite lazy_init_lookup_ne.
  - intros i Hi. rewrite lookup_insert_eq. cbn.
    rewrite list_lookup_insert_ne by done.
    rewrite Hlk in Hqs. destruct (decide (s = s2)) as [<-|Hne].
    + rewrite lazy_init_lookup in Hqs. cbn in Hqs. by injection Hqs as <-.
    + rewrite decide_True in Hqs by done. by injection Hqs as <-.
Qed.
End ActFacts.

Lemma act_explores_without_touching_table_witness :
  let t : QTable Z Z := qt_example in
  let g := mkRng (fun i => 4%nat) 0 in
  (0 < actions t ->
   act 8 1 (t, g) =
     (Ok (Z.of_nat (raw g (S (cursor g)) mod Z.to_nat (actions t))%nat),
      (t, mkRng (raw g) (S (S (cursor g))))) /\
   0 <= Z.of_nat (raw g (S (cursor g)) mod Z.to_nat (actions t))%nat < actions t) /\
  (actions t <= 0 ->
   act 8 1 (t, g) = (Raise ValueError, (t, mkRng (raw g) (S (cursor g))))).
Proof.
  apply (act_explores_without_touching_table qt_example (mkRng (fun i => 4%nat) 0) 8 1).
  reflexivity.
Defined.

Lemma update_frame_witness :
  let t := qt_example in
  exists t',
    update 7 0 5 8 2 3 t = (Ok tt, t') /\
    actions t' = actions t /\
    (forall k, k <> 7 -> k <> 8 -> Q t' !! k = Q t !! k) /\
    (forall k, is_Some (Q t' !! k) <-> is_Some (Q t !! k) \/ k = 7 \/ k = 8) /\
    (8 <> 7 ->
     Q t' !! 8 = Some (default (replicate (Z.to_nat (actions t)) fzero) (Q t !! 8))) /\
    (forall i, i <> Z.to_nat 0 ->
               (Q t' !! 7 ≫= (.!! i)) =
               default (replicate (Z.to_nat (actions t)) fzero) (Q t !! 7) !! i).
Proof.
  apply (update_frame qt_example 7 0 5 8 2 3).
  - exact qt_example_wf.
  - cbn. lia.
Defined.

Section ActRange.
Context {K : Type} `{Countable K} {F : Type} `{NpFloatLaws F}.
Implicit Types (t : QTable K F) (q : list F).

Lemma elem_of_maximizers_range q m i :
  i ∈ maximizers q m -> 0 <= i < Z.of_nat (length q).
Proof.
  unfold maximizers, enumerate.
  intros ([j v] & -> & [(k & -> & Hk)%list_elem_of_In%elem_of_enumerate_from _]%list_elem_of_In%filter_In)%list_elem_of_fmap.
  apply lookup_lt_Some in Hk. cbn. lia.
Qed.

(** The exploiting branch of [act], run up to the choice among [idxs]. *)
Lemma act_exploit_run t g st eps :
  fltb (frandom (raw g (cursor g))) eps = false ->
  table_wf t -> 0 < actions t ->
  let Q1 := lazy_init (actions t) st (Q t) in
  exists q m,
    Q1 !! st = Some q /\ np_max q = Ok m /\
    act st eps (t, g) =
      match choice (maximizers q m) (mkRng (raw g) (S (cursor g))) with
      | (r, g') => (r, (mkQ (actions t) Q1, g'))
      end.
Proof.
  intros Hge Hwf Hn Q1.
  pose proof (table_wf_lazy_init t st Hwf) as Hwf1. fold Q1 in Hwf1.
  destruct (Q1 !! st) as [q|] eqn:Eq; [|by subst Q1; rewrite lazy_init_lookup in Eq].
  pose proof (Hwf1 _ _ Eq) as Hlen. cbn [actions] in Hlen.
  destruct (np_max_nonempty q) as [m Hm].
  { intros ->. cbn [length] in Hlen. lia. }
  exists q, m. split; [done|]. split; [done|].
  unfold act. unfold bind at 1, on_random at 1, random_random. cbn [snd fst].
  rewrite Hge.
  unfold bind at 1, on_table at 1. cbn [fst snd].
  rewrite Q_getitem_spec by lia. fold Q1.
  assert (default (replicate (Z.to_nat (actions t)) fzero) (Q t !! st) = q) as ->.
  { subst Q1. rewrite lazy_init_lookup in Eq. by injection Eq. }
  unfold bind at 1, lift_res at 1. rewrite Hm.
  unfold on_random. cbn [snd fst]. reflexivity.
Qed.

Lemma act_explore_run t g st eps :
  fltb (frandom (raw g (cursor g))) eps = true -> 0 < actions t ->
  act st eps (t, g) =
    (Ok (Z.of_nat (raw g (S (cursor g)) mod Z.to_nat (actions t))%nat),
     (t, mkRng (raw g) (S (S (cursor g))))).
Proof.
  intros Hu Hn.
  unfold act. unfold bind at 1, on_random at 1, random_random. cbn [snd fst].
  rewrite Hu. unfold bind, get, on_random, randrange. cbn [fst snd].
  replace (actions t <=? 0) with false by (symmetry; apply Z.leb_gt, Hn).
  reflexivity.
Qed.

Lemma table_nan_free_lazy_init t st :
  table_nan_free t -> table_nan_free (mkQ (actions t) (lazy_init (actions t) st (Q t))).
Proof.
  intros Hq k q. cbn [Q]. unfold lazy_init.
  destruct (Q t !! st) eqn:E; [apply Hq|].
  destruct (decide (st = k)) as [->|Hne].
  - rewrite lookup_insert_eq. intros [= <-].
    apply Forall_forall. intros x ->%elem_of_replicate_inv. apply fzero_eq.
  - rewrite lookup_insert_ne by done. apply Hq.
Qed.

(** Every way a call of [act] can end on a well-shaped table. *)
Lemma act_cases t g st eps :
  table_wf t -> 0 < actions t ->
  let Q1 := lazy_init (actions t) st (Q t) in
  (exists a t' g',
     act st eps (t, g) = (Ok a, (t', g')) /\
     0 <= a < actions t /\
     actions t' = actions t /\ table_wf t' /\
     (f32_table t -> f32_table t') /\
     (fltb (frandom (raw g (cursor g))) eps = true \/
      exists q, Q1 !! st = Some q /\ nan_free q)) \/
  (fltb (frandom (raw g (cursor g))) eps = false /\
   (exists q, Q1 !! st = Some q /\ ~ nan_free q) /\
   act st eps (t, g) =
     (Raise IndexError, (mkQ (actions t) Q1, mkRng (raw g) (S (cursor g))))).
Proof.
  intros Hwf Hn Q1. destruct (fltb (frandom (raw g (cursor g))) eps) eqn:Hu.
  - left. do 3 eexists. split; [by apply act_explore_run|].
    split; [|split; [done|split; [done|split; [done|by left]]]].
    pose proof (Nat.mod_upper_bound (raw g (S (cursor g))) (Z.to_nat (actions t))). lia.
  - destruct (act_exploit_run t g st eps Hu Hwf Hn) as (q & m & Hq & Hm & Hact).
    fold Q1 in Hq, Hact.
    pose proof (table_wf_lazy_init t st Hwf) as Hwf1.
    pose proof (np_max_maximal q m Hm) as [Hin _].
    destruct (decide (nan_free q)) as [Hfree|Hnan].
    + left.
      destruct (choice_spec (maximizers q m) (mkRng (raw g) (S (cursor g)))) as (a & Ha & Hch).
      { apply maximizers_nonempty; [done | by eapply np_max_nan_free]. }
      rewrite Hch in Hact. do 3 eexists. split; [exact Hact|].
      split; [|split; [done|split; [done|split; [by apply f32_table_lazy_init|]]]].
      * apply list_elem_of_lookup_2, elem_of_maximizers_range in Ha.
        pose proof (Hwf1 _ _ Hq) as Hlen. cbn [actions] in Hlen. lia.
      * right. by exists q.
    + right. split; [done|]. split; [by exists q|].
      rewrite (maximizers_nan q m) in Hact; [done|].
      apply (np_max_nan q m Hm). by apply not_nan_free.
Qed.

(** X10: [act] on a table whose vectors have one entry per action (at least
    one action).  Whenever it explores, or the vector of the state (the
    all-zero vector for an unseen state) holds no NaN, [act] returns: the
    action is a valid index ([0 <= a < actions]) and the table it leaves has
    the same action count, is again well shaped, and holds [float32] values
    if the table before did.  When it does not explore and the vector holds
    a NaN, [act] raises [IndexError] out of [random.choice], after one draw
    and with the key created. *)
Theorem act_returns_valid_action t g st eps :
  table_wf t -> 0 < actions t ->
  let explores := fltb (frandom (raw g (cursor g))) eps in
  let Q1 := lazy_init (actions t) st (Q t) in
  (explores = true \/ (forall q, Q1 !! st = Some q -> nan_free q) ->
   exists a t' g',
     act st eps (t, g) = (Ok a, (t', g')) /\
     0 <= a < actions t /\
     actions t' = actions t /\ table_wf t' /\
     (f32_table t -> f32_table t')) /\
  (explores = false -> (exists q, Q1 !! st = Some q /\ ~ nan_free q) ->
   act st eps (t, g) =
     (Raise IndexError, (mkQ (actions t) Q1, mkRng (raw g) (S (cursor g))))).
Proof.
  intros Hwf Hn explores Q1.
  destruct (act_cases t g st eps Hwf Hn)
    as [(a & t' & g' & Hact & Ha & Hn' & Hwf' & Hf' & Hwhy) | (Hu & (q & Hq & Hnan) & Hact)].
  - split; [intros _; by exists a, t', g'|].
    intros Hu (q & Hq & Hnan). exfalso.
    destruct Hwhy as [Hex|(q' & Hq' & Hfree)]; [subst explores; congruence|].
    fold Q1 in Hq'. congruence.
  - split; [|by intros _ _].
    intros [Hex|Hfree]; [subst explores; congruence|]. by specialize (Hfree q Hq).
Qed.

(** X14: [act] against [greedy] when [act] does not explore, on a table
    whose vectors have one entry per action (at least one action).  Both
    leave the same table.  When the vector of the state holds no NaN they
    choose among the same maximal entries: the value at the action of [act]
    equals ([==]) the value at the action of [greedy], and [greedy]'s action
    is the lower index (so the two agree when the maximum is attained once).
    When the vector holds a NaN, [greedy] returns the index of a NaN while
    [act] raises [IndexError]. *)
Theorem act_agrees_with_greedy t g st eps :
  fltb (frandom (raw g (cursor g))) eps = false ->
  table_wf t -> 0 < actions t ->
  let Q1 := lazy_init (actions t) st (Q t) in
  exists q (i : nat) vi,
    Q1 !! st = Some q /\
    greedy st t = (Ok (Z.of_nat i), mkQ (actions t) Q1) /\
    q !! i = Some vi /\
    fst (snd (act st eps (t, g))) = snd (greedy st t) /\
    (nan_free q ->
     exists (a : nat) va,
       fst (act st eps (t, g)) = Ok (Z.of_nat a) /\
       q !! a = Some va /\ feqb va vi = true /\ (i <= a)%nat) /\
    (~ nan_free q ->
     fst (act st eps (t, g)) = Raise IndexError /\ feqb vi vi = false).
Proof.
  intros Hu Hwf Hn Q1.
  destruct (act_exploit_run t g st eps Hu Hwf Hn) as (q & m & Hq & Hm & Hact).
  fold Q1 in Hq, Hact.
  pose proof (np_max_maximal q m Hm) as Hmax.
  pose proof (table_wf_lazy_init t st Hwf) as Hwf1.
  pose proof (Hwf1 _ _ Hq) as Hlen. cbn [actions] in Hlen.
  destruct (np_argmax_spec q) as (i & vi & Hi & Hvi & Hfree & Hnan).
  { intros ->. cbn [length] in Hlen. lia. }
  assert (greedy st t = (Ok (Z.of_nat i), mkQ (actions t) Q1)) as Hgr.
  { unfold greedy, bind. rewrite Q_getitem_spec by lia. fold Q1.
    assert (default (replicate (Z.to_nat (actions t)) fzero) (Q t !! st) = q) as ->.
    { subst Q1. rewrite lazy_init_lookup in Hq. by injection Hq. }
    unfold lift_res. by rewrite Hi. }
  exists q, i, vi. split; [done|]. split; [done|]. split; [done|].
  rewrite Hact, Hgr. split; [by destruct (choice _ _)|]. split.
  - intros Hq'. destruct (Hfree Hq') as [Himax Hfirst].
    destruct (choice_spec (maximizers q m) (mkRng (raw g) (S (cursor g)))) as (a & Ha & Hch).
    { apply maximizers_nonempty; [apply Hmax | by eapply np_max_nan_free]. }
    rewrite Hch. cbn [fst].
    apply list_elem_of_lookup_2, (elem_of_maximizers q m a Hq' Hmax) in Ha
      as (Hpos & va & Hva & Hamax).
    exists (Z.to_nat a), va. rewrite Z2Nat.id by lia.
    split; [done|]. split; [done|]. split.
    + eapply feqb_trans.
      * apply (feqb_maximal q m va Hq' Hmax); [eapply list_elem_of_lookup_2, Hva | done].
      * rewrite feqb_sym.
        apply (feqb_maximal q m vi Hq' Hmax); [eapply list_elem_of_lookup_2, Hvi | done].
    + destruct (decide (i <= Z.to_nat a)%nat) as [|Hgt]; [done|]. exfalso.
      pose proof (Hfirst (Z.to_nat a) va ltac:(lia) Hva) as Hlt.
      rewrite Hamax in Hlt; [done|]. eapply list_elem_of_lookup_2, Hvi.
  - intros Hq'. destruct (Hnan Hq') as [Hv _]. split; [|done].
    rewrite (maximizers_nan q m); [done|].
    apply (np_max_nan q m Hm). by apply not_nan_free.
Qed.

(** X15: [update] with an action index in range keeps the invariants of the
    table: it returns, the action count is unchanged, every vector still has
    one entry per action, and every entry is still a [float32] value. *)
Theorem update_keeps_table_invariants t s a r s2 alpha gamma :
  table_wf t -> f32_table t -> 0 <= a < actions t ->
  exists t', update s a r s2 alpha gamma t = (Ok tt, t') /\
             actions t' = actions t /\ table_wf t' /\ f32_table t'.
Proof. intros Hwf Hf Ha. by apply update_preserves. Qed.

(** X16: saving and loading any table, [float32] or not, keeps the action
    count and the set of keys, maps every vector entrywise through the
    [float32] rounding, yields a table of [float32] values, and a second
    round trip changes nothing more. *)
Theorem save_load_any_table t :
  actions (load (save t)) = actions t /\
  (forall k, Q (load (save t)) !! k = map f32 <$> Q t !! k) /\
  dom (Q (load (save t))) = dom (Q t) /\
  f32_table (load (save t)) /\
  load (save (load (save t))) = load (save t).
Proof.
  assert (f32_table (load (save t))) as Hf32.
  { intros k q. rewrite load_save_lookup. destruct (Q t !! k) as [q'|]; [|done].
    intros [= <-]. apply Forall_forall. intros x (y & -> & _)%list_elem_of_fmap_1.
    apply f32_idem. }
  split; [reflexivity|]. split; [apply load_save_lookup|]. split; [|split; [exact Hf32|]].
  - apply set_eq. intros k. rewrite !elem_of_dom, load_save_lookup.
    destruct (Q t !! k); cbn; split; intros [? ?]; by eauto.
  - destruct (load (save t)) as [n m] eqn:E. unfold load at 1. cbn [save snap_actions snap_Q Q actions].
    f_equal. apply map_eq. intros k.
    change (Q (load (save (mkQ n m))) !! k = m !! k).
    rewrite load_save_lookup. cbn [Q].
    destruct (m !! k) as [q|] eqn:Ek; [|done]. cbn. f_equal.
    apply map_f32_id. exact (Hf32 k q Ek).
Qed.
End ActRange.

Lemma act_returns_valid_action_witness :
  let t := qt_nan in
  let g := mkRng (fun i => 4%nat) 0 in
  let explores := fltb (frandom (raw g (cursor g))) (Some 0) in
  let Q1 := lazy_init (actions t) 7 (Q t) in
  (explores = true \/ (forall q, Q1 !! 7 = Some q -> nan_free q) ->
   exists a t' g',
     act 7 (Some 0) (t, g) = (Ok a, (t', g')) /\
     0 <= a < actions t /\
     actions t' = actions t /\ table_wf t' /\
     (f32_table t -> f32_table t')) /\
  (explores = false -> (exists q, Q1 !! 7 = Some q /\ ~ nan_free q) ->
   act 7 (Some 0) (t, g) =
     (Raise IndexError, (mkQ (actions t) Q1, mkRng (raw g) (S (cursor g))))).
Proof.
  apply (act_returns_valid_action qt_nan (mkRng (fun i => 4%nat) 0) 7 (Some 0)).
  - exact qt_nan_wf.
  - reflexivity.
Defined.

Lemma act_agrees_with_greedy_witness :
  let t := qt_nan in
  let g := mkRng (fun i => 4%nat) 0 in
  let Q1 := lazy_init (actions t) 7 (Q t) in
  exists q (i : nat) vi,
    Q1 !! 7 = Some q /\
    greedy 7 t = (Ok (Z.of_nat i), mkQ (actions t) Q1) /\
    q !! i = Some vi /\
    fst (snd (act 7 (Some 0) (t, g))) = snd (greedy 7 t) /\
    (nan_free q ->
     exists (a : nat) va,
       fst (act 7 (Some 0) (t, g)) = Ok (Z.of_nat a) /\
       q !! a = Some va /\ feqb va vi = true /\ (i <= a)%nat) /\
    (~ nan_free q ->
     fst (act 7 (Some 0) (t, g)) = Raise IndexError /\ feqb vi vi = false).
Proof.
  apply (act_agrees_with_greedy qt_nan (mkRng (fun i => 4%nat) 0) 7 (Some 0)).
  - reflexivity.
  - exact qt_nan_wf.
  - reflexivity.
Defined.

Lemma qt_example_f32 : f32_table qt_example.
Proof. intros k q _. apply Forall_forall. reflexivity. Qed.

Lemma update_keeps_table_invariants_witness :
  exists t', update 7 0 5 8 2 3 qt_example = (Ok tt, t') /\
             actions t' = actions qt_example /\ table_wf t' /\ f32_table t'.
Proof.
  apply (update_keeps_table_invariants qt_example 7 0 5 8 2 3).
  - exact qt_example_wf.
  - exact qt_example_f32.
  - cbn. lia.
Defined.

Lemma save_load_any_table_witness :
  actions (load (save qt_example)) = actions qt_example /\
  (forall k, Q (load (save qt_example)) !! k = map f32 <$> Q qt_example !! k) /\
  dom (Q (load (save qt_example))) = dom (Q qt_example) /\
  f32_table (load (save qt_example)) /\
  load (save (load (save qt_example))) = load (save qt_example).
Proof. apply (save_load_any_table qt_example). Defined.

(** ** More on the evaluation *)

Lemma np_amax_spec l mx :
  np_amax l = Ok mx -> mx ∈ l /\ forall x, x ∈ l -> x <= mx.
Proof.
  destruct l as [|x xs]; [discriminate|]. intros [= <-].
  assert (forall ys acc, (acc ∈ x :: xs) -> (forall y, y ∈ ys -> y ∈ x :: xs) ->
            fold_left Z.max ys acc ∈ x :: xs /\
            acc <= fold_left Z.max ys acc /\
            forall y, y ∈ ys -> y <= fold_left Z.max ys acc) as Hfold.
  { induction ys as [|y ys IH]; intros acc Hacc Hys; cbn [fold_left].
    - split; [done|]. split; [lia|]. by intros y ?%not_elem_of_nil.
    - destruct (IH (Z.max acc y)) as (Hin & Hle & Hall).
      + destruct (Z.max_spec acc y) as [[_ ->] | [_ ->]]; [apply Hys; by left | done].
      + intros z Hz. apply Hys. by right.
      + split; [done|]. split; [lia|].
        intros z [-> | Hz]%elem_of_cons; [lia | by apply Hall]. }
  destruct (Hfold xs x) as (Hin & Hle & Hall); [by left | by intros; right|].
  split; [done|]. intros z [-> | Hz]%elem_of_cons; [done | by apply Hall].
Qed.

Lemma np_amin_spec l mn :
  np_amin l = Ok mn -> mn ∈ l /\ forall x, x ∈ l -> mn <= x.
Proof.
  destruct l as [|x xs]; [discriminate|]. intros [= <-].
  assert (forall ys acc, (acc ∈ x :: xs) -> (forall y, y ∈ ys -> y ∈ x :: xs) ->
            fold_left Z.min ys acc ∈ x :: xs /\
            fold_left Z.min ys acc <= acc /\
            forall y, y ∈ ys -> fold_left Z.min ys acc <= y) as Hfold.
  { induction ys as [|y ys IH]; intros acc Hacc Hys; cbn [fold_left].
    - split; [done|]. split; [lia|]. by intros y ?%not_elem_of_nil.
    - destruct (IH (Z.min acc y)) as (Hin & Hle & Hall).
      + destruct (Z.min_spec acc y) as [[_ ->] | [_ ->]]; [done | apply Hys; by left].
      + intros z Hz. apply Hys. by right.
      + split; [done|]. split; [lia|].
        intros z [-> | Hz]%elem_of_cons; [lia | by apply Hall]. }
  destruct (Hfold xs x) as (Hin & Hle & Hall); [by left | by intros; right|].
  split; [done|]. intros z [-> | Hz]%elem_of_cons; [done | by apply Hall].
Qed.

Section EvaluateBounds.
Context {F : Type} `{NpFloat F} `{NpStats F}.
Implicit Types (t : QTable state F) (w : World (F := F)).

Lemma on_env_Ok_inv {A} (c : M SnakeEnv A) w a w' :
  on_env c w = (Ok a, w') -> c (snd w) = (Ok a, snd w') /\ fst w' = fst w.
Proof.
  unfold on_env. destruct (c (snd w)) as [r e] eqn:E. intros [= -> <-]. auto.
Qed.

Lemma episode_loop_score fuel s score w sc w' :
  episode_loop fuel s score w = (Ok sc, w') ->
  score <= sc <= score + Z.of_nat fuel.
Proof.
  revert s score w. induction fuel as [|fuel IH]; intros s score w Hl.
  - injection Hl as <- _. lia.
  - cbn [episode_loop] in Hl. inv_bind Hl a w1 Ha. inv_bind Hl out w2 Hs.
    destruct out as [[[s' r] done] info].
    destruct done.
    + injection Hl as <- _. destruct (default false _); lia.
    + apply IH in Hl. destruct (default false _); lia.
Qed.

Lemma episodes_loop_totals k max_steps totals w tl w' :
  episodes_loop k max_steps totals w = (Ok tl, w') ->
  exists new, tl = totals ++ new /\ length new = k /\
              Forall (fun x => 0 <= x <= Z.max 0 max_steps) new /\
              (k <> 0%nat -> 2 <= env_n (snd w)).
Proof.
  revert totals w. induction k as [|k IH]; intros totals w Hl.
  - injection Hl as <- _. exists []. rewrite app_nil_r.
    split; [done|]. split; [done|]. split; [constructor | done].
  - cbn [episodes_loop] in Hl. inv_bind Hl s w1 Hr. inv_bind Hl score w2 Hs.
    apply episode_loop_score in Hs. apply IH in Hl as (new & -> & Hlen & Hall & _).
    exists (score :: new). rewrite <- app_assoc. cbn.
    split; [done|]. split; [lia|]. split; [constructor; [lia | done]|].
    intros _. apply on_env_Ok_inv in Hr as [Hr _].
    pose proof (reset_grid_state_ok _ _ _ Hr) as (Hn & _).
    apply reset_cases in Hr as (_ & f & g & _ & _ & Hw1). rewrite Hw1 in Hn. exact Hn.
Qed.

Lemma evaluate_frame t episodes n g max_steps :
  snd (evaluate episodes n g max_steps t) = t.
Proof.
  unfold evaluate, bind.
  pose proof (episodes_loop_frame (Z.to_nat episodes) max_steps [] (t, SnakeEnv_init n g)) as Hl.
  destruct (episodes_loop _ max_steps [] _) as [[totals|x] [t1 e1]]; cbn in Hl; subst t1.
  - unfold lift_res. reflexivity.
  - reflexivity.
Qed.

Lemma evaluate_Ok_inv episodes n g max_steps t st t' :
  evaluate episodes n g max_steps t = (Ok st, t') ->
  exists totals mx mn,
    length totals = Z.to_nat episodes /\
    Forall (fun x => 0 <= x <= Z.max 0 max_steps) totals /\
    np_amax totals = Ok mx /\ np_amin totals = Ok mn /\
    st = mkStats episodes n (np_mean totals) (np_std totals) mx mn /\
    2 <= n.
Proof.
  unfold evaluate. intros Hev.
  destruct (bind _ _ _) as [r [t1 e1]] eqn:E. injection Hev as -> <-.
  inv_bind E totals w1 Hl. apply lift_res_Ok_inv in E as [Hag _].
  apply episodes_loop_totals in Hl as (new & -> & Hlen & Hall & Hn).
  cbn [app] in Hag. unfold aggregate in Hag.
  destruct (np_amax new) as [mx|] eqn:Emx; [|discriminate].
  destruct (np_amin new) as [mn|] eqn:Emn; [|discriminate].
  injection Hag as <-. exists new, mx, mn. repeat split; try done.
  apply Hn. destruct new; [discriminate | rewrite <- Hlen; done].
Qed.

(** X17: when [evaluate] returns, at least one episode was run on a grid of
    side at least 2, the result repeats the episode count and the grid size,
    the table is unchanged, and the statistics are those of a list of one
    score per episode: the minimum and the maximum are scores of the list
    and bound every score, every score lies between 0 and the step cap, and
    mean and standard deviation are numpy's of that list. *)
Theorem evaluate_statistics_bounds episodes n g max_steps t st t' :
  evaluate episodes n g max_steps t = (Ok st, t') ->
  1 <= episodes /\ 2 <= n /\
  stat_episodes st = episodes /\ stat_grid st = n /\
  0 <= min_score st <= max_score st /\ max_score st <= Z.max 0 max_steps /\
  t' = t /\
  exists totals,
    length totals = Z.to_nat episodes /\
    (max_score st ∈ totals) /\ (min_score st ∈ totals) /\
    (forall x, x ∈ totals -> min_score st <= x <= max_score st) /\
    mean_score st = np_mean totals /\ std_score st = np_std totals.
Proof.
  intros Hev.
  assert (t' = t) as Ht.
  { pose proof (evaluate_frame t episodes n g max_steps) as Hfr. by rewrite Hev in Hfr. }
  apply evaluate_Ok_inv in Hev as (totals & mx & mn & Hlen & Hall & Hmx & Hmn & -> & Hn).
  apply np_amax_spec in Hmx as [Hmx Hmax]. apply np_amin_spec in Hmn as [Hmn Hmin].
  cbn [stat_episodes stat_grid min_score max_score mean_score std_score].
  pose proof (proj1 (Forall_forall _ _) Hall) as Hb.
  pose proof (Hb _ Hmx) as Hbx. pose proof (Hb _ Hmn) as Hbn.
  pose proof (Hmax _ Hmn) as Hle. cbv beta in Hbx, Hbn.
  split. { destruct totals; [by apply not_elem_of_nil in Hmx | cbn [length] in Hlen; lia]. }
  split; [done|]. split; [done|]. split; [done|]. split; [lia|]. split; [lia|].
  split; [done|].
  exists totals. repeat split; auto.
Qed.
End EvaluateBounds.

Lemma evaluate_statistics_bounds_witness :
  let t : QTable state Z := QTable_init 3 in
  let st := mkStats 2 3 1 0 1 1 in
  1 <= 2 /\ 2 <= 3 /\
  stat_episodes st = 2 /\ stat_grid st = 3 /\
  0 <= min_score st <= max_score st /\ max_score st <= Z.max 0 5 /\
  t = t /\
  exists totals,
    length totals = Z.to_nat 2 /\
    (max_score st ∈ totals) /\ (min_score st ∈ totals) /\
    (forall x, x ∈ totals -> min_score st <= x <= max_score st) /\
    mean_score st = np_mean totals /\ std_score st = np_std totals.
Proof.
  apply (evaluate_statistics_bounds 2 3 (mkRng (fun _ => 5%nat) 0) 5 (QTable_init 3)).
  vm_compute. reflexivity.
Defined.

Section Policy.
Context {F : Type} `{NpFloatLaws F}.
Implicit Types (t : QTable state F).

Lemma argmax_from_zeros (k : nat) i bi :
  argmax_from i bi (fzero : F) (replicate k fzero) = bi.
Proof.
  revert i. induction k as [|k IH]; intros i; cbn [replicate argmax_from]; [done|].
  unfold fisnan, fleb. rewrite fzero_eq, orb_true_r. cbn [negb]. apply IH.
Qed.

(** X18: the evaluation policy against [QTable.greedy].  On a key of the
    table the two are the same computation.  On a state never seen (with at
    least one action) the evaluation falls back to action 1 and leaves the
    table alone, while [greedy] creates the all-zero vector and returns
    action 0. *)
Theorem evaluation_policy_vs_greedy t s :
  (forall q, Q t !! s = Some q -> greedy_or_default s t = greedy s t) /\
  (Q t !! s = None -> 0 < actions t ->
   greedy_or_default s t = (Ok 1, t) /\
   greedy s t = (Ok 0, mkQ (actions t)
                            (<[s := replicate (Z.to_nat (actions t)) fzero]> (Q t)))).
Proof.
  split.
  - intros q Hq. unfold greedy_or_default, greedy, bind, get.
    rewrite decide_True by (by eexists). reflexivity.
  - intros Hn Hpos. split; [by apply greedy_or_default_absent|].
    unfold greedy, bind. rewrite Q_getitem_spec by lia.
    unfold lazy_init. rewrite Hn. cbn [from_option id]. unfold lift_res.
    destruct (Z.to_nat (actions t)) as [|k] eqn:Ek; [lia|].
    cbn [replicate np_argmax]. by rewrite argmax_from_zeros.
Qed.
End Policy.

Lemma evaluation_policy_vs_greedy_witness :
  let t : QTable state Z := QTable_init 3 in
  let s : state := (0, 0, 0, 1, 0, 1) in
  (forall q, Q t !! s = Some q -> greedy_or_default s t = greedy s t) /\
  (Q t !! s = None -> 0 < actions t ->
   greedy_or_default s t = (Ok 1, t) /\
   greedy s t = (Ok 0, mkQ (actions t)
                            (<[s := replicate (Z.to_nat (actions t)) fzero]> (Q t)))).
Proof. apply (evaluation_policy_vs_greedy (QTable_init 3 : QTable state Z)). Defined.

(** ** Returning and raising calls of the environment *)

Lemma step_returns_or_full a e :
  grid_state_ok e ->
  returns (step a) e \/
  ((exists e', step a e = (Raise IndexError, e')) /\
   (Z.to_nat (env_n e) * Z.to_nat (env_n e) <= length (env_snake e) + 1)%nat).
Proof.
  intros (Hn & Hlen & Hin & Hnd & Hdir & Hfg & Hfs & [hx hy] & tl & Hsn & Hpd).
  destruct (py_getitem_DIRS _ (turned_range a _ Hdir)) as ([dx dy] & Hg & _).
  destruct e as [n g d sn fd st pd]. cbn [env_n env_snake env_dir env_food] in *. subst sn.
  destruct (step_run a n g d hx hy tl fd st pd dx dy Hg) as [Hraise Hret].
  cbn zeta in Hraise, Hret.
  set (nh := (hx + dx, hy + dy)) in *.
  destruct (_out_of_bounds n nh) eqn:Hoob; [left; apply Hret; by intros (? & _)|].
  destruct (cell_eqb nh fd) eqn:Heat; [|left; apply Hret; by intros (_ & ? & _)].
  destruct (cell_in nh ((hx, hy) :: tl)) eqn:Hbody; [left; apply Hret; by intros (_ & _ & ? & _)|].
  destruct (free_cells n (nh :: (hx, hy) :: tl)) as [|c l] eqn:Hfree;
    [|left; apply Hret; by intros (_ & _ & _ & ?)].
  right. split; [eexists; by apply Hraise|].
  assert (length (nh :: (hx, hy) :: tl) = (Z.to_nat n * Z.to_nat n)%nat) as Hfull.
  { apply full_grid_length; [| |done].
    - apply NoDup_cons. split; [by apply cell_in_false | done].
    - constructor; [by apply oob_false_in_grid | done]. }
  rewrite <- Hfull. cbn [length]. by rewrite Nat.add_1_r.
Qed.

Lemma step_size a e r e' :
  step a e = (Ok r, e') ->
  env_n e' = env_n e /\ (length (env_snake e') <= length (env_snake e) + 1)%nat.
Proof.
  destruct r as [[[s r] done] info]. intros H.
  apply step_cases in H as (hx & hy & tl & dx & dy & Hsn & _ & _ & Hcase).
  destruct Hcase as [(_ & _ & _ & -> & _) | [(_ & _ & _ & _ & _ & f & g & _ & _ & _ & ->)
                                            | (_ & _ & _ & _ & _ & _ & ->)]];
    cbn [env_n env_snake set_dir length]; split; try reflexivity; try lia.
  rewrite Hsn, but_last_length. cbn [length Nat.pred]. clear. lia.
Qed.

Lemma reset_returns_or_small e :
  (2 <= env_n e -> returns reset e) /\
  (env_n e < 2 -> exists e', reset e = (Raise IndexError, e')).
Proof.
  destruct e as [n g d sn fd st pd]. cbn [env_n]. split; intros Hn.
  - pose proof (free_cells_start n Hn) as Hin.
    remember (n / 2) as mid eqn:Hmid.
    assert (free_cells n [(mid, mid); (mid - 1, mid)] <> []) as Hne.
    { intros Hnil. rewrite Hnil in Hin. by apply not_elem_of_nil in Hin. }
    destruct (choice_spec _ g Hne) as (f & Hf & Hch).
    destruct (state_Ok (mkEnv n (mkRng (raw g) (S (cursor g)))
                              1 [(mid, mid); (mid - 1, mid)] f 0 (_manhattan (mid, mid) f))
                       mid mid [(mid - 1, mid)] eq_refl)
      as (dl & df & dr & sdx & sdy & Hst & _).
    do 2 eexists.
    unfold reset, _place_food, bind, modify, gets, get, with_rng.
    cbv [set_food set_rng set_steps set_prev_dist set_snake set_dir
         env_n env_rng env_dir env_snake env_food env_steps env_prev_dist].
    rewrite <- Hmid, Hch. unfold lift_res. rewrite py_getitem_head.
    rewrite Hst. reflexivity.
  - eexists. unfold reset, _place_food, bind, modify, gets, get, with_rng.
    cbv [set_food set_rng set_steps set_prev_dist set_snake set_dir
         env_n env_rng env_dir env_snake env_food env_steps env_prev_dist].
    rewrite (free_cells_small n _ Hn eq_refl). reflexivity.
Qed.

Lemma reset_size e0 s e :
  reset e0 = (Ok s, e) -> env_n e = env_n e0 /\ length (env_snake e) = 2%nat.
Proof. intros (_ & f & g & _ & _ & ->)%reset_cases. split; reflexivity. Qed.

(** ** Training *)

Lemma best_tracked_nil : best_tracked [] (-1, -1).
Proof. split; [by intros sc ?%elem_of_nil | by left]. Qed.

Lemma best_tracked_snoc scores best sc :
  best_tracked scores best -> 0 <= sc ->
  best_tracked (scores ++ [sc])
               (if sc >? fst best then (sc, Z.of_nat (length scores) + 1) else best).
Proof.
  intros [Hle Hcase] Hsc. destruct (Z.gtb_spec sc (fst best)) as [Hgt|Hngt].
  - split; cbn [fst snd].
    + intros x [Hx| ->%list_elem_of_singleton]%elem_of_app; [|lia].
      specialize (Hle x Hx). lia.
    + right. exists (length scores). split; [|split; [done|]].
      * by rewrite lookup_app_r, Nat.sub_diag.
      * intros j x Hj Hx. rewrite lookup_app_l in Hx by done.
        apply list_elem_of_lookup_2, Hle in Hx. lia.
  - split.
    + intros x [Hx| ->%list_elem_of_singleton]%elem_of_app; [by apply Hle | done].
    + right. destruct Hcase as [[-> ->] | (i & Hi & Hep & Hfirst)]; [cbn [fst] in Hngt; lia|].
      exists i. pose proof (lookup_lt_Some _ _ _ Hi) as Hlt.
      split; [by rewrite lookup_app_l | split; [done|]].
      intros j x Hj Hx. rewrite lookup_app_l in Hx by lia. by eapply Hfirst.
Qed.

Section TrainFacts.
Context {F : Type} `{NpFloatLaws F} `{NpStats F} `{TrainFloat F}.
Implicit Types (t : QTable state F) (g : Rng) (e : SnakeEnv).

Lemma train_steps_spec fuel alpha gamma eps : forall s score t g e,
  actions t = 3 -> table_wf t -> f32_table t -> grid_state_ok e ->
  match train_steps fuel alpha gamma eps s score ((t, g), e) with
  | (Ok sc, w') =>
      actions (fst (fst w')) = 3 /\ table_wf (fst (fst w')) /\ f32_table (fst (fst w')) /\
      env_n (snd w') = env_n e /\
      score <= sc <= score + Z.of_nat fuel
  | (Raise x, w') =>
      x = IndexError /\
      ((Z.to_nat (env_n e) * Z.to_nat (env_n e) <= length (env_snake e) + fuel)%nat \/
       ~ table_nan_free (fst (fst w')))
  end.
Proof.
  induction fuel as [|fuel IH]; intros s score t g e Ha Hwf Hf He.
  - cbn [train_steps ret fst snd]. repeat split; try done; lia.
  - cbn [train_steps]. unfold bind at 1. unfold on_agent at 1. cbn [fst snd].
    destruct (act_cases t g s eps Hwf ltac:(lia))
      as [(a & t1 & g1 & Hact & Hrange & Ha1 & Hwf1 & Hf1 & _)
         | (_ & (q & Hq & Hnan) & Hact)]; rewrite Hact; cycle 1.
    { split; [done|]. right. cbn [fst]. intros Hfree. apply Hnan, (Hfree s q Hq). }
    specialize (Hf1 Hf).
    unfold bind at 1. unfold on_train_env at 1. cbn [fst snd].
    destruct (step_returns_or_full a e He) as [(r & e1 & Hst) | [(e1 & Hst) Hfull]];
      rewrite Hst; [|split; [done | left; lia]].
    destruct r as [[[s2 r] done] info].
    pose proof (step_grid_state_ok _ _ _ _ He Hst) as He1.
    destruct (step_size _ _ _ _ Hst) as [Hn1 Hlen1].
    unfold bind at 1. unfold on_agent_table, on_agent, on_table. cbn [fst snd].
    destruct (update_preserves t1 s a (of_float r) s2 alpha gamma Hwf1 Hf1 ltac:(lia))
      as (t2 & Hup & Ha2 & Hwf2 & Hf2).
    rewrite Hup. set (score' := if default false (info !! "ate") then score + 1 else score).
    assert (score <= score' <= score + 1) as Hsc by (subst score'; destruct (default _ _); lia).
    destruct done.
    + cbn [ret fst snd]. repeat split; try done; try lia; try congruence.
    + specialize (IH s2 score' t2 g1 e1 ltac:(congruence) Hwf2 Hf2 He1).
      destruct (train_steps fuel alpha gamma eps s2 score' (t2, g1, e1)) as [[sc|x] w'].
      * destruct IH as (? & ? & ? & ? & ?). repeat split; try done; try lia; try congruence.
      * destruct IH as [-> [Hfull|Hnan]]; (split; [done|]); [left | by right].
        rewrite <- Hn1. lia.
Qed.

Lemma train_episodes_spec max_steps alpha gamma eps_start eps_end eps_decay k :
  forall ep scores best t g e,
  actions t = 3 -> table_wf t -> f32_table t ->
  ep = Z.of_nat (length scores) + 1 ->
  Forall (fun sc => 0 <= sc <= Z.max 0 max_steps) scores ->
  best_tracked scores best ->
  match train_episodes k ep eps_decay max_steps alpha gamma eps_start eps_end
                       scores best ((t, g), e) with
  | (Ok (scores', best'), w') =>
      actions (fst (fst w')) = 3 /\ table_wf (fst (fst w')) /\ f32_table (fst (fst w')) /\
      length scores' = (length scores + k)%nat /\
      Forall (fun sc => 0 <= sc <= Z.max 0 max_steps) scores' /\
      best_tracked scores' best'
  | (Raise x, w') =>
      x = IndexError /\ k <> 0%nat /\
      (env_n e < 2 \/
       (Z.to_nat (env_n e) * Z.to_nat (env_n e) <= 2 + Z.to_nat max_steps)%nat \/
       ~ table_nan_free (fst (fst w')))
  end.
Proof.
  induction k as [|k IH]; intros ep scores best t g e Ha Hwf Hf Hep Hsc Hbest.
  - cbn [train_episodes ret fst snd]. rewrite Nat.add_0_r. done.
  - cbn [train_episodes]. unfold bind at 1. unfold on_train_env at 1. cbn [fst snd].
    destruct (reset_returns_or_small e) as [Hret Hsmall].
    destruct (Z.lt_ge_cases (env_n e) 2) as [Hlt|Hge].
    { destruct (Hsmall Hlt) as (e' & ->). split; [done|]. split; [done | by left]. }
    destruct (Hret Hge) as (s & e1 & Hr). rewrite Hr.
    pose proof (reset_grid_state_ok _ _ _ Hr) as He1.
    destruct (reset_size _ _ _ Hr) as [Hn1 Hlen1].
    unfold bind at 1.
    pose proof (train_steps_spec (Z.to_nat max_steps) alpha gamma
                  (epsilon eps_start eps_end ep eps_decay) s 0 t g e1 Ha Hwf Hf He1) as Hst.
    destruct (train_steps _ _ _ _ s 0 (t, g, e1)) as [[sc|x] [[t2 g2] e2]].
    + cbn [fst snd] in Hst. destruct Hst as (Ha2 & Hwf2 & Hf2 & Hn2 & Hb).
      assert (0 <= sc <= Z.max 0 max_steps) as Hsc' by lia.
      specialize (IH (ep + 1) (scores ++ [sc])
                     (if sc >? fst best then (sc, ep) else best) t2 g2 e2 Ha2 Hwf2 Hf2).
      rewrite length_app in IH. cbn [length] in IH.
      specialize (IH ltac:(lia) ltac:(apply Forall_app; split; [done | by constructor])).
      assert (best_tracked (scores ++ [sc]) (if sc >? fst best then (sc, ep) else best))
        as Hbest' by (rewrite Hep; apply best_tracked_snoc; [done | lia]).
      specialize (IH Hbest').
      destruct (train_episodes k _ _ _ _ _ _ _ _ _ _) as [[[scores' best']|x] w'].
      * destruct IH as (? & ? & ? & Hl & ? & ?).
        do 3 (split; [done|]). split; [rewrite Hl; lia | by split].
      * destruct IH as (-> & _ & Hn). split; [done|]. split; [done|].
        rewrite Hn2, Hn1 in Hn. exact Hn.
    + destruct Hst as [-> [Hfull|Hnan]]; (split; [done|]); (split; [done|]); right;
        [left | by right].
      rewrite Hn1, Hlen1 in Hfull. exact Hfull.
Qed.

Lemma QTable_init_ok (n : Z) :
  table_wf (QTable_init n : QTable state F) /\ f32_table (QTable_init n : QTable state F).
Proof. split; intros k q Hq; cbn in Hq; by rewrite lookup_empty in Hq. Qed.

(** The loop of [train] from its initial state. *)
Lemma train_loop_cases episodes n alpha gamma eps_start eps_end max_steps g_agent g_env :
  match train_episodes (Z.to_nat episodes) 1 (Z.max 1 episodes) max_steps
                       alpha gamma eps_start eps_end [] (-1, -1)
                       ((QTable_init 3, g_agent), SnakeEnv_init n g_env) with
  | (Ok (scores, best), w') =>
      actions (fst (fst w')) = 3 /\ table_wf (fst (fst w')) /\ f32_table (fst (fst w')) /\
      length scores = Z.to_nat episodes /\
      Forall (fun sc => 0 <= sc <= Z.max 0 max_steps) scores /\
      best_tracked scores best
  | (Raise x, w') =>
      x = IndexError /\ 0 < episodes /\
      (n < 2 \/ n * n <= Z.max 0 max_steps + 2 \/ ~ table_nan_free (fst (fst w')))
  end.
Proof.
  destruct (QTable_init_ok 3) as [Hwf Hf].
  pose proof (train_episodes_spec max_steps alpha gamma eps_start eps_end
                (Z.max 1 episodes) (Z.to_nat episodes) 1 [] (-1, -1)
                (QTable_init 3) g_agent (SnakeEnv_init n g_env)
                eq_refl Hwf Hf eq_refl (Forall_nil_2 _) best_tracked_nil) as Hsp.
  destruct (train_episodes _ _ _ _ _ _ _ _ _ _ _) as [[[scores best]|x] w'].
  - exact Hsp.
  - destruct Hsp as (-> & Hk & Hn). split; [done|]. split; [lia|].
    change (env_n (SnakeEnv_init n g_env)) with n in Hn.
    destruct Hn as [Hn|[Hn|Hn]]; [by left| |by right; right].
    destruct (Z.lt_ge_cases n 2) as [?|Hge]; [by left | right; left].
    apply Nat2Z.inj_le in Hn. rewrite Nat2Z.inj_mul, Nat2Z.inj_add, !Z2Nat.id in Hn by lia.
    lia.
Qed.

(** X19: whatever [train] returns is well formed.  The table has three
    actions, every vector in it has three entries and holds [float32]
    values; there is one score per episode, each between 0 and the step cap;
    and the reported best score is the highest of them, reported with the
    first episode that reached it ((-1, -1) when no episode was run). *)
Theorem train_result_sound episodes n alpha gamma eps_start eps_end max_steps seed
        g_agent g_env q scores m :
  train episodes n alpha gamma eps_start eps_end max_steps seed g_agent g_env
    = Ok (q, scores, m) ->
  actions q = 3 /\ table_wf q /\ f32_table q /\
  length scores = Z.to_nat episodes /\
  Forall (fun sc => 0 <= sc <= Z.max 0 max_steps) scores /\
  best_tracked scores (m_best_score m, m_best_episode m).
Proof.
  intros Htr. unfold train in Htr.
  pose proof (train_loop_cases episodes n alpha gamma eps_start eps_end max_steps
                               g_agent g_env) as Hc.
  destruct (train_episodes _ _ _ _ _ _ _ _ _ _ _) as [[[scores' best]|x] [[q' g] e]];
    [|discriminate].
  injection Htr as <- <- <-. cbn [fst snd] in Hc.
  cbn [train_metrics m_best_score m_best_episode]. by destruct best.
Qed.


End TrainFacts.

Lemma train_result_sound_witness :
  exists q scores m,
    train (F:=Z) 2 3 1 1 1 0 4 0 (mkRng (fun i => (i * 7 + 3)%nat) 0)
          (mkRng (fun i => (i * 5 + 1)%nat) 0) = Ok (q, scores, m) /\
    (actions q = 3 /\ table_wf q /\ f32_table q /\
     length scores = Z.to_nat 2 /\
     Forall (fun sc => 0 <= sc <= Z.max 0 4) scores /\
     best_tracked scores (m_best_score m, m_best_episode m)).
Proof.
  set (g_agent := mkRng (fun i => (i * 7 + 3)%nat) 0).
  set (g_env := mkRng (fun i => (i * 5 + 1)%nat) 0).
  pose proof (train_loop_cases (F:=Z) 2 3 1 1 1 0 4 g_agent g_env) as Hc.
  set (loop := train_episodes (Z.to_nat 2) 1 (Z.max 1 2) 4 1 1 1 0 [] (-1, -1)
                              ((QTable_init 3, g_agent), SnakeEnv_init 3 g_env)) in Hc.
  assert (train (F:=Z) 2 3 1 1 1 0 4 0 g_agent g_env =
          match loop with
          | (Ok (scores, best), ((q, _), _)) =>
              Ok (q, scores, train_metrics 2 3 1 1 1 0 4 0 scores best)
          | (Raise x, _) => Raise x
          end) as Hrun by reflexivity.
  destruct loop as [[[scores best]|x] [[q g] e]].
  - exists q, scores, (train_metrics 2 3 1 1 1 0 4 0 scores best).
    split; [exact Hrun|].
    exact (train_result_sound (F:=Z) 2 3 1 1 1 0 4 0 g_agent g_env q scores _ Hrun).
  - exfalso. clear Hrun. destruct Hc as (_ & _ & [Hn|[Hn|Hnan]]); [lia | lia |].
    apply Hnan. intros k v _. apply Forall_forall. intros z _. apply Z.eqb_refl.
Defined.



(** ** When the evaluation returns *)

Section EvaluateReturns.
Context {F : Type} `{NpFloat F} `{NpStats F}.
Implicit Types (t : QTable state F) (e : SnakeEnv).

Lemma greedy_or_default_run s t :
  (forall k q, Q t !! k = Some q -> q <> []) ->
  exists a, greedy_or_default s t = (Ok a, t).
Proof.
  intros Hne. unfold greedy_or_default, bind, get.
  destruct (decide (is_Some (Q t !! s))) as [[q Hq]|Hn]; [|by eexists].
  unfold Q_getitem, bind, get. rewrite Hq. cbn.
  specialize (Hne s q Hq). destruct q as [|x xs]; [done|].
  unfold lift_res. cbn [np_argmax]. by eexists.
Qed.

Lemma episode_loop_spec fuel : forall s score t e,
  (forall k q, Q t !! k = Some q -> q <> []) -> grid_state_ok e ->
  match episode_loop fuel s score (t, e) with
  | (Ok sc, w') => fst w' = t /\ env_n (snd w') = env_n e
  | (Raise x, _) =>
      x = IndexError /\
      (Z.to_nat (env_n e) * Z.to_nat (env_n e) <= length (env_snake e) + fuel)%nat
  end.
Proof.
  induction fuel as [|fuel IH]; intros s score t e Hne He.
  - cbn [episode_loop ret fst snd]. done.
  - cbn [episode_loop]. unfold bind at 1. unfold on_Q at 1. cbn [fst snd].
    destruct (greedy_or_default_run s t Hne) as (a & ->).
    unfold bind at 1. unfold on_env at 1. cbn [fst snd].
    destruct (step_returns_or_full a e He) as [(r & e1 & Hst) | [(e1 & Hst) Hfull]];
      rewrite Hst; [|split; [done | lia]].
    destruct r as [[[s2 r] done] info].
    pose proof (step_grid_state_ok _ _ _ _ He Hst) as He1.
    destruct (step_size _ _ _ _ Hst) as [Hn1 Hlen1].
    destruct done; [cbn [ret fst snd]; done|].
    specialize (IH s2 (if default false (info !! "ate") then score + 1 else score) t e1 Hne He1).
    destruct (episode_loop fuel s2 _ (t, e1)) as [[sc|x] w'].
    + destruct IH as [? ?]. split; [done | congruence].
    + destruct IH as [-> Hfull]. split; [done|]. rewrite <- Hn1. lia.
Qed.

Lemma episodes_loop_spec max_steps k : forall totals t e,
  (forall k q, Q t !! k = Some q -> q <> []) ->
  match episodes_loop k max_steps totals (t, e) with
  | (Ok tl, w') => length tl = (length totals + k)%nat
  | (Raise x, _) =>
      x = IndexError /\ k <> 0%nat /\
      (env_n e < 2 \/
       (Z.to_nat (env_n e) * Z.to_nat (env_n e) <= 2 + Z.to_nat max_steps)%nat)
  end.
Proof.
  induction k as [|k IH]; intros totals t e Hne.
  - cbn [episodes_loop ret]. by rewrite Nat.add_0_r.
  - cbn [episodes_loop]. unfold bind at 1. unfold on_env at 1. cbn [fst snd].
    destruct (reset_returns_or_small e) as [Hret Hsmall].
    destruct (Z.lt_ge_cases (env_n e) 2) as [Hlt|Hge].
    { destruct (Hsmall Hlt) as (e' & ->). split; [done|]. split; [done | by left]. }
    destruct (Hret Hge) as (s & e1 & Hr). rewrite Hr.
    pose proof (reset_grid_state_ok _ _ _ Hr) as He1.
    destruct (reset_size _ _ _ Hr) as [Hn1 Hlen1].
    unfold bind at 1.
    pose proof (episode_loop_spec (Z.to_nat max_steps) s 0 t e1 Hne He1) as Hst.
    destruct (episode_loop _ s 0 (t, e1)) as [[sc|x] [t2 e2]].
    + cbn [fst snd] in Hst. destruct Hst as [-> Hn2].
      specialize (IH (totals ++ [sc]) t e2 Hne).
      destruct (episodes_loop k max_steps _ _) as [[tl|x] w'].
      * rewrite IH, length_app. cbn [length]. lia.
      * destruct IH as (-> & _ & Hn). split; [done|]. split; [done|].
        rewrite Hn2, Hn1 in Hn. exact Hn.
    + destruct Hst as [-> Hfull]. split; [done|]. split; [done|]. right.
      rewrite Hn1, Hlen1 in Hfull. exact Hfull.
Qed.

Lemma aggregate_nonempty episodes n totals :
  totals <> [] -> exists st, aggregate episodes n totals = Ok st.
Proof. destruct totals as [|x xs]; [done|]. intros _. by eexists. Qed.

(** X22: when [evaluate] returns and when it fails, on a table without an
    empty vector.  With at least one episode, on a grid of side at least 2
    that a snake cannot fill within the step cap ([max_steps + 2 < n * n]),
    the evaluation returns its statistics and leaves the table as it was.
    It fails in two ways only: with [ValueError] when no episode was asked
    for, and with the simulator's [IndexError] when the grid is too small or
    can be filled. *)
Theorem evaluate_returns_or_raises episodes n g max_steps t :
  (forall k q, Q t !! k = Some q -> q <> []) ->
  let run := evaluate episodes n g max_steps t in
  (0 < episodes -> 2 <= n -> Z.max 0 max_steps + 2 < n * n ->
   exists st, run = (Ok st, t)) /\
  (forall x t', run = (Raise x, t') ->
     (x = ValueError /\ episodes <= 0) \/
     (x = IndexError /\ 0 < episodes /\ (n < 2 \/ n * n <= Z.max 0 max_steps + 2))).
Proof.
  intros Hne run.
  assert (match run with
          | (Ok st, t') => t' = t
          | (Raise x, _) =>
              (x = ValueError /\ episodes <= 0) \/
              (x = IndexError /\ 0 < episodes /\ (n < 2 \/ n * n <= Z.max 0 max_steps + 2))
          end) as Hc.
  { subst run. unfold evaluate. unfold bind at 1.
    pose proof (episodes_loop_spec max_steps (Z.to_nat episodes) [] t (SnakeEnv_init n g) Hne)
      as Hsp.
    pose proof (episodes_loop_frame (Z.to_nat episodes) max_steps [] (t, SnakeEnv_init n g))
      as Hfr.
    destruct (episodes_loop _ _ _ _) as [[tl|x] [t1 e1]]; cbn [fst snd] in Hfr.
    - unfold lift_res. cbn [length] in Hsp. destruct tl as [|sc tl].
      + left. cbn [length] in Hsp. split; [reflexivity | lia].
      + cbn. exact Hfr.
    - right. destruct Hsp as (-> & Hk & Hn). split; [done|]. split; [lia|].
      change (env_n (SnakeEnv_init n g)) with n in Hn.
      destruct Hn as [Hn|Hn]; [by left|].
      destruct (Z.lt_ge_cases n 2) as [?|Hge]; [by left | right].
      apply Nat2Z.inj_le in Hn. rewrite Nat2Z.inj_mul, Nat2Z.inj_add, !Z2Nat.id in Hn by lia.
      lia. }
  split.
  - intros Hep Hn Hcap. destruct run as [[st|x] t']; [subst; by eexists|].
    destruct Hc as [[_ ?]|(_ & _ & ?)]; lia.
  - intros x t' Hx. by rewrite Hx in Hc.
Qed.
End EvaluateReturns.

Lemma evaluate_returns_or_raises_witness :
  let t : QTable state Z := mkQ 3 {[ (0, 0, 0, 1, 0, 1) := [0; 1; 0] ]} in
  let run := evaluate 2 3 (mkRng (fun _ => 5%nat) 0) 4 t in
  (0 < 2 -> 2 <= 3 -> Z.max 0 4 + 2 < 3 * 3 -> exists st, run = (Ok st, t)) /\
  (forall x t', run = (Raise x, t') ->
     (x = ValueError /\ 2 <= 0) \/
     (x = IndexError /\ 0 < 2 /\ (3 < 2 \/ 3 * 3 <= Z.max 0 4 + 2))).
Proof.
  intros t.
  apply (evaluate_returns_or_raises (F:=Z) 2 3 (mkRng (fun _ => 5%nat) 0) 4
           (mkQ 3 {[ (0, 0, 0, 1, 0, 1) := [0; 1; 0] ]})).
  intros k q Hq. cbn [Q] in Hq. apply lookup_singleton_Some in Hq as [_ <-]. done.
Defined.

(** ** The moving average *)

Section MovingAverage.
Context {F : Type} `{NpFloat F} `{FloatDiv F}.

Lemma ma_loop_inv (w : Z) (xs : list F) :
  1 <= w ->
  let '(q, acc, out) := fold_left (ma_step w) xs ([], fzero, []) in
  Z.of_nat (length q) = Z.min (Z.of_nat (length xs)) w /\
  length out = length xs /\
  (Z.of_nat (length xs) <= w -> q = xs /\ acc = fold_left fadd xs fzero) /\
  (forall i : nat, (i < length xs)%nat ->
     exists a, out !! i = Some (fdiv_len a (Z.min (Z.of_nat (S i)) w))) /\
  (forall i : nat, (i < length xs)%nat -> Z.of_nat (S i) <= w ->
     out !! i = Some (fdiv_len (fold_left fadd (take (S i) xs) fzero) (Z.of_nat (S i)))).
Proof.
  intros Hw. induction xs as [|x xs IH] using rev_ind.
  - cbn. split; [lia|]. split; [done|]. split; [done|]. split; intros i Hi; lia.
  - rewrite fold_left_app. destruct (fold_left (ma_step w) xs ([], fzero, [])) as [[q acc] out].
    destruct IH as (Hq & Hout & Hpre & Hdiv & Hmean).
    cbn [fold_left ma_step].
    set (q1 := q ++ [x]).
    assert (length q1 = S (length q)) as Hq1 by (subst q1; rewrite length_app; cbn; lia).
    destruct (Z.gtb_spec (Z.of_nat (length q1)) w) as [Hgt|Hle]; cbv beta iota zeta.
    + assert (length (tail q1) = length q) as Hq2 by (rewrite length_tl, Hq1; lia).
      rewrite Hq2, !length_app. cbn [length]. split; [lia|]. split; [lia|].
      split; [lia|]. split.
      * intros i Hi. destruct (decide (i = length xs)) as [->|Hne].
        -- eexists. rewrite lookup_app_r by lia. rewrite Hout, Nat.sub_diag. cbn.
           do 2 f_equal. lia.
        -- rewrite lookup_app_l by lia. apply Hdiv. lia.
      * intros i Hi Hiw. rewrite lookup_app_l by lia.
        rewrite take_app_le by lia. apply Hmean; lia.
    + rewrite Hq1, !length_app. cbn [length]. split; [lia|]. split; [lia|].
      destruct (Hpre ltac:(lia)) as [-> ->].
      split; [intros _; split; [done | by rewrite fold_left_app]|]. split.
      * intros i Hi. destruct (decide (i = length xs)) as [->|Hne].
        -- eexists. rewrite lookup_app_r by lia. rewrite Hout, Nat.sub_diag. cbn.
           do 2 f_equal. lia.
        -- rewrite lookup_app_l by lia. apply Hdiv. lia.
      * intros i Hi Hiw. destruct (decide (i = length xs)) as [->|Hne].
        -- rewrite lookup_app_r by lia. rewrite Hout, Nat.sub_diag. cbn.
           rewrite take_ge by (rewrite length_app; cbn; lia).
           rewrite fold_left_app. cbn. do 2 f_equal; lia.
        -- rewrite lookup_app_l by lia. rewrite take_app_le by lia. apply Hmean; lia.
Qed.

(** X23: [moving_average] returns one value per input.  The value at
    position [i] is a sum divided by [min (i + 1) w], where [w] is the
    window raised to at least 1, so the divisor is never zero; and while the
    window is not yet full ([i + 1 <= w]) it is the sum of the first [i + 1]
    inputs, added from the left starting at 0.0, divided by [i + 1]. *)
Theorem moving_average_spec (xs : list F) (window : Z) :
  let w := Z.max 1 window in
  let out := moving_average xs window in
  length out = length xs /\
  (forall i : nat, (i < length xs)%nat ->
     exists a, out !! i = Some (fdiv_len a (Z.min (Z.of_nat (S i)) w)) /\
               1 <= Z.min (Z.of_nat (S i)) w) /\
  (forall i : nat, (i < length xs)%nat -> Z.of_nat (S i) <= w ->
     out !! i = Some (fdiv_len (fold_left fadd (take (S i) xs) fzero) (Z.of_nat (S i)))).
Proof.
  intros w out. subst out. unfold moving_average. fold w.
  pose proof (ma_loop_inv w xs ltac:(lia)) as Hinv.
  destruct (fold_left (ma_step w) xs ([], fzero, [])) as [[q acc] out].
  destruct Hinv as (_ & Hout & _ & Hdiv & Hmean). cbn [snd].
  split; [done|]. split; [|done].
  intros i Hi. destruct (Hdiv i Hi) as (a & Ha). exists a. split; [done | lia].
Qed.
End MovingAverage.
